(** * genesis: tokenizer, Newick serialisation, tree nodes, bit vectors and
    the plausibility checker, embedded from the C++ sources.

    Conventions of the embedding.
    - [size_t] and [int] values are [Z], with the reduction modulo [2^64]
      written where [size_t] arithmetic can wrap; a position inside a text
      or a container, which never wraps, is a [nat].  [uint64_t] words are
      [Z] below [2^64], where the bit operations used keep them.
    - [std::vector] and [std::deque] are lists, [std::map] is [gmap],
      [std::string] is [string], a pointer to a link is its index.
    - A member function that mutates its object takes the object and
      returns the new one; a function that can stop at an [assert] or read
      outside of a vector returns an [option].
    - A loop is a [Fixpoint] on the number of rounds left.  Where the
      source bounds the loop by the length of the text, that bound is used
      (and shown to be enough); where it does not, the rounds are [fuel].
    - What the sources declare elsewhere (headers and files that are not
      at hand) is a parameter, or a definition marked as modelled from the
      specification. *)

From Stdlib Require Import ZArith List Bool Ascii String Lia.
From stdpp Require Import base option list gmap strings.
Import ListNotations.
Local Open Scope Z_scope.

(* ===================================================================== *)
(** * Part I: definitions                                                  *)
(* ===================================================================== *)

(* --------------------------------------------------------------------- *)
(** ** lib/utils/bitvector.hpp                                             *)
(* --------------------------------------------------------------------- *)

Module Bitvector.

(** [typedef uint64_t IntType; IntSize = sizeof(IntType) * 8]. *)
Definition IntSize : Z := 64.

Definition all_1_ : Z := 2 ^ IntSize - 1.

(** Modelled from the spec: the table [bit_mask_] is defined in
    bitvector.cpp, which is not among the sources; entry [k] is the word
    with only bit [k] set ("set/clear/test-by-index"). *)
Definition bit_mask_ (k : Z) : Z := Z.shiftl 1 k.

(** The two data members. *)
Record t : Type := Build {
  size_ : Z;
  data_ : list Z
}.

(** [data_[w]]: reading a word (0 stands for a word that is not there;
    under the bounds checks below the word index is always in range for
    a vector built by the constructor). *)
Definition word (b : t) (w : Z) : Z :=
  default 0 (data_ b !! Z.to_nat w).

Definition set_word (b : t) (w : Z) (v : Z) : t :=
  {| size_ := size_ b; data_ := <[ Z.to_nat w := v ]> (data_ b) |}.

(** [Bitvector (size, false)]: enough zeroed words for [size] bits. *)
Definition make (size : Z) : t :=
  {| size_ := size;
     data_ := replicate
                (Z.to_nat (size / IntSize + (if size mod IntSize =? 0 then 0 else 1)))
                0 |}.

(** [operator []], without boundary check. *)
Definition at_ (b : t) (index : Z) : bool :=
  negb (Z.land (word b (index / IntSize)) (bit_mask_ (index mod IntSize)) =? 0).

Definition Get (b : t) (index : Z) : bool :=
  if index >=? size_ b then false
  else negb (Z.land (word b (index / IntSize)) (bit_mask_ (index mod IntSize)) =? 0).

Definition Set_ (b : t) (index : Z) : t :=
  if index >=? size_ b then b
  else set_word b (index / IntSize)
         (Z.lor (word b (index / IntSize)) (bit_mask_ (index mod IntSize))).

Definition Unset (b : t) (index : Z) : t :=
  if index >=? size_ b then b
  else set_word b (index / IntSize)
         (Z.land (word b (index / IntSize))
                 (Z.lxor all_1_ (bit_mask_ (index mod IntSize)))).

(** [Set (index, value)]. *)
Definition Set_to (b : t) (index : Z) (value : bool) : t :=
  if value then Set_ b index else Unset b index.

Definition Flip (b : t) (index : Z) : t :=
  if index >=? size_ b then b
  else set_word b (index / IntSize)
         (Z.lxor (word b (index / IntSize)) (bit_mask_ (index mod IntSize))).

End Bitvector.

(* --------------------------------------------------------------------- *)
(** ** lib/utils/lexer.cpp                                                 *)
(* --------------------------------------------------------------------- *)

Module Lexer.

(** The token types named by lexer.cpp. *)
Inductive LexerTokenType : Type :=
  | kError | kUnknown | kWhite | kComment | kSymbol
  | kNumber | kString | kBracket | kOperator | kTag.

Definition type_eqb (a b : LexerTokenType) : bool :=
  match a, b with
  | kError, kError | kUnknown, kUnknown | kWhite, kWhite
  | kComment, kComment | kSymbol, kSymbol | kNumber, kNumber
  | kString, kString | kBracket, kBracket | kOperator, kOperator
  | kTag, kTag => true
  | _, _ => false
  end.

(** Modelled from the spec: [LexerToken] is declared in lexer.hpp, which is
    not among the sources.  "Each token carries its type, its source
    line/column (for diagnostics), and its lexeme"; the embedding keeps the
    text position handed to [PushToken], from which line and column are
    derived. *)
Record LexerToken : Type := Token {
  type_ : LexerTokenType;
  position_ : nat;
  value_ : string
}.

Definition IsError (t : LexerToken) : bool := type_eqb (type_ t) kError.
Definition IsBracket (t : LexerToken) : bool := type_eqb (type_ t) kBracket.

(** [s[0]] of a [std::string]: the terminating NUL when [s] is empty. *)
Definition front_char (s : string) : ascii :=
  match s with
  | EmptyString => zero
  | String c _ => c
  end.

(** The body of the range-for of [ValidateBrackets] for one token: the new
    stack, or [None] for the early [return false]. *)
Definition validate_token (t : LexerToken) (stk : list ascii) : option (list ascii) :=
  if negb (IsBracket t) then Some stk
  else
    let c := front_char (value_ t) in
    let stk := if Ascii.eqb c "(" then ")"%char :: stk else stk in
    let stk := if Ascii.eqb c "[" then "]"%char :: stk else stk in
    let stk := if Ascii.eqb c "{" then "}"%char :: stk else stk in
    let stk := if Ascii.eqb c "<" then ">"%char :: stk else stk in
    if Ascii.eqb c ")" || Ascii.eqb c "]" || Ascii.eqb c "}" || Ascii.eqb c ">" then
      match stk with
      | [] => None
      | top :: rest => if negb (Ascii.eqb c top) then None else Some rest
      end
    else Some stk.

Fixpoint validate_loop (tokens : list LexerToken) (stk : list ascii) : bool :=
  match tokens with
  | [] => true
  | t :: rest =>
    match validate_token t stk with
    | None => false
    | Some stk' => validate_loop rest stk'
    end
  end.

Definition ValidateBrackets (tokens_ : list LexerToken) : bool :=
  validate_loop tokens_ [].

Local Open Scope nat_scope.

(** The classes of lexers in the sources: [Lexer] itself, and [NewickLexer]
    (newick_processor.hpp), which overrides [ScanComment], [ScanNumber] and
    [ScanTag]. *)
Inductive LexerClass : Type := BaseLexer | NewickLexer.

(** The data members of a [Lexer] that lexer.cpp reads and writes: the
    text, the position in it, the tokens produced so far, the table that
    gives the token type a character starts, and the option flags; with
    them the class of the object, which decides its virtual calls, and the
    flag [include_tags] that [NewickLexer] adds. *)
Record Lexer : Type := Build {
  class_ : LexerClass;
  text_ : string;
  itr_ : nat;
  tokens_ : list LexerToken;
  start_char_table_ : ascii -> LexerTokenType;
  include_whitespace : bool;
  include_comments : bool;
  glue_sign_to_number : bool;
  trim_quotation_marks : bool;
  use_string_escape : bool;
  use_string_doubled_quotes : bool;
  include_tags : bool
}.

Definition set_itr (l : Lexer) (i : nat) : Lexer :=
  Build (class_ l) (text_ l) i (tokens_ l) (start_char_table_ l)
        (include_whitespace l) (include_comments l) (glue_sign_to_number l)
        (trim_quotation_marks l) (use_string_escape l) (use_string_doubled_quotes l)
        (include_tags l).

Definition set_tokens (l : Lexer) (ts : list LexerToken) : Lexer :=
  Build (class_ l) (text_ l) (itr_ l) ts (start_char_table_ l)
        (include_whitespace l) (include_comments l) (glue_sign_to_number l)
        (trim_quotation_marks l) (use_string_escape l) (use_string_doubled_quotes l)
        (include_tags l).

(** Modelled from the spec: the inline helpers below are declared in
    lexer.hpp, which is not among the sources; they are the cursor of the
    tokenizer ("consumes a text buffer", "each token carries its type, its
    source line/column, and its lexeme"): the character under the cursor or
    at an offset from it, the end test, the advance by one character, the
    substring between two positions and the append of a token. *)
Definition len_ (l : Lexer) : nat := String.length (text_ l).

(** [text_[n]]; the buffer of a [std::string] ends with NUL. *)
Definition char_at (s : string) (n : nat) : ascii :=
  default zero (String.get n s).

Definition GetPosition (l : Lexer) : nat := itr_ l.

Definition GetChar (l : Lexer) : ascii := char_at (text_ l) (itr_ l).

Definition GetCharOff (l : Lexer) (offset : Z) : ascii :=
  char_at (text_ l) (Z.to_nat (Z.of_nat (itr_ l) + offset)).

Definition GetCharType (l : Lexer) : LexerTokenType :=
  start_char_table_ l (GetChar l).

Definition IsEnd (l : Lexer) : bool := len_ l <=? itr_ l.

Definition IsEndOff (l : Lexer) (offset : Z) : bool :=
  (Z.of_nat (len_ l) <=? Z.of_nat (itr_ l) + offset)%Z.

Definition NextChar (l : Lexer) : Lexer := set_itr l (S (itr_ l)).

Definition GetSubstr (l : Lexer) (start end_ : nat) : string :=
  String.substring start (end_ - start) (text_ l).

Definition PushToken (t : LexerTokenType) (start : nat) (value : string)
    (l : Lexer) : Lexer :=
  set_tokens l (tokens_ l ++ [Token t start value]).

Definition PushTokenRange (t : LexerTokenType) (start end_ : nat) (l : Lexer) : Lexer :=
  PushToken t start (GetSubstr l start end_) l.

Definition Init (text : string) (l : Lexer) : Lexer :=
  set_tokens (set_itr
    (Build (class_ l) text (itr_ l) (tokens_ l) (start_char_table_ l)
           (include_whitespace l) (include_comments l) (glue_sign_to_number l)
           (trim_quotation_marks l) (use_string_escape l)
           (use_string_doubled_quotes l) (include_tags l)) 0) [].

(** Modelled from the spec: [CharIsDigit] and [CharIsSign] are not defined
    in the sources; they are the digits and the two signs of the grammar of
    numbers, "[+-]digits[.digits][e[+-]digits]". *)
Definition CharIsDigit (c : ascii) : bool :=
  (48 <=? nat_of_ascii c) && (nat_of_ascii c <=? 57).

Definition CharIsSign (c : ascii) : bool :=
  Ascii.eqb c "+" || Ascii.eqb c "-".

(** utils.hpp: [CharMatch] compares the two characters after
    [std::tolower]. *)
Definition tolower (c : ascii) : ascii :=
  let n := nat_of_ascii c in
  if (65 <=? n) && (n <=? 90) then ascii_of_nat (n + 32) else c.

Definition CharMatch (c1 c2 : ascii) : bool :=
  Ascii.eqb (tolower c1) (tolower c2).

(** [tokens_.empty() || tokens_.back().IsError()] and its relatives. *)
Definition back_IsError (ts : list LexerToken) : bool :=
  match last ts with
  | Some t => IsError t
  | None => false
  end.

Definition tokens_empty (ts : list LexerToken) : bool :=
  match ts with [] => true | _ => false end.

(** [while (!IsEnd() && GetCharType() == t) NextChar();] -- the loop of
    [ScanUnknown] and [ScanSymbol].  Every iteration advances by one
    character, so [len_ - itr_] iterations reach the end of the text. *)
Fixpoint scan_type_loop (n : nat) (t : LexerTokenType) (l : Lexer) : Lexer :=
  match n with
  | 0 => l
  | S n' =>
    if negb (IsEnd l) && type_eqb (GetCharType l) t
    then scan_type_loop n' t (NextChar l)
    else l
  end.

Definition ScanUnknown (l : Lexer) : bool * Lexer :=
  let start := GetPosition l in
  let l1 := scan_type_loop (len_ l - itr_ l) kUnknown l in
  (true, PushTokenRange kUnknown start (GetPosition l1) l1).

(** The loop of [ScanWhitespace], which also records whether it ran. *)
Fixpoint whitespace_loop (n : nat) (l : Lexer) (found : bool) : Lexer * bool :=
  match n with
  | 0 => (l, found)
  | S n' =>
    if negb (IsEnd l) && type_eqb (GetCharType l) kWhite
    then whitespace_loop n' (NextChar l) true
    else (l, found)
  end.

Definition ScanWhitespace (l : Lexer) : bool * Lexer :=
  let start := GetPosition l in
  let '(l1, found) := whitespace_loop (len_ l - itr_ l) l false in
  if include_whitespace l1 && found
  then (found, PushTokenRange kWhite start (GetPosition l1) l1)
  else (found, l1).

(** In the base class, [ScanComment] simply returns false. *)
Definition ScanComment (l : Lexer) : bool * Lexer := (false, l).

Definition ScanSymbol (l : Lexer) : bool * Lexer :=
  let start := GetPosition l in
  let l1 := scan_type_loop (len_ l - itr_ l) kSymbol l in
  (true, PushTokenRange kSymbol start (GetPosition l1) l1).

(** The [while (!IsEnd())] loop of [ScanNumber]: the lexer where the loop
    stops, and the flag [err].  A [break] is a return of the loop. *)
Fixpoint number_loop (n : nat) (start : nat) (l : Lexer) (found_d found_e : bool)
    : Lexer * bool :=
  match n with
  | 0 => (l, false)
  | S n' =>
    if IsEnd l then (l, false)
    else if CharIsDigit (GetChar l) then
      number_loop n' start (NextChar l) found_d found_e
    else if Ascii.eqb (GetChar l) "." then
      if found_d || IsEndOff l 1 || negb (CharIsDigit (GetCharOff l 1))
      then (l, false)
      else number_loop n' start (NextChar l) true found_e
    else if CharMatch (GetChar l) "e" then
      if found_e
         || (GetPosition l =? 0) || negb (CharIsDigit (GetCharOff l (-1)))
         || IsEndOff l 1
         || (negb (CharIsDigit (GetCharOff l 1)) && negb (CharIsSign (GetCharOff l 1)))
      then (l, GetPosition l =? start)
      else number_loop n' start (NextChar l) found_d true
    else if CharIsSign (GetChar l) then
      if negb ((GetPosition l =? start)
               && negb (IsEndOff l 1) && CharIsDigit (GetCharOff l 1))
         && negb (found_e && CharMatch (GetCharOff l (-1)) "e"
                  && negb (IsEndOff l 1) && CharIsDigit (GetCharOff l 1))
      then (l, GetPosition l =? start)
      else number_loop n' start (NextChar l) found_d found_e
    else (l, GetPosition l =? start)
  end.

Definition ScanNumber (l : Lexer) : bool * Lexer :=
  let start := GetPosition l in
  let '(l1, err) := number_loop (len_ l - itr_ l) start l false false in
  if err
  then (false, PushToken kError (GetPosition l1) "Malformed number." l1)
  else (true, PushTokenRange kNumber start (GetPosition l1) l1).

(** The text holds digits at the [d] positions from [p] on. *)
Definition digits_at (s : string) (p d : nat) : bool :=
  forallb (fun q => CharIsDigit (char_at s q)) (seq p d).

(** No token of the list is an error token. *)
Definition error_free (ts : list LexerToken) : Prop :=
  Forall (fun t => IsError t = false) ts.

(** The list holds at most one error token, and an error token it holds
    is its last token. *)
Definition error_is_terminal (ts : list LexerToken) : Prop :=
  (length (List.filter IsError ts) <= 1)%nat
  /\ forall i t, ts !! i = Some t -> IsError t = true -> S i = length ts.

(** The list is free of error tokens up to its last token. *)
Definition clean_but_last (ts : list LexerToken) : Prop :=
  exists clean new, ts = clean ++ new /\ error_free clean /\ (length new <= 1)%nat.

(** [l'] holds the tokens of [l] and then those of [new]. *)
Definition appends (l l' : Lexer) (new : list LexerToken) : Prop :=
  tokens_ l' = tokens_ l ++ new.

(** [l'] is the lexer [l] (same class, same text) at the same position or
    further on; at a position further on. *)
Definition moved (l l' : Lexer) : Prop :=
  class_ l' = class_ l /\ text_ l' = text_ l /\ (itr_ l <= itr_ l')%nat.

Definition moved_on (l l' : Lexer) : Prop :=
  class_ l' = class_ l /\ text_ l' = text_ l /\ (itr_ l < itr_ l')%nat.

(** [l'] holds the tokens of [l] and at most one token more. *)
Definition at_most_one (l l' : Lexer) : Prop :=
  exists new, appends l l' new /\ (length new <= 1)%nat.

Section Scanners.

(** [StringDeescape] and [StringReplaceAll] are declared in utils.hpp and
    defined in utils.cpp, which is not among the sources: the scanners take
    them as parameters. *)
Variable StringDeescape : string -> string.
Variable StringReplaceAll : string -> string -> string -> string.

(** The [while (!IsEnd())] loop of [ScanString]: the lexer where the loop
    stops and the flags [jump], [found_e] and [found_q]. *)
Fixpoint string_loop (n : nat) (qmark : ascii) (l : Lexer) (jump found_e found_q : bool)
    : Lexer * (bool * bool * bool) :=
  match n with
  | 0 => (l, (jump, found_e, found_q))
  | S n' =>
    if IsEnd l then (l, (jump, found_e, found_q))
    else if Ascii.eqb (GetChar l) "\" && use_string_escape l then
      string_loop n' qmark (NextChar (NextChar l)) true true found_q
    else if Ascii.eqb (GetChar l) qmark && Ascii.eqb (GetCharOff l 1) qmark
            && use_string_doubled_quotes l then
      string_loop n' qmark (NextChar (NextChar l)) true found_e true
    else if Ascii.eqb (GetChar l) qmark then
      (NextChar l, (jump, found_e, found_q))
    else string_loop n' qmark (NextChar l) false found_e found_q
  end.

Definition ScanString (l : Lexer) : bool * Lexer :=
  let qmark := GetChar l in
  let l := NextChar l in
  if IsEnd l then
    (false, PushToken kError (GetPosition l - 1) "Malformed string." l)
  else
    let start := GetPosition l in
    let '(l, (jump, found_e, found_q)) :=
      string_loop (len_ l - itr_ l) qmark l false false false in
    if jump || (IsEnd l && negb (Ascii.eqb (GetCharOff l (-1)) qmark)) then
      (false, PushToken kError (start - 1) "Malformed string." l)
    else
      let res := GetSubstr l start (GetPosition l - 1) in
      let res := if found_e && use_string_escape l then StringDeescape res else res in
      let res := if found_q && use_string_doubled_quotes l
                 then StringReplaceAll res (String qmark (String qmark EmptyString))
                                           (String qmark EmptyString)
                 else res in
      let res := if negb (trim_quotation_marks l)
                 then String qmark (res ++ String qmark EmptyString)
                 else res in
      (true, PushToken kString (start - 1) res l).

(** [for (size_t i = 0; i < n; ++i) NextChar();] *)
Fixpoint advance (n : nat) (l : Lexer) : Lexer :=
  match n with
  | 0 => l
  | S n' => advance n' (NextChar l)
  end.

(** [strncmp(s, text_+itr_, strlen(s)) == 0]: the text goes on with [s]. *)
Definition at_cursor (l : Lexer) (s : string) : bool :=
  String.eqb (String.substring (itr_ l) (String.length s) (text_ l)) s.

(** [while (!IsEnd() && strncmp(to, text_+itr_, strlen(to)) != 0) NextChar();] *)
Fixpoint find_loop (n : nat) (to : string) (l : Lexer) : Lexer :=
  match n with
  | 0 => l
  | S n' =>
    if negb (IsEnd l) && negb (at_cursor l to)
    then find_loop n' to (NextChar l)
    else l
  end.

Definition ScanFromTo (from to : string) (l : Lexer) : bool * Lexer :=
  if IsEnd l || negb (at_cursor l from) then (false, l)
  else
    let l := advance (String.length from) l in
    let l := find_loop (len_ l - itr_ l) to l in
    if IsEnd l then (false, l)
    else (true, advance (String.length to) l).

(** In the base class, [ScanTag] simply returns false. *)
Definition ScanTag (l : Lexer) : bool * Lexer := (false, l).

(** The three scanners that [NewickLexer] overrides (newick_processor.hpp).
    [None] stands for an [assert] that fails. *)
Definition NewickLexer_ScanComment (l : Lexer) : bool * Lexer :=
  if Ascii.eqb (GetChar l) "]" then
    (false, PushToken kError (GetPosition l) "Closing comment without opening it." l)
  else
    let start := GetPosition l in
    let '(found, l) := ScanFromTo "[" "]" l in
    if negb found && Ascii.eqb (GetChar l) "[" then
      (false, PushToken kError (GetPosition l) "Comment not closed." l)
    else if found && include_comments l then
      (found, PushTokenRange kComment (start + 1) (GetPosition l - 1) l)
    else (found, l).

Definition NewickLexer_ScanNumber (l : Lexer) : option (bool * Lexer) :=
  if Ascii.eqb (GetChar l) ":" then Some (ScanNumber (NextChar l))
  else None.

Definition NewickLexer_ScanTag (l : Lexer) : option (bool * Lexer) :=
  if Ascii.eqb (GetChar l) "}" then
    Some (false, PushToken kError (GetPosition l) "Closing tag without opening tag." l)
  else if negb (Ascii.eqb (GetChar l) "{") then None
  else
    let start := GetPosition l in
    let '(found, l) := ScanFromTo "{" "}" l in
    if negb found then
      Some (false, PushToken kError start "Opening tag without closing tag." l)
    else if include_tags l then
      Some (true, PushTokenRange kTag (start + 1) (GetPosition l - 1) l)
    else Some (true, l).

(** The calls of the three scanners through the object: the class of the
    lexer selects the function. *)
Definition virtual_ScanComment (l : Lexer) : bool * Lexer :=
  match class_ l with
  | BaseLexer => ScanComment l
  | NewickLexer => NewickLexer_ScanComment l
  end.

Definition virtual_ScanNumber (l : Lexer) : option (bool * Lexer) :=
  match class_ l with
  | BaseLexer => Some (ScanNumber l)
  | NewickLexer => NewickLexer_ScanNumber l
  end.

Definition virtual_ScanTag (l : Lexer) : option (bool * Lexer) :=
  match class_ l with
  | BaseLexer => Some (ScanTag l)
  | NewickLexer => NewickLexer_ScanTag l
  end.

Definition ScanOperator (l : Lexer) : option (bool * Lexer) :=
  if CharIsSign (GetChar l) && glue_sign_to_number l
     && negb (IsEndOff l 1) && CharIsDigit (GetCharOff l 1)
  then virtual_ScanNumber l
  else
    Some (true, NextChar (PushTokenRange kOperator (GetPosition l) (GetPosition l + 1) l)).

Definition ScanBracket (l : Lexer) : bool * Lexer :=
  (true, NextChar (PushTokenRange kBracket (GetPosition l) (GetPosition l + 1) l)).

(** [while (ScanWhitespace() || ScanComment()) continue;].  A scanner that
    returns true has consumed at least one character, so the loop runs at
    most [len_ - itr_ + 1] times. *)
Fixpoint skip_loop (n : nat) (l : Lexer) : Lexer :=
  match n with
  | 0 => l
  | S n' =>
    let '(w, l1) := ScanWhitespace l in
    if w then skip_loop n' l1
    else
      let '(c, l2) := virtual_ScanComment l1 in
      if c then skip_loop n' l2 else l2
  end.

(** How a call of [ProcessStep] ends: it returns a flag, or an [assert]
    (of its switch, or of a scanner of [NewickLexer]) stops the program. *)
Inductive outcome : Type :=
  | Returned (result : bool) (l : Lexer)
  | AssertionFailed (l : Lexer).

Definition lexer_of (o : outcome) : Lexer :=
  match o with
  | Returned _ l => l
  | AssertionFailed l => l
  end.

Definition ProcessStep (l : Lexer) : outcome :=
  if IsEnd l then Returned false l
  else
    let l := skip_loop (S (len_ l - itr_ l)) l in
    if negb (tokens_empty (tokens_ l)) && back_IsError (tokens_ l) then Returned false l
    else if IsEnd l then Returned false l
    else
      let t := GetCharType l in
      if type_eqb t kError then
        Returned false (PushToken kError (GetPosition l) "Invalid character." l)
      else
        let scanned :=
          match t with
          | kSymbol => Some (ScanSymbol l).2
          | kNumber => option_map snd (virtual_ScanNumber l)
          | kString => Some (ScanString l).2
          | kBracket => Some (ScanBracket l).2
          | kOperator => option_map snd (ScanOperator l)
          | kTag => option_map snd (virtual_ScanTag l)
          | kUnknown => Some (ScanUnknown l).2
          | kWhite | kComment | kError => None
          end in
        match scanned with
        | None => AssertionFailed l
        | Some l' =>
          if tokens_empty (tokens_ l') || back_IsError (tokens_ l')
          then Returned false l'
          else Returned true l'
        end.

(** [while (!IsEnd()) { if (!ProcessStep()) return tokens_.empty(); } return true;]
    with a bound on the number of iterations; [None] when the bound is
    reached before the loop ends. *)
Fixpoint process_loop (fuel : nat) (l : Lexer) : option outcome :=
  match fuel with
  | 0 => None
  | S fuel' =>
    if IsEnd l then Some (Returned true l)
    else
      match ProcessStep l with
      | Returned true l' => process_loop fuel' l'
      | Returned false l' => Some (Returned (tokens_empty (tokens_ l')) l')
      | AssertionFailed l' => Some (AssertionFailed l')
      end
  end.

Definition ProcessString (fuel : nat) (text : string) (stepwise : bool) (l : Lexer)
    : option outcome :=
  let l := Init text l in
  if stepwise then Some (ProcessStep l)
  else process_loop fuel l.

(** Stepwise use: after [ProcessString (text, true)], [ProcessStep] is
    called again as long as the previous call returned true; the lexer
    after at most [n] further calls. *)
Fixpoint step_again (n : nat) (o : outcome) : outcome :=
  match n with
  | 0 => o
  | S n' =>
    match o with
    | Returned true l => step_again n' (ProcessStep l)
    | _ => o
    end
  end.

Definition ProcessStepwise (n : nat) (text : string) (l : Lexer) : outcome :=
  step_again n (ProcessStep (Init text l)).

End Scanners.

(** Modelled from the spec: [SetCharType] is declared in lexer.hpp, which
    is not among the sources; it sets the type that each character of the
    list starts ("the first character of a token deterministically selects
    a scanner"). *)
Definition SetCharType (t : LexerTokenType) (chars : string)
    (table : ascii -> LexerTokenType) : ascii -> LexerTokenType :=
  fun c => if existsb (Ascii.eqb c) (list_ascii_of_string chars) then t else table c.

(** The constructor of [NewickLexer], on top of what the constructor of
    [Lexer] has set. *)
Definition NewickLexer_new (base : Lexer) : Lexer :=
  let table := start_char_table_ base in
  let table := SetCharType kComment "[]" table in
  let table := SetCharType kTag "{}" table in
  let table := SetCharType kBracket "()" table in
  let table := SetCharType kOperator ",;" table in
  let table := SetCharType kString "'" table in
  let table := SetCharType kNumber ":" table in
  let table := SetCharType kSymbol "0123456789" table in
  let table := SetCharType kSymbol
                 (String "!" (String (ascii_of_nat 34) "#$%&*+-./<=>?@\^_`|~")) table in
  Build NewickLexer (text_ base) (itr_ base) (tokens_ base) table
        false true false true false true true.

End Lexer.

(* --------------------------------------------------------------------- *)
(** ** src/tree/newick_processor.cpp                                       *)
(* --------------------------------------------------------------------- *)

Module NewickProcessor.

Section Printing.

(** The branch length is a [double]; [std::to_string] formats it.  Floating
    point is kept abstract: the type and its formatting are parameters. *)
Variable double : Type.
Variable to_string : double -> string.

(** [StringReplaceAll] is declared in utils.hpp and defined in utils.cpp,
    which is not among the sources. *)
Variable StringReplaceAll : string -> string -> string -> string.

(** Modelled from the spec: [NewickBrokerElement] is declared in
    newick_broker.hpp, which is not among the sources: "name, branch length,
    an ordered list of comment strings, an ordered list of tag strings, and
    a depth"; [rank()] is the number of children the broker assigned. *)
Record NewickBrokerElement : Type := Element {
  name : string;
  branch_length : double;
  comments : list string;
  tags : list string;
  depth : Z;
  rank : Z
}.

(** The static data members of [NewickProcessor] used for printing. *)
Record Statics : Type := MkStatics {
  print_names : bool;
  print_branch_lengths : bool;
  print_comments : bool;
  print_tags : bool;
  precision : Z
}.

Definition set_precision (st : Statics) (p : Z) : Statics :=
  MkStatics (print_names st) (print_branch_lengths st) (print_comments st)
            (print_tags st) p.

Definition ElementToString (st : Statics) (bn : NewickBrokerElement) : string :=
  let res := EmptyString in
  let res := if print_names st
             then (res ++ StringReplaceAll (name bn) " " "_")%string else res in
  let res := if print_branch_lengths st
             then (res ++ (":" ++ to_string (branch_length bn)))%string else res in
  let res := if print_comments st
             then fold_left (fun res c => (res ++ ("[" ++ c ++ "]"))%string)
                            (comments bn) res
             else res in
  let res := if print_tags st
             then fold_left (fun res t => (res ++ ("{" ++ t ++ "}"))%string)
                            (tags bn) res
             else res in
  res.

(** The last loop of [ToStringRec]: the children joined with commas. *)
Fixpoint join_children (i : nat) (children : list string) (out : string) : string :=
  match children with
  | [] => out
  | c :: rest =>
    let out := if (0 <? i)%nat then (out ++ ",")%string else out in
    join_children (S i) rest (out ++ c)%string
  end.

(** The for-loop over [i] of [ToStringRec] at [bn = broker[pos]]: [n]
    positions are left, [rec] is the recursive call, and
    [children.push_front] puts the new string first.  [None] when a
    recursive call gives no result. *)
Fixpoint children_loop (rec : nat -> option string)
    (broker : list NewickBrokerElement) (bn : NewickBrokerElement)
    (n i : nat) (children : list string) : option (list string) :=
  match n with
  | O => Some children
  | S n' =>
    match broker !! i with
    | None => Some children
    | Some bi =>
      if depth bi >? depth bn then
        if depth bi >? depth bn + 1 then children_loop rec broker bn n' (S i) children
        else
          match rec i with
          | None => None
          | Some s => children_loop rec broker bn n' (S i) (s :: children)
          end
      else Some children
    end
  end.

(** [ToStringRec].  The recursion goes to positions after [pos]; [fuel]
    bounds its depth, and [None] stands for a call that ran out of fuel or
    read [broker[pos]] outside of the broker. *)
Fixpoint ToStringRec (st : Statics) (fuel : nat) (broker : list NewickBrokerElement)
    (pos : nat) : option string :=
  match fuel with
  | O => None
  | S fuel' =>
    match broker !! pos with
    | None => None
    | Some bn =>
      if rank bn =? 0 then Some (ElementToString st bn)
      else
        match children_loop (ToStringRec st fuel' broker) broker bn
                (length broker - S pos)%nat (S pos) [] with
        | None => None
        | Some children =>
          Some (join_children 0 children "(" ++ ")" ++ ElementToString st bn)%string
        end
    end
  end.

End Printing.

Arguments Element {double} _ _ _ _ _ _.
Arguments name {double} _.
Arguments branch_length {double} _.
Arguments comments {double} _.
Arguments tags {double} _.
Arguments depth {double} _.
Arguments rank {double} _.

End NewickProcessor.

(* --------------------------------------------------------------------- *)
(** ** lib/tree/tree_node.hpp, lib/tree/tree_node.tpp                      *)
(* --------------------------------------------------------------------- *)

Module TreeNode.

Section Links.

(** Modelled from the spec: [TreeLink] is declared in tree_link.hpp, which
    is not among the sources.  A Link "holds a reference to its next Link
    in a circular list of all Links incident to the same Node".  A link is
    named by its index in the collection of links of its tree, and [Next]
    is [link->Next()]. *)
Variable Next : nat -> nat.

(** The do-while loop of [Rank]: [link_] is the primary link of the node,
    [link] and [rank] are the local variables; [None] when [fuel] rounds
    were not enough to come back to [link_]. *)
Fixpoint rank_loop (fuel : nat) (link_ link : nat) (rank : Z) : option Z :=
  match fuel with
  | O => None
  | S fuel' =>
    let rank := rank + 1 in
    let link := Next link in
    if (link =? link_)%nat then Some rank
    else rank_loop fuel' link_ link rank
  end.

Definition Rank (fuel : nat) (link_ : nat) : option Z :=
  rank_loop fuel link_ link_ (-1).

(** [TreeNodeIteratorLinks]: the two members, [None] for [nullptr]. *)
Record IteratorLinks : Type := Iterator {
  it_link_ : option nat;
  it_start_ : option nat
}.

Definition BeginLinks (link_ : nat) : IteratorLinks :=
  Iterator (Some link_) (Some link_).

Definition EndLinks : IteratorLinks := Iterator None None.

Definition ptr_eqb (a b : option nat) : bool :=
  match a, b with
  | Some x, Some y => (x =? y)%nat
  | None, None => true
  | _, _ => false
  end.

(** [operator ==] compares the current links only. *)
Definition it_eqb (a b : IteratorLinks) : bool :=
  ptr_eqb (it_link_ b) (it_link_ a).

(** [operator ++]; [None] when it dereferences [nullptr]. *)
Definition increment (it : IteratorLinks) : option IteratorLinks :=
  match it_link_ it with
  | None => None
  | Some l =>
    let link := Some (Next l) in
    Some (Iterator (if ptr_eqb link (it_start_ it) then None else link)
                   (it_start_ it))
  end.

(** [for (it = n.BeginLinks(); it != n.EndLinks(); ++it)]: the links the
    iterator stands on, in order; [None] when [fuel] rounds were not enough. *)
Fixpoint iterate_links (fuel : nat) (it : IteratorLinks) (seen : list nat)
    : option (list nat) :=
  match fuel with
  | O => None
  | S fuel' =>
    if it_eqb it EndLinks then Some seen
    else
      match it_link_ it, increment it with
      | Some l, Some it' => iterate_links fuel' it' (seen ++ [l])
      | _, _ => None
      end
  end.

Definition Links (fuel : nat) (link_ : nat) : option (list nat) :=
  iterate_links fuel (BeginLinks link_) [].

(** [k] is the length of the circle of [Next] through [link_]: the chain
    from [link_] comes back to it after [k] steps for the first time. *)
Definition first_return (link_ : nat) (k : nat) : Prop :=
  (0 < k)%nat /\ Nat.iter k Next link_ = link_
  /\ forall j, (0 < j < k)%nat -> Nat.iter j Next link_ <> link_.

End Links.

End TreeNode.

(* --------------------------------------------------------------------- *)
(** ** lib/plausibility/plausibility.cpp                                   *)
(* --------------------------------------------------------------------- *)

Module Plausibility.

(** What the loops of [SpiderpigFunction] read of a node the iterator
    stands on: [it.Node()->name], [it.Node()->IsLeaf()], and the node
    itself, named by its index in the tree; the member [preorder_id] of the
    nodes is the store [gmap nat Z] below. *)
Record Node : Type := MkNode {
  index_ : nat;
  name : string;
  IsLeaf : bool
}.

(** [size_t] arithmetic. *)
Definition size_t (z : Z) : Z := z mod 2 ^ 64.

(** [m[k]] of a [std::map<K, int>]: a key that is absent is inserted with
    the value 0. *)
Definition map_index `{Countable K} (m : gmap K Z) (k : K) : Z * gmap K Z :=
  match m !! k with
  | Some v => (v, m)
  | None => (0, <[ k := 0 ]> m)
  end.

(** [std::sort] on a [vector<pair<int,bool>>]: ascending for the
    lexicographic [operator <] of pairs (false before true). *)
Definition pair_ltb (a b : Z * bool) : bool :=
  (a.1 <? b.1) || ((a.1 =? b.1) && (negb a.2 && b.2)).

Fixpoint insert_sorted (x : Z * bool) (l : list (Z * bool)) : list (Z * bool) :=
  match l with
  | [] => [x]
  | y :: l' => if pair_ltb x y then x :: y :: l' else y :: insert_sorted x l'
  end.

Definition sort (l : list (Z * bool)) : list (Z * bool) :=
  foldr insert_sorted [] l.

(** First loop: preorder ids for every node, and the reference map for
    leaves.  The state is the store of [preorder_id], [reference_map], [c]. *)
Definition number_step (s : gmap nat Z * gmap string Z * Z) (n : Node)
    : gmap nat Z * gmap string Z * Z :=
  let '(ids, reference_map, c) := s in
  (<[ index_ n := c ]> ids,
   if IsLeaf n then <[ name n := c ]> reference_map else reference_map,
   c + 1).

Definition number_preorder (preorder : list Node) : gmap nat Z * gmap string Z * Z :=
  fold_left number_step preorder (∅, ∅, 0).

(** Second loop: the Euler traversal collects the ids and the index at
    which each id appears for the first time.  ([preorder_id] of a node the
    first loop did not visit is not initialised; 0 stands for it.) *)
Definition euler_step (ids : gmap nat Z) (s : list Z * gmap Z Z * Z) (n : Node)
    : list Z * gmap Z Z * Z :=
  let '(euler_ids, preorder_to_euler_map, c) := s in
  let p_id := default 0 (ids !! index_ n) in
  (euler_ids ++ [p_id],
   match preorder_to_euler_map !! p_id with
   | Some _ => preorder_to_euler_map
   | None => <[ p_id := c ]> preorder_to_euler_map
   end,
   c + 1).

Definition collect_euler (ids : gmap nat Z) (eulertour : list Node)
    : list Z * gmap Z Z * Z :=
  fold_left (euler_step ids) eulertour ([], ∅, 0).

(** Third loop: the leaves of the small tree, looked up in the reference
    map with [operator []]. *)
Definition leaf_step (s : list (Z * bool) * gmap string Z) (n : Node)
    : list (Z * bool) * gmap string Z :=
  let '(preorder_ids, reference_map) := s in
  if IsLeaf n then
    let '(id, reference_map) := map_index reference_map (name n) in
    (preorder_ids ++ [(id, true)], reference_map)
  else s.

Definition collect_leaves (reference_map : gmap string Z) (small_preorder : list Node)
    : list (Z * bool) * gmap string Z :=
  fold_left leaf_step small_preorder ([], reference_map).

(** A name that [m0] does not map is not mapped by [m] either, or is
    mapped to 0. *)
Definition extends_with_zero (m0 m : gmap string Z) : Prop :=
  forall k, m0 !! k = None -> m !! k = None \/ m !! k = Some 0.

(** [v] is the index of an element of the Euler array. *)
Definition is_euler_index (euler_ids : list Z) (v : Z) : Prop :=
  0 <= v < Z.of_nat (length euler_ids).

Section Queries.

(** [RMQ_succinct] is declared in RMQ_succinct.hpp, which is not among the
    sources: the structure built over the array with its announced length,
    and its [query], are a parameter. *)
Variable RMQ_query : list Z -> Z -> Z -> Z -> Z.

(** The state of the query loop: the vector [preorder_ids], the map
    [preorder_to_euler_map] (which [operator []] may extend), and, for the
    record, the queries sent to the RMQ structure so far. *)
Record LoopState : Type := MkLoop {
  preorder_ids : list (Z * bool);
  preorder_to_euler_map : gmap Z Z;
  queries : list (Z * Z)
}.

(** The body of the query loop at index [i]; [None] when it reads
    [preorder_ids] or [euler_array] outside of the elements they hold. *)
Definition query_body (euler_ids : list Z) (n_rmq : Z) (i : Z) (s : LoopState)
    : option LoopState :=
  match preorder_ids s !! Z.to_nat i, preorder_ids s !! Z.to_nat (i + 1) with
  | Some x, Some y =>
    let '(euler_idx, m) := map_index (preorder_to_euler_map s) x.1 in
    let '(euler_idy, m) := map_index m y.1 in
    let euler_res := RMQ_query euler_ids n_rmq euler_idx euler_idy in
    if euler_res <? 0 then None
    else
      match euler_ids !! Z.to_nat euler_res with
      | Some p => Some (MkLoop (preorder_ids s ++ [(p, false)]) m
                               (queries s ++ [(euler_idx, euler_idy)]))
      | None => None
      end
  | _, _ => None
  end.

(** [for (size_t i = 0; i < small_tree.LeafCount() - 1; ++i)]: [n] rounds
    are left, the next one at index [i]. *)
Fixpoint query_loop (euler_ids : list Z) (n_rmq : Z) (n : nat) (i : Z) (s : LoopState)
    : option LoopState :=
  match n with
  | O => Some s
  | S n' =>
    match query_body euler_ids n_rmq i s with
    | Some s' => query_loop euler_ids n_rmq n' (i + 1) s'
    | None => None
    end
  end.

Definition run_queries (euler_ids : list Z) (n_rmq : Z) (LeafCount : Z) (s : LoopState)
    : option LoopState :=
  query_loop euler_ids n_rmq (Z.to_nat (size_t (LeafCount - 1))) 0 s.

(** [assert(preorder_ids.size() == (2*small_tree.LeafCount() - 1))]. *)
Definition assertion (LeafCount : Z) (s : LoopState) : bool :=
  Z.of_nat (length (preorder_ids s)) =? size_t (2 * LeafCount - 1).

(** [SpiderpigFunction] once the two trees are read: the iterators are
    given by the nodes they visit, and the trees by their counts.  The
    result is the vector [preorder_ids] at the end with the last state of
    [reference_map]; [None] when the function does not reach its end (a
    read outside of a vector, or the assertion). *)
Definition SpiderpigFunction
    (reference_preorder reference_eulertour : list Node) (reference_NodeCount : Z)
    (small_preorder : list Node) (small_LeafCount : Z)
    : option (list (Z * bool) * gmap string Z) :=
  let '(ids, reference_map, _) := number_preorder reference_preorder in
  let '(euler_ids, preorder_to_euler_map, _) := collect_euler ids reference_eulertour in
  let n_rmq := size_t (4 * reference_NodeCount - 5) in
  let '(leaves, reference_map) := collect_leaves reference_map small_preorder in
  match run_queries euler_ids n_rmq small_LeafCount
          (MkLoop (sort leaves) preorder_to_euler_map []) with
  | None => None
  | Some s =>
    if assertion small_LeafCount s
    then Some (sort (preorder_ids s), reference_map)
    else None
  end.

End Queries.

(** Modelled from the spec: the tree and its iterators (tree.hpp and the
    iterator headers) are not among the sources.  A tree is a root node
    with its subtrees.  "Preorder: visits a node before its children";
    "Euler tour: visits each edge twice (once per direction), producing a
    sequence where a node of degree d (counting the root specially) appears
    d times": the tour stands on every link once, so the root appears once
    per child, an inner node once per child and once more for its parent,
    and a leaf once.  [NodeCount] and [LeafCount] count the nodes and those
    without children. *)
#[warnings="-register-all"]
Inductive Tree : Type :=
  | T (index : nat) (name : string) (children : list Tree).

Definition root_node (t : Tree) : Node :=
  match t with
  | T i n cs => MkNode i n (match cs with [] => true | _ => false end)
  end.

Fixpoint Preorder (t : Tree) : list Node :=
  match t with
  | T i n cs => root_node t :: flat_map Preorder cs
  end.

Fixpoint EulerSubtree (t : Tree) : list Node :=
  match t with
  | T i n [] => [root_node t]
  | T i n cs => flat_map (fun c => root_node t :: EulerSubtree c) cs ++ [root_node t]
  end.

Definition Eulertour (t : Tree) : list Node :=
  match t with
  | T i n cs => flat_map (fun c => root_node t :: EulerSubtree c) cs
  end.

Definition NodeCount (t : Tree) : Z := Z.of_nat (length (Preorder t)).

Definition LeafCount (t : Tree) : Z :=
  Z.of_nat (length (filter (fun n => IsLeaf n = true) (Preorder t))).

(** Modelled from the spec: the RMQ engine (RMQ_succinct.hpp is not among
    the sources).  "Query (i, j) with i <= j: returns the index in [i, j]
    holding the minimum preorder ID"; "i == j returns i".  [n] is the
    length announced to the constructor. *)
Fixpoint argmin_from (a : list Z) (best : nat) (k : nat) (count : nat) : nat :=
  match count with
  | O => best
  | S count' =>
    let best := if default 0 (a !! k) <? default 0 (a !! best) then k else best in
    argmin_from a best (S k) count'
  end.

Definition RMQ_query (a : list Z) (n : Z) (i j : Z) : Z :=
  Z.of_nat (argmin_from a (Z.to_nat i) (S (Z.to_nat i)) (Z.to_nat (j - i))).

(** The check of a small tree against a reference tree. *)
Definition check (reference_tree small_tree : Tree)
    : option (list (Z * bool) * gmap string Z) :=
  SpiderpigFunction RMQ_query
    (Preorder reference_tree) (Eulertour reference_tree) (NodeCount reference_tree)
    (Preorder small_tree) (LeafCount small_tree).

End Plausibility.

(* --------------------------------------------------------------------- *)
(** ** src/utils/utils.hpp                                                 *)
(* --------------------------------------------------------------------- *)

Module Utils.

(** [std::string::npos], the largest [size_t]. *)
Definition npos : Z := 2 ^ 64 - 1.

(** [size_t] arithmetic wraps around. *)
Definition size_t (z : Z) : Z := z mod 2 ^ 64.

(** The default value of [delimiters], [" \f\n\r\t\v"]: blank, form feed,
    new line, carriage return, tabulator and vertical tabulator. *)
Definition whitespace : string :=
  String " " (String "012" (String "010" (String "013" (String "009"
    (String "011" EmptyString))))).

Definition is_delimiter (delimiters : string) (c : ascii) : bool :=
  existsb (Ascii.eqb c) (list_ascii_of_string delimiters).

(** [s.find_first_not_of(delimiters)] and [s.find_last_not_of(delimiters)]
    of the standard library: the position of the first (the last)
    character of [s] that is not among [delimiters]; [None] when there is
    none, where the library returns [npos]. *)
Fixpoint find_first_not_of (s delimiters : string) : option nat :=
  match s with
  | EmptyString => None
  | String c s' =>
    if is_delimiter delimiters c
    then option_map S (find_first_not_of s' delimiters)
    else Some 0%nat
  end.

Fixpoint find_last_not_of (s delimiters : string) : option nat :=
  match s with
  | EmptyString => None
  | String c s' =>
    match find_last_not_of s' delimiters with
    | Some p => Some (S p)
    | None => if is_delimiter delimiters c then None else Some 0%nat
    end
  end.

(** The [size_t] a search returns. *)
Definition position (p : option nat) : Z :=
  match p with
  | Some n => Z.of_nat n
  | None => npos
  end.

(** [s.substr(pos, count)] of the standard library: the characters from
    [pos] on, at most [count] of them; it throws [std::out_of_range]
    ([None]) when [pos] is greater than the size of [s]. *)
Definition substr (s : string) (pos count : Z) : option string :=
  if pos >? Z.of_nat (String.length s) then None
  else
    Some (String.substring
            (Z.to_nat pos)
            (Z.to_nat (Z.min count (Z.of_nat (String.length s) - pos))) s).

Definition StringTrimRight (s delimiters : string) : option string :=
  substr s 0 (size_t (position (find_last_not_of s delimiters) + 1)).

(** [s.substr(pos)] takes the characters up to the end: [count] is [npos]. *)
Definition StringTrimLeft (s delimiters : string) : option string :=
  substr s (position (find_first_not_of s delimiters)) npos.

Definition StringTrim (s delimiters : string) : option string :=
  match StringTrimRight s delimiters with
  | Some r => StringTrimLeft r delimiters
  | None => None
  end.

(** All the characters of [s] are among [delimiters]. *)
Definition all_delimiters (delimiters s : string) : Prop :=
  Forall (fun c => is_delimiter delimiters c = true) (list_ascii_of_string s).

(** The first and the last character of a string, if it has one. *)
Definition first_char (s : string) : option ascii :=
  match s with
  | EmptyString => None
  | String c _ => Some c
  end.

Fixpoint last_char (s : string) : option ascii :=
  match s with
  | EmptyString => None
  | String c EmptyString => Some c
  | String _ s' => last_char s'
  end.

End Utils.

(* --------------------------------------------------------------------- *)
(** ** lib/alignment/sequence_set.cpp                                      *)
(* --------------------------------------------------------------------- *)

Module SequenceSet.

Section Sequences.

(** The class [Sequence] is declared in sequence.hpp, which is not among
    the sources: the type and its accessor [Label] are parameters. *)
Variable Sequence : Type.
Variable Label : Sequence -> string.

(** The member [sequences], a vector of pointers, and the free store the
    pointers point into: a pointer is an address, and the store holds the
    sequences that were allocated and not deleted since. *)
Record State : Type := Build {
  sequences : list nat;
  store : gmap nat Sequence
}.

(** [clear]: the loop of the [delete]s, then [sequences.clear()].  [None]
    stands for undefined behaviour: the [delete] of a sequence that is not
    on the store (any more). *)
Fixpoint clear_loop (seqs : list nat) (store : gmap nat Sequence)
    : option (gmap nat Sequence) :=
  match seqs with
  | [] => Some store
  | s :: rest =>
    match store !! s with
    | None => None
    | Some _ => clear_loop rest (delete s store)
    end
  end.

Definition clear (st : State) : option State :=
  match clear_loop (sequences st) (store st) with
  | Some store' => Some (Build [] store')
  | None => None
  end.

(** [FindSequence]: the pointer found, or [None] for [nullptr]; the outer
    [None] stands for the call of [Label] on a deleted sequence. *)
Fixpoint find_sequence_loop (store : gmap nat Sequence) (label : string)
    (seqs : list nat) : option (option nat) :=
  match seqs with
  | [] => Some None
  | s :: rest =>
    match store !! s with
    | None => None
    | Some q =>
      if String.eqb (Label q) label then Some (Some s)
      else find_sequence_loop store label rest
    end
  end.

Definition FindSequence (st : State) (label : string) : option (option nat) :=
  find_sequence_loop (store st) label (sequences st).

(** The test of [RemoveList] that decides that a sequence is deleted. *)
Definition removes (lmap : gset string) (invert : bool) (q : Sequence) : bool :=
  (negb invert && bool_decide (Label q ∈ lmap))
  || (invert && negb (bool_decide (Label q ∈ lmap))).

(** The while-loop of [RemoveList]: [it] and [re] are the two iterators,
    as indices; [n] rounds are left. *)
Fixpoint remove_loop (n : nat) (lmap : gset string) (invert : bool)
    (seqs : list nat) (store : gmap nat Sequence) (it re : nat)
    : option (list nat * gmap nat Sequence * nat) :=
  match n with
  | O => Some (seqs, store, re)
  | S n' =>
    match seqs !! it with
    | None => Some (seqs, store, re)
    | Some p =>
      match store !! p with
      | None => None
      | Some q =>
        if removes lmap invert q
        then remove_loop n' lmap invert seqs (delete p store) (S it) re
        else remove_loop n' lmap invert (<[ re := p ]> seqs) store (S it) (S re)
      end
    end
  end.

(** [RemoveList]; [sequences.erase(re, sequences.end())] keeps the
    elements in front of [re]. *)
Definition RemoveList (labels : list string) (invert : bool) (st : State)
    : option State :=
  let lmap : gset string := list_to_set labels in
  match remove_loop (length (sequences st)) lmap invert
          (sequences st) (store st) 0 0 with
  | Some (seqs, store', re) => Some (Build (take re seqs) store')
  | None => None
  end.

(** The pointers of the set are different pointers to sequences on the
    store. *)
Definition valid (st : State) : Prop :=
  NoDup (sequences st) /\ forall p, p ∈ sequences st -> is_Some (store st !! p).

(** The sequence at [p] is on the store and [RemoveList] keeps it. *)
Definition kept (labels : list string) (invert : bool) (store : gmap nat Sequence)
    (p : nat) : bool :=
  match store !! p with
  | Some q => negb (removes (list_to_set labels) invert q)
  | None => false
  end.

(** The sequence at [p] is on the store and has the label. *)
Definition labelled (store : gmap nat Sequence) (label : string) (p : nat) : bool :=
  match store !! p with
  | Some q => String.eqb (Label q) label
  | None => false
  end.

End Sequences.

Arguments Build {Sequence} _ _.
Arguments sequences {Sequence} _.
Arguments store {Sequence} _.

End SequenceSet.

(* --------------------------------------------------------------------- *)
(** ** lib/utils/json_document.hpp                                         *)
(* --------------------------------------------------------------------- *)

Module JsonValueObject.

(** A [JsonValue*]: the address of a value, or [None] for [nullptr]. *)
Definition pointer : Type := option nat.

(** The member [data_], an [unordered_map] from names to pointers, is a
    [gmap string pointer]; the functions take it and return the new one. *)
Definition size (o : gmap string pointer) : Z := Z.of_nat (base.size o).

(** [data_.count(name) > 0]. *)
Definition Has (o : gmap string pointer) (name : string) : bool :=
  bool_decide (is_Some (o !! name)).

(** [data_.at(name)] when the key is there, [nullptr] otherwise. *)
Definition Get (o : gmap string pointer) (name : string) : pointer :=
  if Has o name then default None (o !! name) else None.

(** [erase]: the flag returned ([data_.erase(name) > 0]), and the object
    afterwards. *)
Definition erase (o : gmap string pointer) (name : string)
    : bool * gmap string pointer :=
  (bool_decide (is_Some (o !! name)), delete name o).

(** [Set]: [data_[name] = value]. *)
Definition Set_ (o : gmap string pointer) (name : string) (value : pointer)
    : gmap string pointer :=
  <[ name := value ]> o.

End JsonValueObject.

(* --------------------------------------------------------------------- *)
(** ** lib/utils/logging.cpp                                               *)
(* --------------------------------------------------------------------- *)

Module Logging.

Section Streams.

(** The address of [std::cout]. *)
Variable cout : nat.

(** [LogToStdout] on the static member [ostreams_], a vector of pointers
    to streams: the loop that looks for [&std::cout], and the function. *)
Fixpoint has_stdout (ostreams_ : list nat) : bool :=
  match ostreams_ with
  | [] => false
  | os :: rest => if (os =? cout)%nat then true else has_stdout rest
  end.

Definition LogToStdout (ostreams_ : list nat) : list nat :=
  if has_stdout ostreams_ then ostreams_ else ostreams_ ++ [cout].

End Streams.

End Logging.

(* --------------------------------------------------------------------- *)
(** ** Notions used in the statements                                      *)
(* --------------------------------------------------------------------- *)

Module Brackets.
Import Lexer.

(** What a token is for [ValidateBrackets]: an opening bracket, with the
    closing bracket it asks for, a closing bracket, or a token the
    function passes over (any token that is not a bracket token, and a
    bracket token whose value starts with none of the eight brackets). *)
Inductive BracketKind : Type :=
  | Opens (closing : ascii)
  | Closes (closing : ascii)
  | Other.

Definition bracket_kind (t : LexerToken) : BracketKind :=
  if negb (IsBracket t) then Other
  else
    let c := front_char (value_ t) in
    if Ascii.eqb c "(" then Opens ")"
    else if Ascii.eqb c "[" then Opens "]"
    else if Ascii.eqb c "{" then Opens "}"
    else if Ascii.eqb c "<" then Opens ">"
    else if Ascii.eqb c ")" || Ascii.eqb c "]" || Ascii.eqb c "}" || Ascii.eqb c ">"
    then Closes c
    else Other.

(** Validly nested token sequences: every opening bracket is matched with
    the corresponding closing bracket, in the correct order. *)
Inductive nested : list LexerToken -> Prop :=
  | nested_nil : nested []
  | nested_other (t : LexerToken) (ts : list LexerToken) :
      bracket_kind t = Other -> nested ts -> nested (t :: ts)
  | nested_pair (o c : LexerToken) (x : ascii) (inner ts : list LexerToken) :
      bracket_kind o = Opens x -> bracket_kind c = Closes x ->
      nested inner -> nested ts -> nested (o :: inner ++ c :: ts).

(** The stack of [ValidateBrackets] after the tokens, when it has not
    returned false on one of them. *)
Fixpoint final_stack (tokens : list LexerToken) (stk : list ascii)
    : option (list ascii) :=
  match tokens with
  | [] => Some stk
  | t :: rest =>
    match validate_token t stk with
    | None => None
    | Some stk' => final_stack rest stk'
    end
  end.

(** The bracket token that closes with [c]. *)
Definition closing_token (c : ascii) : LexerToken :=
  Token kBracket 0 (String c EmptyString).

Definition is_closing (c : ascii) : bool :=
  Ascii.eqb c ")" || Ascii.eqb c "]" || Ascii.eqb c "}" || Ascii.eqb c ">".

End Brackets.

Module Notions.

(** The words of a bit vector reach up to its size: every index below
    [size_] has its word in [data_].  The constructor builds such vectors
    and the accessors keep them so. *)
Definition covers (b : Bitvector.t) : Prop :=
  Bitvector.size_ b <= Bitvector.IntSize * Z.of_nat (length (Bitvector.data_ b)).

(** [i] is the index at which [p] appears in [l] for the first time. *)
Definition first_occurrence (l : list Z) (p : Z) (i : Z) : Prop :=
  0 <= i /\ l !! Z.to_nat i = Some p
  /\ forall j, (j < Z.to_nat i)%nat -> l !! j <> Some p.

(** The node at position [k] of [l] is the last one of those that satisfy
    [keep] to have its key. *)
Definition last_with_key {K : Type} (key : Plausibility.Node -> K)
    (keep : Plausibility.Node -> bool) (l : list Plausibility.Node) (k : nat)
    (n : Plausibility.Node) : Prop :=
  l !! k = Some n /\ keep n = true
  /\ forall k' n', (k < k')%nat -> l !! k' = Some n' -> keep n' = true ->
                   key n' <> key n.

(** The [d] characters of the text of [l] from position [p] on are plain
    characters of a string quoted with [qmark]: none of them is the
    quotation mark, and none is a backslash when the lexer reads escape
    sequences. *)
Definition plain_at (l : Lexer.Lexer) (qmark : ascii) (p d : nat) : bool :=
  forallb (fun q => negb (Ascii.eqb (Lexer.char_at (Lexer.text_ l) q) "\"
                          && Lexer.use_string_escape l)
                    && negb (Ascii.eqb (Lexer.char_at (Lexer.text_ l) q) qmark))
          (seq p d).

(** The lexer without its cursor and its tokens: the class, the text, the
    table of the characters and the flags. *)
Definition setup_of (l : Lexer.Lexer) : Lexer.Lexer :=
  Lexer.set_tokens (Lexer.set_itr l 0) [].

(** The lexer is a [NewickLexer] with what the constructor of that class
    sets for the characters on which its scanners have an [assert]: a sign
    is not glued to a number, the colon alone starts a number, the two
    curly brackets alone start a tag, and the two square brackets alone
    start a comment. *)
Definition newick_setup (l : Lexer.Lexer) : Prop :=
  Lexer.class_ l = Lexer.NewickLexer
  /\ Lexer.glue_sign_to_number l = false
  /\ (forall c, Lexer.start_char_table_ l c = Lexer.kNumber -> c = ":"%char)
  /\ (forall c, Lexer.start_char_table_ l c = Lexer.kTag
                -> c = "{"%char \/ c = "}"%char)
  /\ (forall c, Lexer.start_char_table_ l c = Lexer.kComment
                -> c = "["%char \/ c = "]"%char).

End Notions.

(* --------------------------------------------------------------------- *)
(** ** Inputs used in the examples                                         *)
(* --------------------------------------------------------------------- *)

Module Examples.

(** The tokens of the text [(A,B;]. *)
Definition unclosed_tokens : list Lexer.LexerToken :=
  [ Lexer.Token Lexer.kBracket 0 "(";
    Lexer.Token Lexer.kSymbol 1 "A";
    Lexer.Token Lexer.kOperator 2 ",";
    Lexer.Token Lexer.kSymbol 3 "B";
    Lexer.Token Lexer.kOperator 4 ";" ].

(** A lexer in which brackets, separators, digits, blanks, quotes and
    letters start the tokens one expects, ['#'] is an error character, and
    every other character is unknown. *)
Definition is_in (c : ascii) (s : string) : bool :=
  existsb (Ascii.eqb c) (list_ascii_of_string s).

Definition table (c : ascii) : Lexer.LexerTokenType :=
  if is_in c "()" then Lexer.kBracket
  else if is_in c ",;+-" then Lexer.kOperator
  else if is_in c "0123456789" then Lexer.kNumber
  else if is_in c " " then Lexer.kWhite
  else if is_in c "'" then Lexer.kString
  else if is_in c "#" then Lexer.kError
  else if is_in c "abcdefghijklmnopqrstuvwxyzABCDEFGHIJKLMNOPQRSTUVWXYZ"
  then Lexer.kSymbol
  else Lexer.kUnknown.

Definition lexer : Lexer.Lexer :=
  Lexer.Build Lexer.BaseLexer "" 0 [] table false true true true false true false.

(** The Newick lexer made from it. *)
Definition newick_lexer : Lexer.Lexer := Lexer.NewickLexer_new lexer.

(** The reference tree [((A,B),(C,D));] and the small trees [(A,X);] and
    [(A,C);], with the nodes numbered in preorder. *)
Definition reference_tree : Plausibility.Tree :=
  Plausibility.T 0 ""
    [ Plausibility.T 1 "" [Plausibility.T 2 "A" []; Plausibility.T 3 "B" []];
      Plausibility.T 4 "" [Plausibility.T 5 "C" []; Plausibility.T 6 "D" []] ].

Definition small_tree_AX : Plausibility.Tree :=
  Plausibility.T 0 "" [Plausibility.T 1 "A" []; Plausibility.T 2 "X" []].

Definition small_tree_AC : Plausibility.Tree :=
  Plausibility.T 0 "" [Plausibility.T 1 "A" []; Plausibility.T 2 "C" []].

(** The broker of [((A,B)I,C)R;]: the root first, the children of a node
    after it, last child first.  A branch length is given by the text
    [std::to_string] prints for it, and no name holds a blank. *)
Definition printed (length_text : string) : string := length_text.

Definition no_blank (text search replace : string) : string := text.

(** The texts lexed in the examples hold no escape sequence and no doubled
    quotation mark: [StringDeescape] and [StringReplaceAll] have nothing to
    change in them. *)
Definition no_escape (text : string) : string := text.

Definition broker : list (NewickProcessor.NewickBrokerElement string) :=
  [ NewickProcessor.Element "R" "0.000000" [] [] 0 2;
    NewickProcessor.Element "C" "0.300000" [] [] 1 0;
    NewickProcessor.Element "I" "0.500000" [] [] 1 2;
    NewickProcessor.Element "B" "0.200000" [] [] 2 0;
    NewickProcessor.Element "A" "0.100000" [] [] 2 0 ].

Definition statics : NewickProcessor.Statics :=
  NewickProcessor.MkStatics true true false false 6.

(** Three links of one node, in a circle: 0 -> 1 -> 2 -> 0. *)
Definition next3 (link : nat) : nat :=
  match link with
  | 0%nat => 1%nat
  | 1%nat => 2%nat
  | _ => 0%nat
  end.

(** A bit vector of 70 bits (two words), none of them set. *)
Definition bits70 : Bitvector.t := Bitvector.make 70.

(** A lexer of the base class in which the curly brackets start a tag,
    standing behind the symbol of the text [a{]. *)
Definition tag_table (c : ascii) : Lexer.LexerTokenType :=
  if is_in c "{}" then Lexer.kTag else table c.

Definition stalled_lexer : Lexer.Lexer :=
  Lexer.Build Lexer.BaseLexer "a{" 1 [Lexer.Token Lexer.kSymbol 0 "a"] tag_table
              false true true true false true false.

(** Three sequences on the store, given by their labels, and the set that
    holds them in the order A, B, C. *)
Definition sequence_store : gmap nat string :=
  {[ 0%nat := "A"%string; 1%nat := "B"%string; 2%nat := "C"%string ]}.

Definition sequence_label (s : string) : string := s.

Definition sequence_set : SequenceSet.State string :=
  SequenceSet.Build [0%nat; 1%nat; 2%nat] sequence_store.

(** A [NewickLexer] whose flag [glue_sign_to_number] has been switched on
    and whose table has kept the signs as operators and the digits as
    numbers. *)
Definition glued_newick_lexer : Lexer.Lexer :=
  Lexer.Build Lexer.NewickLexer "" 0 [] table false true true true false true true.


End Examples.

(* ===================================================================== *)
(** * Part II: theorems                                                    *)
(* ===================================================================== *)

(* --------------------------------------------------------------------- *)
(** ** Strings                                                             *)
(* --------------------------------------------------------------------- *)

Section StringFacts.

Lemma string_app_cons (c : ascii) (s1 s2 : string) :
  (String c s1 ++ s2)%string = String c (s1 ++ s2).
Proof. reflexivity. Qed.

Lemma string_app_assoc (s1 s2 s3 : string) :
  ((s1 ++ s2) ++ s3 = s1 ++ (s2 ++ s3))%string.
Proof.
  induction s1 as [| c s1 IH]; [reflexivity |].
  rewrite !string_app_cons, IH. reflexivity.
Qed.


Lemma string_length_app (s1 s2 : string) :
  String.length (s1 ++ s2) = (String.length s1 + String.length s2)%nat.
Proof.
  induction s1 as [| c s1 IH]; [reflexivity |].
  rewrite string_app_cons. simpl. rewrite IH. reflexivity.
Qed.

Lemma substring_0_0 (s : string) : String.substring 0 0 s = EmptyString.
Proof. destruct s; reflexivity. Qed.

Lemma substring_all (s : string) : String.substring 0 (String.length s) s = s.
Proof. induction s as [| c s IH]; simpl; [reflexivity | rewrite IH; reflexivity]. Qed.

End StringFacts.

(* --------------------------------------------------------------------- *)
(** ** Bitvector                                                           *)
(* --------------------------------------------------------------------- *)

Section BitvectorFacts.
Import Bitvector.

Lemma Get_out_of_range (b : Bitvector.t) (i : Z) :
  size_ b <= i -> Get b i = false.
Proof.
  intros Hi. unfold Get.
  destruct (Z.geb_spec i (size_ b)) as [_ | Hlt]; [reflexivity | lia].
Qed.

Lemma guard_out_of_range (b : Bitvector.t) (i : Z) (x : Bitvector.t) :
  size_ b <= i -> (if i >=? size_ b then b else x) = b.
Proof.
  intros Hi. destruct (Z.geb_spec i (size_ b)) as [_ | Hlt]; [reflexivity | lia].
Qed.

(** C10.  For an index at or past the size of the bit vector, [Get]
    returns false and [Set], [Unset], [Flip] (and [Set] with a value)
    return the bit vector as it was: neither the size nor any word of the
    data changes. *)
Theorem accessors_out_of_range (b : Bitvector.t) (i : Z) :
  size_ b <= i ->
  Get b i = false /\ Set_ b i = b /\ Unset b i = b /\ Flip b i = b
  /\ (forall value, Set_to b i value = b).
Proof.
  intros Hi. split; [exact (Get_out_of_range b i Hi) |].
  assert (HS : Set_ b i = b) by (unfold Set_; apply guard_out_of_range, Hi).
  assert (HU : Unset b i = b) by (unfold Unset; apply guard_out_of_range, Hi).
  assert (HF : Flip b i = b) by (unfold Flip; apply guard_out_of_range, Hi).
  repeat split; try assumption.
  intros [|]; unfold Set_to; assumption.
Qed.

Lemma accessors_out_of_range_witness :
  size_ Examples.bits70 <= 70 /\
  Get Examples.bits70 70 = false /\ Set_ Examples.bits70 70 = Examples.bits70.
Proof.
  assert (H : size_ Examples.bits70 <= 70) by (simpl; lia).
  split; [exact H |].
  destruct (accessors_out_of_range Examples.bits70 70 H) as (HG & HS & _).
  split; assumption.
Defined.

(** In range the accessors do work on the bits: in the 70-bit example,
    bit 69 reads true after [Set] and false again after [Unset] or a
    second [Flip], and bit 68 stays false. *)
Example accessors_in_range :
  Get (Set_ Examples.bits70 69) 69 = true
  /\ Get (Set_ Examples.bits70 69) 68 = false
  /\ Get (Unset (Set_ Examples.bits70 69) 69) 69 = false
  /\ Get (Flip Examples.bits70 69) 69 = true
  /\ Flip (Flip Examples.bits70 69) 69 = Examples.bits70.
Proof. vm_compute. repeat split; reflexivity. Qed.

End BitvectorFacts.

(* --------------------------------------------------------------------- *)
(** ** Lexer: bracket validation                                           *)
(* --------------------------------------------------------------------- *)

Section BracketFacts.
Import Lexer.

(** A closing bracket that does not match the innermost open one is
    rejected. *)
Example ValidateBrackets_rejects_mismatch :
  ValidateBrackets [Token kBracket 0 "("; Token kBracket 1 "]"] = false
  /\ ValidateBrackets [Token kBracket 0 ")"] = false
  /\ ValidateBrackets [Token kBracket 0 "("; Token kBracket 1 ")"] = true.
Proof. repeat split; reflexivity. Qed.

(** The loop of [ValidateBrackets] never looks at the stack when it runs
    out of tokens: what is still open at the end is accepted. *)
Lemma validate_loop_only_opening (ts : list LexerToken) (stk : list ascii) :
  Forall (fun t => IsBracket t = true /\ front_char (value_ t) = "("%char) ts ->
  validate_loop ts stk = true.
Proof.
  intros H. revert stk. induction H as [| t ts [Hb Hc] _ IH]; intros stk.
  - reflexivity.
  - simpl. unfold validate_token. rewrite Hb, Hc. simpl. apply IH.
Qed.

(** C2.  On the tokens of [(A,B;], whose opening parenthesis is never
    closed, [ValidateBrackets] returns true. *)
Theorem ValidateBrackets_accepts_unclosed :
  ValidateBrackets Examples.unclosed_tokens = true.
Proof. reflexivity. Qed.

End BracketFacts.

(* --------------------------------------------------------------------- *)
(** ** NewickProcessor: printing                                           *)
(* --------------------------------------------------------------------- *)

Section PrintingFacts.
Import NewickProcessor.

Variable double : Type.
Variable to_string : double -> string.
Variable StringReplaceAll : string -> string -> string -> string.

Local Abbreviation ElementToString := (ElementToString double to_string StringReplaceAll).
Local Abbreviation ToStringRec := (ToStringRec double to_string StringReplaceAll).
Local Abbreviation children_loop := (children_loop double).
Local Abbreviation Element := (NewickBrokerElement double).




(** The loop over the children depends on the recursive call only at the
    positions it visits. *)
Lemma children_loop_ext (rec1 rec2 : nat -> option string)
    (broker : list Element) (bn : Element) (n : nat) :
  forall i children,
    (forall k, (i <= k < i + n)%nat -> rec1 k = rec2 k) ->
    children_loop rec1 broker bn n i children
    = children_loop rec2 broker bn n i children.
Proof.
  induction n as [| n IH]; intros i children Hrec; simpl; [reflexivity |].
  destruct (broker !! i) as [bi |]; [| reflexivity].
  destruct (depth bi >? depth bn); [| reflexivity].
  destruct (depth bi >? depth bn + 1).
  - apply IH. intros k Hk. apply Hrec. lia.
  - rewrite (Hrec i) by lia. destruct (rec2 i); [| reflexivity].
    apply IH. intros k Hk. apply Hrec. lia.
Qed.

Lemma children_loop_is_Some (rec : nat -> option string)
    (broker : list Element) (bn : Element) (n : nat) :
  forall i children,
    (forall k, (i <= k < i + n)%nat -> (k < length broker)%nat -> is_Some (rec k)) ->
    is_Some (children_loop rec broker bn n i children).
Proof.
  induction n as [| n IH]; intros i children Hrec; simpl; [eauto |].
  destruct (broker !! i) as [bi |] eqn:Ei; [| eauto].
  destruct (depth bi >? depth bn); [| eauto].
  destruct (depth bi >? depth bn + 1).
  - apply IH. intros k Hk. apply Hrec. lia.
  - destruct (Hrec i) as [x Hx]; [lia | apply lookup_lt_Some in Ei; exact Ei |].
    rewrite Hx. apply IH. intros k Hk. apply Hrec. lia.
Qed.

(** With at least [length broker - pos] rounds of fuel the call at [pos]
    returns, and more fuel does not change what it returns. *)
Lemma ToStringRec_enough_fuel (st : Statics) (broker : list Element) (d : nat) :
  forall pos fuel,
    (pos < length broker)%nat ->
    (length broker - pos <= d)%nat ->
    (length broker - pos <= fuel)%nat ->
    ToStringRec st fuel broker pos = ToStringRec st (length broker - pos) broker pos
    /\ is_Some (ToStringRec st (length broker - pos) broker pos).
Proof.
  induction d as [| d IH]; intros pos fuel Hpos Hd Hfuel; [lia |].
  destruct (length broker - pos)%nat as [| m] eqn:Em; [lia |].
  destruct fuel as [| f]; [lia |].
  simpl.
  destruct (broker !! pos) as [bn |] eqn:Ebn;
    [| apply lookup_ge_None in Ebn; lia].
  destruct (rank bn =? 0); [split; [reflexivity | eauto] |].
  assert (Hm : (length broker - S pos = m)%nat) by lia.
  assert (Hagree : forall k, (S pos <= k < S pos + (length broker - S pos))%nat ->
             ToStringRec st f broker k = ToStringRec st m broker k).
  { intros k Hk.
    destruct (IH k f ltac:(lia) ltac:(lia) ltac:(lia)) as [Ef _].
    destruct (IH k m ltac:(lia) ltac:(lia) ltac:(lia)) as [Em' _].
    congruence. }
  rewrite (children_loop_ext _ _ broker bn _ (S pos) [] Hagree).
  split; [reflexivity |].
  destruct (children_loop_is_Some (ToStringRec st m broker) broker bn
              (length broker - S pos) (S pos) []) as [children Hc].
  { intros k Hk Hlt.
    destruct (IH k m ltac:(lia) ltac:(lia) ltac:(lia)) as [Em' [x Hx]].
    rewrite Em', Hx. eauto. }
  rewrite Hc. eauto.
Qed.

(** C8.  For fixed print settings and a fixed broker, [ToStringRec] at a
    position of the broker returns a text, and every invocation returns
    that same text, character for character (the fuel of the embedding has
    no part in it); [ElementToString], which it calls for every element, is
    a function of the settings and the element alone. *)
Theorem serialization_is_deterministic
    (st : Statics) (broker : list Element) (pos : nat) :
  (pos < length broker)%nat ->
  exists text,
    forall fuel1 fuel2,
      (length broker - pos <= fuel1)%nat ->
      (length broker - pos <= fuel2)%nat ->
      ToStringRec st fuel1 broker pos = Some text
      /\ ToStringRec st fuel2 broker pos = Some text.
Proof.
  intros Hpos.
  destruct (ToStringRec_enough_fuel st broker (length broker - pos) pos
              (length broker - pos) Hpos ltac:(lia) ltac:(lia)) as [_ [text Ht]].
  exists text. intros fuel1 fuel2 H1 H2.
  destruct (ToStringRec_enough_fuel st broker (length broker - pos) pos fuel1
              Hpos ltac:(lia) H1) as [E1 _].
  destruct (ToStringRec_enough_fuel st broker (length broker - pos) pos fuel2
              Hpos ltac:(lia) H2) as [E2 _].
  rewrite E1, E2, Ht. split; reflexivity.
Qed.

End PrintingFacts.

Lemma serialization_is_deterministic_witness :
  exists text,
    forall fuel1 fuel2,
      (length Examples.broker - 0 <= fuel1)%nat ->
      (length Examples.broker - 0 <= fuel2)%nat ->
      NewickProcessor.ToStringRec string Examples.printed Examples.no_blank
        Examples.statics fuel1 Examples.broker 0 = Some text
      /\ NewickProcessor.ToStringRec string Examples.printed Examples.no_blank
           Examples.statics fuel2 Examples.broker 0 = Some text.
Proof.
  apply (serialization_is_deterministic string Examples.printed Examples.no_blank
           Examples.statics Examples.broker 0).
  simpl. lia.
Defined.



(** The text of the example, and the same text whatever [precision] is. *)
Example ToStringRec_on_the_example :
  NewickProcessor.ToStringRec string Examples.printed Examples.no_blank
    Examples.statics 5 Examples.broker 0
  = Some "((A:0.100000,B:0.200000)I:0.500000,C:0.300000)R:0.000000"%string
  /\ NewickProcessor.ToStringRec string Examples.printed Examples.no_blank
       (NewickProcessor.set_precision Examples.statics 2) 5 Examples.broker 0
     = Some "((A:0.100000,B:0.200000)I:0.500000,C:0.300000)R:0.000000"%string.
Proof. split; vm_compute; reflexivity. Qed.

(* --------------------------------------------------------------------- *)
(** ** TreeNode: rank and the iteration over the links                     *)
(* --------------------------------------------------------------------- *)

Section TreeNodeFacts.
Import TreeNode.

Variable Next : nat -> nat.

(** The link reached from [link_] after [j] steps of [Next]. *)
Local Abbreviation after j link_ := (Nat.iter j Next link_).

(** A circle through [link_] has a first return to it. *)
Lemma first_return_exists (link_ : nat) (m : nat) :
  (0 < m)%nat -> after m link_ = link_ ->
  exists k, (k <= m)%nat /\ first_return Next link_ k.
Proof.
  induction m as [m IH] using lt_wf_ind. intros Hm Hcycle.
  destruct (decide (Exists (fun j => after j link_ = link_) (seq 1 (m - 1))))
    as [Hex | Hnone].
  - apply Exists_exists in Hex. destruct Hex as (j & Hin & Hj).
    apply elem_of_seq in Hin.
    destruct (IH j ltac:(lia) ltac:(lia) Hj) as (k & Hk & Hfirst).
    exists k. split; [lia | exact Hfirst].
  - exists m. split; [lia |]. repeat split; try assumption.
    intros j Hj Hret. apply Hnone, Exists_exists.
    exists j. split; [apply elem_of_seq; lia | exact Hret].
Qed.

(** The loop of [Rank], [d] steps before the first return. *)
Lemma rank_loop_runs (link_ k : nat) (Hfirst : first_return Next link_ k) (d : nat) :
  forall j fuel rank,
    (j + S d = k)%nat -> (S d <= fuel)%nat ->
    rank_loop Next fuel link_ (after j link_) rank = Some (rank + Z.of_nat (S d)).
Proof.
  destruct Hfirst as (Hk & Hret & Hmin).
  induction d as [| d IH]; intros j fuel rank Hj Hfuel.
  - destruct fuel as [| fuel]; [lia |]. simpl rank_loop.
    replace (Next (after j link_)) with (after k link_)
      by (rewrite <- Hj, Nat.add_1_r; reflexivity).
    rewrite Hret, Nat.eqb_refl. f_equal; lia.
  - destruct fuel as [| fuel]; [lia |]. simpl rank_loop.
    change (Next (after j link_)) with (after (S j) link_).
    destruct (Nat.eqb_spec (after (S j) link_) link_) as [E | _].
    + exfalso. apply (Hmin (S j)); [lia | exact E].
    + rewrite (IH (S j) fuel (rank + 1)) by lia. f_equal; lia.
Qed.

(** The iteration from [BeginLinks] to [EndLinks], [d] steps before the
    first return. *)
Lemma iterate_links_runs (link_ k : nat) (Hfirst : first_return Next link_ k) (d : nat) :
  forall j fuel seen,
    (j + S d = k)%nat -> (S (S d) <= fuel)%nat ->
    iterate_links Next fuel (Iterator (Some (after j link_)) (Some link_)) seen
    = Some (seen ++ map (fun i => after i link_) (seq j (S d))).
Proof.
  destruct Hfirst as (Hk & Hret & Hmin).
  induction d as [| d IH]; intros j fuel seen Hj Hfuel.
  - destruct fuel as [| fuel]; [lia |].
    simpl iterate_links. unfold increment. simpl it_link_. simpl it_start_.
    replace (Next (after j link_)) with (after k link_)
      by (rewrite <- Hj, Nat.add_1_r; reflexivity).
    rewrite Hret. simpl ptr_eqb. rewrite Nat.eqb_refl.
    destruct fuel as [| fuel]; [lia |]. reflexivity.
  - destruct fuel as [| fuel]; [lia |].
    simpl iterate_links. unfold increment. simpl it_link_. simpl it_start_.
    change (Next (after j link_)) with (after (S j) link_).
    simpl ptr_eqb.
    destruct (Nat.eqb_spec (after (S j) link_) link_) as [E | _].
    + exfalso. apply (Hmin (S j)); [lia | exact E].
    + rewrite (IH (S j) fuel (seen ++ [after j link_])) by lia.
      rewrite <- app_assoc. reflexivity.
Qed.

(** C7.  When the [next] chain from the primary link [link_] of a node
    comes back to it (after some [m > 0] steps), [Rank] returns a value
    [rank], the iteration from [BeginLinks] until [EndLinks] yields exactly
    [rank + 1] links (the links met along the chain, the primary link
    first), and following [next] from the primary link comes back to it
    after exactly [rank + 1] steps and not before. *)
Theorem links_iteration_yields_rank_plus_one (link_ m : nat) :
  (0 < m)%nat ->
  Nat.iter m Next link_ = link_ ->
  exists (rank : Z) (links : list nat),
    (forall fuel, (m <= fuel)%nat -> Rank Next fuel link_ = Some rank)
    /\ (forall fuel, (m < fuel)%nat -> Links Next fuel link_ = Some links)
    /\ Z.of_nat (length links) = rank + 1
    /\ links = map (fun j => Nat.iter j Next link_) (seq 0 (length links))
    /\ Nat.iter (length links) Next link_ = link_
    /\ (forall j, (0 < j < length links)%nat -> Nat.iter j Next link_ <> link_).
Proof.
  intros Hm Hcycle.
  destruct (first_return_exists link_ m Hm Hcycle) as (k & Hkm & Hfirst).
  pose proof Hfirst as (Hk & Hret & Hmin).
  destruct k as [| d]; [lia |].
  exists (Z.of_nat d), (map (fun j => after j link_) (seq 0 (S d))).
  rewrite length_map, length_seq.
  repeat split.
  - intros fuel Hfuel. unfold Rank.
    pose proof (rank_loop_runs link_ (S d) Hfirst d 0 fuel (-1)
                  ltac:(lia) ltac:(lia)) as Hrun.
    simpl Nat.iter in Hrun. rewrite Hrun. f_equal; lia.
  - intros fuel Hfuel. unfold Links, BeginLinks.
    pose proof (iterate_links_runs link_ (S d) Hfirst d 0 fuel []
                  ltac:(lia) ltac:(lia)) as Hrun.
    simpl Nat.iter in Hrun at 1. exact Hrun.
  - lia.
  - exact Hret.
  - exact Hmin.
Qed.

End TreeNodeFacts.

Lemma links_iteration_yields_rank_plus_one_witness :
  exists (rank : Z) (links : list nat),
    (forall fuel, (3 <= fuel)%nat -> TreeNode.Rank Examples.next3 fuel 0 = Some rank)
    /\ (forall fuel, (3 < fuel)%nat -> TreeNode.Links Examples.next3 fuel 0 = Some links)
    /\ Z.of_nat (length links) = rank + 1
    /\ links = map (fun j => Nat.iter j Examples.next3 0%nat) (seq 0 (length links))
    /\ Nat.iter (length links) Examples.next3 0%nat = 0%nat
    /\ (forall j, (0 < j < length links)%nat -> Nat.iter j Examples.next3 0%nat <> 0%nat).
Proof.
  apply (links_iteration_yields_rank_plus_one Examples.next3 0 3).
  - lia.
  - reflexivity.
Defined.

(** On the circle of three links, the rank is 2 and the iteration yields
    the three links. *)
Example Rank_and_Links_on_the_example :
  TreeNode.Rank Examples.next3 3 0 = Some 2
  /\ TreeNode.Links Examples.next3 4 0 = Some [0; 1; 2]%nat
  /\ TreeNode.Rank Examples.next3 2 0 = None.
Proof. repeat split; reflexivity. Qed.



(* --------------------------------------------------------------------- *)
(** ** Plausibility                                                        *)
(* --------------------------------------------------------------------- *)

Section PlausibilityFacts.
Import Plausibility.

(** *** The leaves of the small tree *)

Lemma map_index_absent (m : gmap string Z) (k : string) :
  m !! k = None -> map_index m k = (0, <[ k := 0 ]> m).
Proof. intros H. unfold map_index. rewrite H. reflexivity. Qed.

Lemma map_index_present (m : gmap string Z) (k : string) (v : Z) :
  m !! k = Some v -> map_index m k = (v, m).
Proof. intros H. unfold map_index. rewrite H. reflexivity. Qed.

(** Every leaf of the small tree adds one entry, whatever its name. *)
Lemma leaf_step_length (s : list (Z * bool) * gmap string Z) (n : Node) :
  length (leaf_step s n).1 = (length s.1 + (if IsLeaf n then 1 else 0))%nat.
Proof.
  destruct s as [v m]. unfold leaf_step.
  destruct (IsLeaf n); simpl; [| lia].
  destruct (map_index m (name n)) as [id m'] eqn:E. simpl.
  rewrite length_app. simpl. lia.
Qed.

Lemma collect_leaves_length (m : gmap string Z) (small_preorder : list Node) :
  length (collect_leaves m small_preorder).1
  = length (filter (fun n => IsLeaf n = true) small_preorder).
Proof.
  unfold collect_leaves.
  assert (G : forall l s,
             length (fold_left leaf_step l s).1
             = (length s.1 + length (filter (fun n => IsLeaf n = true) l))%nat).
  { induction l as [| n l IH]; intros s; simpl; [lia |].
    rewrite IH, leaf_step_length.
    destruct (IsLeaf n) eqn:E.
    - rewrite filter_cons_True by exact E. simpl. lia.
    - rewrite filter_cons_False by (rewrite E; discriminate). lia. }
  rewrite G. reflexivity.
Qed.

(** A leaf whose name is absent from the map is recorded with the value
    that [operator []] inserts, 0. *)
Lemma leaf_step_absent
    (reference_map : gmap string Z) (leaves : list (Z * bool)) (n : Node) :
  IsLeaf n = true ->
  reference_map !! name n = None ->
  leaf_step (leaves, reference_map) n
  = (leaves ++ [(0, true)], <[ name n := 0 ]> reference_map).
Proof.
  intros Hleaf Habsent. unfold leaf_step.
  rewrite Hleaf, (map_index_absent _ _ Habsent). reflexivity.
Qed.

(** The names the leaf loop adds to the map all get the value 0, and what
    the loop has recorded and mapped stays. *)
Lemma leaf_step_extends (m0 : gmap string Z) (s : list (Z * bool) * gmap string Z)
    (n : Node) :
  extends_with_zero m0 s.2 ->
  extends_with_zero m0 (leaf_step s n).2
  /\ (forall x, x ∈ s.1 -> x ∈ (leaf_step s n).1)
  /\ (forall k, s.2 !! k = Some 0 -> (leaf_step s n).2 !! k = Some 0)
  /\ (IsLeaf n = true -> m0 !! name n = None ->
      (0, true) ∈ (leaf_step s n).1 /\ (leaf_step s n).2 !! name n = Some 0).
Proof.
  destruct s as [v m]. simpl. intros Hext. unfold leaf_step.
  destruct (IsLeaf n);
    [| split; [exact Hext | split; [auto | split; [auto | discriminate]]]].
  unfold map_index. destruct (m !! name n) as [z |] eqn:E; simpl.
  - split; [exact Hext |].
    split; [intros x Hx; apply elem_of_app; left; exact Hx |].
    split; [auto |]. intros _ Habsent.
    destruct (Hext (name n) Habsent) as [Hn | Hz]; [congruence |].
    assert (z = 0) by congruence. subst z.
    split; [| exact E].
    apply elem_of_app. right. apply list_elem_of_singleton. reflexivity.
  - split.
    { intros k Hk. destruct (decide (k = name n)) as [-> | Hne].
      - right. apply lookup_insert_eq.
      - rewrite lookup_insert_ne by congruence. apply Hext, Hk. }
    split; [intros x Hx; apply elem_of_app; left; exact Hx |].
    split.
    { intros k Hk. destruct (decide (k = name n)) as [-> | Hne]; [congruence |].
      rewrite lookup_insert_ne by congruence. exact Hk. }
    intros _ _. split; [| apply lookup_insert_eq].
    apply elem_of_app. right. apply list_elem_of_singleton. reflexivity.
Qed.

Lemma collect_leaves_absent (m0 : gmap string Z) (small_preorder : list Node) (n : Node) :
  n ∈ small_preorder -> IsLeaf n = true -> m0 !! name n = None ->
  (0, true) ∈ (collect_leaves m0 small_preorder).1
  /\ (collect_leaves m0 small_preorder).2 !! name n = Some 0.
Proof.
  intros Hin Hleaf Habsent. unfold collect_leaves.
  assert (Hkeep : forall l s,
             extends_with_zero m0 s.2 ->
             extends_with_zero m0 (fold_left leaf_step l s).2
             /\ (forall x, x ∈ s.1 -> x ∈ (fold_left leaf_step l s).1)
             /\ (forall k, s.2 !! k = Some 0 ->
                           (fold_left leaf_step l s).2 !! k = Some 0)).
  { induction l as [| a l IH]; intros s Hs; simpl; [auto |].
    destruct (leaf_step_extends m0 s a Hs) as (He & Hx & Hk & _).
    destruct (IH (leaf_step s a) He) as (He' & Hx' & Hk').
    repeat split; auto. }
  assert (G : forall l s,
             extends_with_zero m0 s.2 -> n ∈ l ->
             (0, true) ∈ (fold_left leaf_step l s).1
             /\ (fold_left leaf_step l s).2 !! name n = Some 0).
  { induction l as [| a l IH]; intros s Hs Hn; [inversion Hn |]. simpl.
    destruct (leaf_step_extends m0 s a Hs) as (He & Hx & Hk & Hhere).
    apply elem_of_cons in Hn. destruct Hn as [<- | Hn].
    - destruct (Hhere Hleaf Habsent) as [H1 H2].
      destruct (Hkeep l (leaf_step s n) He) as (_ & Hx' & Hk'). auto.
    - apply IH; assumption. }
  apply G; [| exact Hin]. intros k Hk. left. exact Hk.
Qed.

(** C1 (as stated) fails.  The small tree [(A,X);] has the leaf [X], which
    the reference tree [((A,B),(C,D));] does not have; the check does not
    fail: it ends with a result in which [X] stands with the preorder id 0,
    next to the ancestor found for the pair, and [X] is in the map. *)
Lemma absent_leaf_check_proceeds :
  (number_preorder (Preorder Examples.reference_tree)).1.2 !! "X" = None
  /\ In (MkNode 2 "X" true) (Preorder Examples.small_tree_AX)
  /\ exists reference_map,
       check Examples.reference_tree Examples.small_tree_AX
       = Some ([(0, false); (0, true); (2, true)], reference_map)
       /\ reference_map !! "X" = Some 0.
Proof.
  split; [vm_compute; reflexivity |].
  split; [simpl; auto |].
  eexists. split; [vm_compute; reflexivity |].
  vm_compute. reflexivity.
Qed.

(** *** The Euler traversal *)

Lemma collect_euler_length (ids : gmap nat Z) (eulertour : list Node) :
  length (collect_euler ids eulertour).1.1 = length eulertour.
Proof.
  unfold collect_euler.
  assert (G : forall l s,
             length (fold_left (euler_step ids) l s).1.1
             = (length s.1.1 + length l)%nat).
  { induction l as [| n l IH]; intros [[e m] c]; simpl; [lia |].
    rewrite IH. simpl. rewrite length_app. simpl. lia. }
  rewrite G. reflexivity.
Qed.

(** Induction on trees, with the hypothesis for every child. *)
Lemma Tree_induction (P : Tree -> Prop) :
  (forall i n cs, Forall P cs -> P (T i n cs)) ->
  forall t, P t.
Proof.
  intros step. fix IH 1. intros [i n cs]. apply step.
  induction cs as [| c cs IHcs]; constructor; [apply IH | exact IHcs].
Qed.

Lemma flat_map_cons_length {A B : Type} (f : A -> list B) (g : A -> nat)
    (x : B) (l : list A) :
  Forall (fun a => length (f a) = g a) l ->
  length (flat_map (fun a => x :: f a) l) = (length l + list_sum (map g l))%nat.
Proof.
  induction 1 as [| a l Ha _ IH]; simpl; [reflexivity |].
  rewrite length_app, IH, Ha. lia.
Qed.

Lemma EulerSubtree_length (t : Tree) :
  S (length (EulerSubtree t)) = (2 * length (Preorder t))%nat.
Proof.
  induction t as [i n cs IH] using Tree_induction.
  assert (E : length (flat_map (fun c => root_node (T i n cs) :: EulerSubtree c) cs)
              = (2 * length (flat_map Preorder cs))%nat).
  { clear -IH. generalize (root_node (T i n cs)) as x. intros x.
    induction IH as [| c cs Hc _ IHcs]; simpl; [reflexivity |].
    rewrite !length_app, IHcs. lia. }
  destruct cs as [| c cs]; [reflexivity |].
  change (EulerSubtree (T i n (c :: cs)))
    with (flat_map (fun c' => root_node (T i n (c :: cs)) :: EulerSubtree c') (c :: cs)
          ++ [root_node (T i n (c :: cs))]).
  rewrite length_app, E. simpl length at 2.
  change (Preorder (T i n (c :: cs)))
    with (root_node (T i n (c :: cs)) :: flat_map Preorder (c :: cs)).
  simpl length. lia.
Qed.

(** The tour of a tree with N nodes stands on 2N-2 nodes. *)
Lemma Eulertour_length (t : Tree) :
  Z.of_nat (length (Eulertour t)) = 2 * NodeCount t - 2.
Proof.
  unfold NodeCount. destruct t as [i n cs].
  assert (E : length (Eulertour (T i n cs))
              = (2 * length (flat_map Preorder cs))%nat).
  { unfold Eulertour. generalize (root_node (T i n cs)) as x. intros x.
    induction cs as [| c cs IHcs]; simpl; [reflexivity |].
    rewrite !length_app, IHcs.
    pose proof (EulerSubtree_length c). lia. }
  rewrite E.
  change (Preorder (T i n cs)) with (root_node (T i n cs) :: flat_map Preorder cs).
  simpl length. lia.
Qed.

(** For no tree does the number of collected ids agree with the length
    [4 * NodeCount - 5] handed to the RMQ structure. *)
Lemma euler_ids_length_differs (t : Tree) (ids : gmap nat Z) :
  Z.of_nat (length (collect_euler ids (Eulertour t)).1.1)
  <> size_t (4 * NodeCount t - 5).
Proof.
  rewrite collect_euler_length, Eulertour_length. unfold size_t.
  intros H.
  pose proof (Z.div_mod (4 * NodeCount t - 5) (2 ^ 64) ltac:(lia)) as D.
  rewrite <- H in D. lia.
Qed.

(** C5.  For the reference tree [((A,B),(C,D));], with 7 nodes, the Euler
    traversal collects 12 ids, and the length handed to the RMQ structure
    is 23. *)
Theorem euler_ids_shorter_than_announced :
  length (collect_euler (number_preorder (Preorder Examples.reference_tree)).1.1
                        (Eulertour Examples.reference_tree)).1.1 = 12%nat
  /\ NodeCount Examples.reference_tree = 7
  /\ size_t (4 * NodeCount Examples.reference_tree - 5) = 23.
Proof. vm_compute. repeat split; reflexivity. Qed.

(** *** The query loop *)

Section QueryLoop.

Variable query : list Z -> Z -> Z -> Z -> Z.
Variable euler_ids : list Z.
Variable n_rmq : Z.

(** The Euler array holds something, and the RMQ structure, asked about
    two of its indices, answers with one of its indices. *)
Hypothesis euler_ids_not_empty : euler_ids <> [].
Hypothesis query_in_range :
  forall i j, is_euler_index euler_ids i -> is_euler_index euler_ids j ->
              is_euler_index euler_ids (query euler_ids n_rmq i j).

Lemma map_index_in_range (m : gmap Z Z) (k : Z) :
  map_Forall (fun _ v => is_euler_index euler_ids v) m ->
  is_euler_index euler_ids (map_index m k).1
  /\ map_Forall (fun _ v => is_euler_index euler_ids v) (map_index m k).2.
Proof.
  intros Hm. unfold map_index. destruct (m !! k) as [v |] eqn:E; simpl.
  - split; [exact (Hm k v E) | exact Hm].
  - assert (H0 : is_euler_index euler_ids 0).
    { unfold is_euler_index. destruct euler_ids; [congruence | simpl; lia]. }
    split; [exact H0 |]. apply map_Forall_insert_2; assumption.
Qed.

(** One round: two reads of the vector, one query, one entry appended. *)
Lemma query_body_appends (i : Z) (s : LoopState) :
  0 <= i ->
  (Z.to_nat (i + 1) < length (preorder_ids s))%nat ->
  map_Forall (fun _ v => is_euler_index euler_ids v) (preorder_to_euler_map s) ->
  exists p m q,
    query_body query euler_ids n_rmq i s
    = Some (MkLoop (preorder_ids s ++ [(p, false)]) m (queries s ++ [q]))
    /\ map_Forall (fun _ v => is_euler_index euler_ids v) m.
Proof.
  intros Hi Hlen Hm. unfold query_body.
  destruct (lookup_lt_is_Some_2 (preorder_ids s) (Z.to_nat i) ltac:(lia)) as [x Hx].
  destruct (lookup_lt_is_Some_2 (preorder_ids s) (Z.to_nat (i + 1)) Hlen) as [y Hy].
  rewrite Hx, Hy.
  destruct (map_index_in_range (preorder_to_euler_map s) x.1 Hm) as [Hidx Hm1].
  destruct (map_index (preorder_to_euler_map s) x.1) as [euler_idx m1].
  destruct (map_index_in_range m1 y.1 Hm1) as [Hidy Hm2].
  destruct (map_index m1 y.1) as [euler_idy m2].
  simpl in Hidx, Hidy, Hm2.
  pose proof (query_in_range euler_idx euler_idy Hidx Hidy) as Hq.
  unfold is_euler_index in Hq.
  destruct (Z.ltb_spec (query euler_ids n_rmq euler_idx euler_idy) 0) as [? | _];
    [lia |].
  destruct (lookup_lt_is_Some_2 euler_ids
              (Z.to_nat (query euler_ids n_rmq euler_idx euler_idy)) ltac:(lia))
    as [p Hp].
  rewrite Hp. eauto.
Qed.

(** [n] rounds from index [i] on: [n] entries, all marked as ancestors, are
    appended after what the vector held, and [n] queries are sent. *)
Lemma query_loop_appends (n : nat) :
  forall (i : Z) (s : LoopState),
    0 <= i ->
    (Z.to_nat i + n < length (preorder_ids s) \/ n = 0)%nat ->
    map_Forall (fun _ v => is_euler_index euler_ids v) (preorder_to_euler_map s) ->
    exists s' ancestors,
      query_loop query euler_ids n_rmq n i s = Some s'
      /\ preorder_ids s' = preorder_ids s ++ ancestors
      /\ length ancestors = n
      /\ Forall (fun e => e.2 = false) ancestors
      /\ length (queries s') = (length (queries s) + n)%nat.
Proof.
  induction n as [| n IH]; intros i s Hi Hlen Hm.
  - exists s, []. simpl. rewrite app_nil_r. repeat split; [constructor | lia].
  - destruct Hlen as [Hlen | Hn]; [| discriminate].
    destruct (query_body_appends i s Hi ltac:(lia) Hm) as (p & m & q & Hbody & Hm').
    simpl. rewrite Hbody.
    destruct (IH (i + 1) (MkLoop (preorder_ids s ++ [(p, false)]) m (queries s ++ [q])))
      as (s' & anc & Hrun & Hids & Hanc & Hall & Hq).
    + lia.
    + left. simpl. rewrite length_app. simpl. lia.
    + exact Hm'.
    + exists s', ((p, false) :: anc). rewrite Hrun. simpl in Hids, Hq.
      rewrite length_app in Hq. simpl in Hq.
      repeat split.
      * rewrite Hids, <- app_assoc. reflexivity.
      * simpl. lia.
      * constructor; [reflexivity | exact Hall].
      * lia.
Qed.

(** C4.  Started on a vector of L >= 1 leaf entries (with 2L-1 within
    [size_t]) and a map whose values are indices of the Euler array, the
    query loop runs to its end, sends exactly L-1 queries to the RMQ
    structure and appends exactly one ancestor entry for each, after the
    leaf entries; the vector then holds 2L-1 entries and the assertion
    [preorder_ids.size() == 2*LeafCount - 1] holds. *)
Theorem query_loop_yields_2L_minus_1
    (leaves : list (Z * bool)) (first_index : gmap Z Z) :
  let L := Z.of_nat (length leaves) in
  1 <= L ->
  2 * L - 1 < 2 ^ 64 ->
  map_Forall (fun _ v => is_euler_index euler_ids v) first_index ->
  exists s ancestors,
    run_queries query euler_ids n_rmq L (MkLoop leaves first_index []) = Some s
    /\ Z.of_nat (length (queries s)) = L - 1
    /\ preorder_ids s = leaves ++ ancestors
    /\ Z.of_nat (length ancestors) = L - 1
    /\ Forall (fun e => e.2 = false) ancestors
    /\ Z.of_nat (length (preorder_ids s)) = 2 * L - 1
    /\ assertion L s = true.
Proof.
  intros L HL Hfit Hm. unfold run_queries.
  assert (Hbound : size_t (L - 1) = L - 1)
    by (unfold size_t; apply Z.mod_small; lia).
  rewrite Hbound.
  destruct (query_loop_appends (Z.to_nat (L - 1)) 0 (MkLoop leaves first_index []))
    as (s & anc & Hrun & Hids & Hanc & Hall & Hq).
  - lia.
  - left. simpl. subst L. lia.
  - exact Hm.
  - exists s, anc. simpl in Hids, Hq.
    assert (Hsize : Z.of_nat (length (preorder_ids s)) = 2 * L - 1)
      by (rewrite Hids, length_app; subst L; lia).
    repeat split; try assumption; try lia.
    unfold assertion, size_t. rewrite Z.mod_small by lia.
    apply Z.eqb_eq. exact Hsize.
Qed.

End QueryLoop.

(** *** The whole function *)

Lemma insert_sorted_length (x : Z * bool) (l : list (Z * bool)) :
  length (insert_sorted x l) = S (length l).
Proof.
  induction l as [| y l IH]; simpl; [reflexivity |].
  destruct (pair_ltb x y); simpl; [reflexivity | rewrite IH; reflexivity].
Qed.

Lemma sort_length (l : list (Z * bool)) : length (sort l) = length l.
Proof.
  unfold sort. induction l as [| x l IH]; simpl; [reflexivity |].
  rewrite insert_sorted_length, IH. reflexivity.
Qed.

(** The Euler loop maps every id to a position of the array it fills. *)
Lemma collect_euler_map_in_range (ids : gmap nat Z) (eulertour : list Node) :
  map_Forall (fun _ v => is_euler_index (collect_euler ids eulertour).1.1 v)
             (collect_euler ids eulertour).1.2.
Proof.
  unfold collect_euler.
  assert (G : forall l s,
             s.2 = Z.of_nat (length s.1.1) ->
             map_Forall (fun _ v => is_euler_index s.1.1 v) s.1.2 ->
             map_Forall (fun _ v => is_euler_index (fold_left (euler_step ids) l s).1.1 v)
                        (fold_left (euler_step ids) l s).1.2).
  { induction l as [| n l IH]; intros [[e m] c] Hc Hm; simpl in *; [exact Hm |].
    apply IH; simpl.
    - rewrite length_app. simpl. lia.
    - assert (Hold : map_Forall (fun _ v => is_euler_index (e ++ [default 0 (ids !! index_ n)]) v) m).
      { intros k v Hk. specialize (Hm k v Hk). unfold is_euler_index in *.
        rewrite length_app. simpl in *. lia. }
      destruct (m !! default 0 (ids !! index_ n)); [exact Hold |].
      apply map_Forall_insert_2; [| exact Hold].
      unfold is_euler_index. rewrite length_app. simpl. lia. }
  apply G; [reflexivity | apply map_Forall_empty].
Qed.

Lemma insert_sorted_elem (x y : Z * bool) (l : list (Z * bool)) :
  x ∈ insert_sorted y l <-> x = y \/ x ∈ l.
Proof.
  induction l as [| z l IH]; simpl.
  - rewrite list_elem_of_singleton. split; [auto | intros [H | H]; [exact H | inversion H]].
  - destruct (pair_ltb y z).
    + rewrite elem_of_cons. reflexivity.
    + rewrite !elem_of_cons, IH. tauto.
Qed.

Lemma sort_elem (x : Z * bool) (l : list (Z * bool)) : x ∈ sort l <-> x ∈ l.
Proof.
  unfold sort. induction l as [| y l IH]; simpl; [reflexivity |].
  rewrite insert_sorted_elem, elem_of_cons, IH. reflexivity.
Qed.

(** With a reference tree whose Euler tour is not empty, an RMQ structure
    that answers with indices of its array, and a small tree with L >= 1
    leaves, [SpiderpigFunction] reaches its end, through the assertion:
    its result is the sorted vector of the leaf entries and L-1 ancestor
    entries, and the map as the leaf loop left it. *)
Lemma SpiderpigFunction_runs
    (query : list Z -> Z -> Z -> Z -> Z)
    (reference_preorder reference_eulertour : list Node) (reference_NodeCount : Z)
    (small_preorder : list Node) :
  let L := Z.of_nat (length (filter (fun n => IsLeaf n = true) small_preorder)) in
  let collected :=
    collect_leaves (number_preorder reference_preorder).1.2 small_preorder in
  reference_eulertour <> [] ->
  (forall a n i j, is_euler_index a i -> is_euler_index a j ->
                   is_euler_index a (query a n i j)) ->
  1 <= L -> 2 * L - 1 < 2 ^ 64 ->
  exists ancestors,
    SpiderpigFunction query reference_preorder reference_eulertour reference_NodeCount
      small_preorder L
    = Some (sort (sort collected.1 ++ ancestors), collected.2)
    /\ Z.of_nat (length ancestors) = L - 1.
Proof.
  intros L collected Htour Hquery HL Hfit. subst collected. unfold SpiderpigFunction.
  destruct (number_preorder reference_preorder) as [[ids reference_map] c0].
  pose proof (collect_euler_length ids reference_eulertour) as Hlen.
  pose proof (collect_euler_map_in_range ids reference_eulertour) as Hmap.
  destruct (collect_euler ids reference_eulertour) as [[euler_ids first_index] c1].
  simpl in Hlen, Hmap. simpl.
  pose proof (collect_leaves_length reference_map small_preorder) as Hleaves.
  destruct (collect_leaves reference_map small_preorder) as [leaves reference_map'].
  simpl in Hleaves. simpl.
  assert (Hne : euler_ids <> []).
  { intros ->. destruct reference_eulertour; [congruence | discriminate]. }
  unfold run_queries.
  assert (Hbound : size_t (L - 1) = L - 1)
    by (unfold size_t; apply Z.mod_small; lia).
  rewrite Hbound.
  destruct (query_loop_appends query euler_ids
              (size_t (4 * reference_NodeCount - 5)) Hne
              (Hquery euler_ids (size_t (4 * reference_NodeCount - 5)))
              (Z.to_nat (L - 1)) 0 (MkLoop (sort leaves) first_index []))
    as (s & anc & Hrun & Hids & Hanc & _ & _).
  - lia.
  - left. simpl. rewrite sort_length, Hleaves. subst L. lia.
  - exact Hmap.
  - rewrite Hrun. simpl in Hids.
    assert (Hsize : Z.of_nat (length (preorder_ids s)) = 2 * L - 1).
    { rewrite Hids, length_app, sort_length, Hleaves. subst L. lia. }
    unfold assertion, size_t. rewrite Z.mod_small by lia.
    rewrite (proj2 (Z.eqb_eq _ _) Hsize), Hids.
    exists anc. split; [reflexivity | lia].
Qed.

(** C1 (as amended).  When a leaf of the small tree has a name that is
    absent from the reference map, [SpiderpigFunction] does not fail for it:
    (with a reference tree whose Euler tour is not empty and an RMQ
    structure that answers with indices of its array) it reaches its end,
    the lookup [reference_map[name]] has put the name into the map with the
    value 0, and the result holds the leaf with the preorder id 0. *)
Theorem absent_leaf_proceeds_with_default_id
    (query : list Z -> Z -> Z -> Z -> Z)
    (reference_preorder reference_eulertour : list Node) (reference_NodeCount : Z)
    (small_preorder : list Node) (n : Node) :
  let L := Z.of_nat (length (filter (fun n => IsLeaf n = true) small_preorder)) in
  reference_eulertour <> [] ->
  (forall a n i j, is_euler_index a i -> is_euler_index a j ->
                   is_euler_index a (query a n i j)) ->
  2 * L - 1 < 2 ^ 64 ->
  n ∈ small_preorder -> IsLeaf n = true ->
  (number_preorder reference_preorder).1.2 !! name n = None ->
  exists result reference_map,
    SpiderpigFunction query reference_preorder reference_eulertour reference_NodeCount
      small_preorder L = Some (result, reference_map)
    /\ (0, true) ∈ result
    /\ reference_map !! name n = Some 0.
Proof.
  intros L Htour Hquery Hfit Hin Hleaf Habsent.
  assert (HL : 1 <= L).
  { subst L.
    assert (Hn : n ∈ filter (fun n => IsLeaf n = true) small_preorder)
      by (apply list_elem_of_filter; split; assumption).
    destruct (filter (fun n => IsLeaf n = true) small_preorder);
      [inversion Hn | simpl; lia]. }
  destruct (SpiderpigFunction_runs query reference_preorder reference_eulertour
              reference_NodeCount small_preorder Htour Hquery HL Hfit)
    as (anc & Hrun & _).
  destruct (collect_leaves_absent _ small_preorder n Hin Hleaf Habsent) as [Hzero Hmap].
  eexists _, _. split; [exact Hrun |]. split; [| exact Hmap].
  apply sort_elem, elem_of_app. left. apply sort_elem. exact Hzero.
Qed.

(** The engine modelled from the words of the specification answers with
    an index between the two it is asked about. *)
Lemma argmin_from_range (a : list Z) (count : nat) :
  forall best k r,
    argmin_from a best k count = r ->
    r = best \/ (k <= r < k + count)%nat.
Proof.
  induction count as [| count IH]; intros best k r H; simpl in H.
  - left. congruence.
  - apply IH in H. destruct H as [H | H]; [| right; lia].
    destruct (default 0 (a !! k) <? default 0 (a !! best)); [right | left]; lia.
Qed.

Lemma RMQ_query_in_range (a : list Z) (n i j : Z) :
  is_euler_index a i -> is_euler_index a j -> is_euler_index a (RMQ_query a n i j).
Proof.
  unfold is_euler_index, RMQ_query. intros Hi Hj.
  destruct (argmin_from_range a (Z.to_nat (j - i)) (Z.to_nat i) (S (Z.to_nat i)) _ eq_refl)
    as [-> | H]; lia.
Qed.

(** The small tree [(A,X);] against the reference tree [((A,B),(C,D));]:
    the leaf [X] is not in the reference tree. *)
Lemma absent_leaf_proceeds_with_default_id_witness :
  exists result reference_map,
    SpiderpigFunction RMQ_query
      (Preorder Examples.reference_tree) (Eulertour Examples.reference_tree)
      (NodeCount Examples.reference_tree)
      (Preorder Examples.small_tree_AX) (LeafCount Examples.small_tree_AX)
    = Some (result, reference_map)
    /\ (0, true) ∈ result
    /\ reference_map !! "X" = Some 0.
Proof.
  apply (absent_leaf_proceeds_with_default_id RMQ_query
           (Preorder Examples.reference_tree) (Eulertour Examples.reference_tree)
           (NodeCount Examples.reference_tree)
           (Preorder Examples.small_tree_AX) (MkNode 2 "X" true)).
  - discriminate.
  - intros a n i j. apply RMQ_query_in_range.
  - vm_compute. reflexivity.
  - simpl. do 2 apply list_elem_of_further. apply list_elem_of_here.
  - reflexivity.
  - vm_compute. reflexivity.
Defined.

(** The loop on the two leaves [A] and [C] of the small tree [(A,C);], over
    the Euler array of the reference tree [((A,B),(C,D));] and the first
    positions of the ids 2 and 5 in it. *)
Lemma query_loop_yields_2L_minus_1_witness :
  exists s ancestors,
    run_queries RMQ_query [0; 1; 2; 1; 3; 1; 0; 4; 5; 4; 6; 4] 23 2
      (MkLoop [(2, true); (5, true)] {[ 2 := 2; 5 := 8 ]} []) = Some s
    /\ Z.of_nat (length (queries s)) = 2 - 1
    /\ preorder_ids s = [(2, true); (5, true)] ++ ancestors
    /\ Z.of_nat (length ancestors) = 2 - 1
    /\ Forall (fun e => e.2 = false) ancestors
    /\ Z.of_nat (length (preorder_ids s)) = 2 * 2 - 1
    /\ assertion 2 s = true.
Proof.
  apply (query_loop_yields_2L_minus_1 RMQ_query
           [0; 1; 2; 1; 3; 1; 0; 4; 5; 4; 6; 4] 23
           ltac:(discriminate)
           (RMQ_query_in_range [0; 1; 2; 1; 3; 1; 0; 4; 5; 4; 6; 4] 23)
           [(2, true); (5, true)] {[ 2 := 2; 5 := 8 ]}).
  - simpl. lia.
  - simpl. lia.
  - apply map_Forall_insert_2; [unfold is_euler_index; simpl; lia |].
    apply map_Forall_singleton. unfold is_euler_index. simpl. lia.
Defined.

(** What the loop computes there: one query, from position 2 to position
    8, whose answer is the position of the root, and one ancestor entry. *)
Example query_loop_on_the_example :
  run_queries RMQ_query [0; 1; 2; 1; 3; 1; 0; 4; 5; 4; 6; 4] 23 2
    (MkLoop [(2, true); (5, true)] {[ 2 := 2; 5 := 8 ]} [])
  = Some (MkLoop [(2, true); (5, true); (0, false)] {[ 2 := 2; 5 := 8 ]} [(2, 8)]).
Proof. vm_compute. reflexivity. Qed.

End PlausibilityFacts.

(* --------------------------------------------------------------------- *)
(** ** Lexer: the number scanner                                           *)
(* --------------------------------------------------------------------- *)

Section NumberFacts.
Import Lexer.
Local Open Scope nat_scope.

Lemma char_at_past_end (s : string) :
  forall n, String.length s <= n -> char_at s n = zero.
Proof.
  unfold char_at. induction s as [| c s IH]; intros n Hn; [reflexivity |].
  destruct n as [| n]; simpl in *; [lia |]. apply IH. lia.
Qed.

Lemma char_at_inside (s : string) (n : nat) :
  char_at s n <> zero -> n < String.length s.
Proof.
  intros H. destruct (Nat.lt_ge_cases n (String.length s)) as [Hlt | Hge];
    [exact Hlt | exfalso; apply H, char_at_past_end, Hge].
Qed.

Lemma set_itr_same (l : Lexer) : set_itr l (itr_ l) = l.
Proof. destruct l; reflexivity. Qed.

Lemma set_itr_set_itr (l : Lexer) (i j : nat) : set_itr (set_itr l i) j = set_itr l j.
Proof. reflexivity. Qed.

Lemma GetCharOff_next (l : Lexer) :
  GetCharOff l 1 = char_at (text_ l) (itr_ l + 1).
Proof. unfold GetCharOff. f_equal. lia. Qed.

Lemma CharIsSign_cases (c : ascii) :
  CharIsSign c = true -> c = "+"%char \/ c = "-"%char.
Proof.
  unfold CharIsSign. intros H. apply orb_true_iff in H.
  destruct H as [H | H]; apply Ascii.eqb_eq in H; auto.
Qed.

Lemma CharMatch_e_cases (c : ascii) :
  CharMatch c "e" = true -> c = "e"%char \/ c = "E"%char.
Proof.
  destruct c as [[] [] [] [] [] [] [] []]; vm_compute; intros H;
    try discriminate H; auto.
Qed.

Lemma digits_at_spec (s : string) (p d : nat) :
  digits_at s p d = true ->
  forall q, p <= q < p + d -> CharIsDigit (char_at s q) = true.
Proof.
  unfold digits_at. intros H q Hq.
  rewrite forallb_forall in H. apply H, in_seq. exact Hq.
Qed.

(** Over digits the loop of [ScanNumber] only advances. *)
Lemma number_loop_over_digits (d : nat) :
  forall n start l found_d found_e,
    itr_ l + d < len_ l ->
    (forall q, itr_ l <= q < itr_ l + d -> CharIsDigit (char_at (text_ l) q) = true) ->
    d <= n ->
    number_loop n start l found_d found_e
    = number_loop (n - d) start (set_itr l (itr_ l + d)) found_d found_e.
Proof.
  induction d as [| d IH]; intros n start l found_d found_e Hlen Hdigits Hn.
  - rewrite Nat.add_0_r, set_itr_same, Nat.sub_0_r. reflexivity.
  - destruct n as [| n]; [lia |]. simpl number_loop.
    assert (Hend : IsEnd l = false) by (unfold IsEnd; apply Nat.leb_gt; lia).
    rewrite Hend. unfold GetChar at 1. rewrite (Hdigits (itr_ l)) by lia.
    rewrite (IH n start (NextChar l) found_d found_e).
    + unfold NextChar. rewrite set_itr_set_itr. simpl itr_.
      replace (S (itr_ l) + d) with (itr_ l + S d) by lia. reflexivity.
    + unfold NextChar, len_ in *. simpl. lia.
    + intros q Hq. unfold NextChar in *. simpl in *. apply Hdigits. lia.
    + lia.
Qed.

(** C6 (as amended).  Started on a lone sign (a sign that no digit
    follows), [ScanNumber] pushes an error token.  Started on digits that
    end in a dot which no digit follows, or in an [e] which neither a digit
    nor a sign follows, it stops in front of the dot or the [e] and pushes a
    number token that holds the digits. *)
Theorem ScanNumber_on_malformed (l : Lexer) :
  (CharIsSign (GetChar l) = true ->
   CharIsDigit (char_at (text_ l) (itr_ l + 1)) = false ->
   ScanNumber l = (false, PushToken kError (itr_ l) "Malformed number." l))
  /\ (forall d,
        0 < d -> digits_at (text_ l) (itr_ l) d = true ->
        char_at (text_ l) (itr_ l + d) = "."%char ->
        CharIsDigit (char_at (text_ l) (itr_ l + d + 1)) = false ->
        ScanNumber l
        = (true, PushToken kNumber (itr_ l) (String.substring (itr_ l) d (text_ l))
                   (set_itr l (itr_ l + d))))
  /\ (forall d,
        0 < d -> digits_at (text_ l) (itr_ l) d = true ->
        CharMatch (char_at (text_ l) (itr_ l + d)) "e" = true ->
        CharIsDigit (char_at (text_ l) (itr_ l + d + 1)) = false ->
        CharIsSign (char_at (text_ l) (itr_ l + d + 1)) = false ->
        ScanNumber l
        = (true, PushToken kNumber (itr_ l) (String.substring (itr_ l) d (text_ l))
                   (set_itr l (itr_ l + d)))).
Proof.
  split; [| split].
  - intros Hsign Hnext.
    assert (Hin : itr_ l < len_ l).
    { apply char_at_inside. fold (GetChar l).
      destruct (CharIsSign_cases _ Hsign) as [-> | ->]; discriminate. }
    unfold ScanNumber.
    destruct (len_ l - itr_ l) as [| n] eqn:En; [lia |].
    simpl number_loop.
    assert (Hend : IsEnd l = false) by (unfold IsEnd; apply Nat.leb_gt; lia).
    rewrite Hend, GetCharOff_next, Hnext.
    destruct (CharIsSign_cases _ Hsign) as [Hc | Hc]; rewrite Hc; simpl;
      unfold GetPosition; rewrite Nat.eqb_refl, andb_false_r; reflexivity.
  - intros d Hd Hdigits Hdot Hnext.
    assert (Hin : itr_ l + d < len_ l).
    { apply char_at_inside. rewrite Hdot. discriminate. }
    unfold ScanNumber, GetPosition.
    rewrite (number_loop_over_digits d) by
      (try apply (digits_at_spec _ _ _ Hdigits); lia).
    destruct (len_ l - itr_ l - d) as [| n] eqn:En; [lia |].
    set (l1 := set_itr l (itr_ l + d)).
    assert (Hend : IsEnd l1 = false)
      by (unfold IsEnd, len_, l1; simpl; apply Nat.leb_gt; unfold len_ in Hin; lia).
    assert (HG : GetChar l1 = "."%char) by exact Hdot.
    assert (HN : CharIsDigit (GetCharOff l1 1) = false)
      by (rewrite GetCharOff_next; exact Hnext).
    simpl number_loop. rewrite Hend, HG, HN. simpl.
    rewrite orb_true_r.
    unfold PushTokenRange, GetSubstr, GetPosition, l1. simpl text_. simpl itr_.
    replace (itr_ l + d - itr_ l) with d by lia. reflexivity.
  - intros d Hd Hdigits He Hnext Hnosign.
    assert (Hin : itr_ l + d < len_ l).
    { apply char_at_inside.
      destruct (CharMatch_e_cases _ He) as [-> | ->]; discriminate. }
    unfold ScanNumber, GetPosition.
    rewrite (number_loop_over_digits d) by
      (try apply (digits_at_spec _ _ _ Hdigits); lia).
    destruct (len_ l - itr_ l - d) as [| n] eqn:En; [lia |].
    set (l1 := set_itr l (itr_ l + d)).
    assert (Hend : IsEnd l1 = false)
      by (unfold IsEnd, len_, l1; simpl; apply Nat.leb_gt; unfold len_ in Hin; lia).
    assert (HG : GetChar l1 = char_at (text_ l) (itr_ l + d)) by reflexivity.
    assert (HN : CharIsDigit (GetCharOff l1 1) = false)
      by (rewrite GetCharOff_next; exact Hnext).
    assert (HS : CharIsSign (GetCharOff l1 1) = false)
      by (rewrite GetCharOff_next; exact Hnosign).
    assert (Hne : (itr_ l + d =? itr_ l) = false) by (apply Nat.eqb_neq; lia).
    assert (Hnd : CharIsDigit (GetChar l1) = false)
      by (rewrite HG; destruct (CharMatch_e_cases _ He) as [-> | ->]; reflexivity).
    assert (Hndot : Ascii.eqb (GetChar l1) "." = false)
      by (rewrite HG; destruct (CharMatch_e_cases _ He) as [-> | ->]; reflexivity).
    assert (HM : CharMatch (GetChar l1) "e" = true) by (rewrite HG; exact He).
    simpl number_loop. rewrite Hend, Hnd, Hndot, HM, HN, HS, Hne. simpl.
    rewrite !orb_true_r.
    unfold PushTokenRange, GetSubstr, GetPosition, l1. simpl text_. simpl itr_.
    replace (itr_ l + d - itr_ l) with d by lia. reflexivity.
Qed.

End NumberFacts.

(** The three cases on the texts [+x], [12.] and [12e]. *)
Lemma ScanNumber_on_malformed_witness :
  Lexer.ScanNumber (Lexer.Init "+x" Examples.lexer)
  = (false, Lexer.PushToken Lexer.kError 0 "Malformed number."
              (Lexer.Init "+x" Examples.lexer))
  /\ Lexer.ScanNumber (Lexer.Init "12." Examples.lexer)
     = (true, Lexer.PushToken Lexer.kNumber 0 "12"
                (Lexer.set_itr (Lexer.Init "12." Examples.lexer) 2))
  /\ Lexer.ScanNumber (Lexer.Init "12e" Examples.lexer)
     = (true, Lexer.PushToken Lexer.kNumber 0 "12"
                (Lexer.set_itr (Lexer.Init "12e" Examples.lexer) 2)).
Proof.
  split; [| split].
  - destruct (ScanNumber_on_malformed (Lexer.Init "+x" Examples.lexer)) as (H & _ & _).
    apply H; reflexivity.
  - destruct (ScanNumber_on_malformed (Lexer.Init "12." Examples.lexer)) as (_ & H & _).
    apply (H 2%nat); [lia | reflexivity | reflexivity | reflexivity].
  - destruct (ScanNumber_on_malformed (Lexer.Init "12e" Examples.lexer)) as (_ & _ & H).
    apply (H 2%nat); [lia | reflexivity | reflexivity | reflexivity | reflexivity].
Defined.

(** C6 (as stated) fails.  On [12.], digits that end in a dangling dot, and
    on [12e], digits that end in a dangling exponent, [ScanNumber] returns
    true and the one token it pushes is the number token [12], not an error
    token. *)
Lemma ScanNumber_dangling_dot_is_a_number :
  (Lexer.ScanNumber (Lexer.Init "12." Examples.lexer)).1 = true
  /\ Lexer.tokens_ (Lexer.ScanNumber (Lexer.Init "12." Examples.lexer)).2
     = [Lexer.Token Lexer.kNumber 0 "12"]
  /\ (Lexer.ScanNumber (Lexer.Init "12e" Examples.lexer)).1 = true
  /\ Lexer.tokens_ (Lexer.ScanNumber (Lexer.Init "12e" Examples.lexer)).2
     = [Lexer.Token Lexer.kNumber 0 "12"].
Proof. repeat split; reflexivity. Qed.

(* --------------------------------------------------------------------- *)
(** ** Lexer: error tokens                                                 *)
(* --------------------------------------------------------------------- *)

Section ErrorTokenFacts.
Import Lexer.
Local Open Scope nat_scope.

Variable StringDeescape : string -> string.
Variable StringReplaceAll : string -> string -> string -> string.

Local Abbreviation ScanString := (ScanString StringDeescape StringReplaceAll).
Local Abbreviation ProcessStep := (ProcessStep StringDeescape StringReplaceAll).
Local Abbreviation process_loop := (process_loop StringDeescape StringReplaceAll).
Local Abbreviation ProcessString := (ProcessString StringDeescape StringReplaceAll).
Local Abbreviation step_again := (step_again StringDeescape StringReplaceAll).
Local Abbreviation ProcessStepwise := (ProcessStepwise StringDeescape StringReplaceAll).

(** *** The loops of the scanners leave the tokens alone *)

Lemma scan_type_loop_tokens (n : nat) (t : LexerTokenType) :
  forall l, tokens_ (scan_type_loop n t l) = tokens_ l.
Proof.
  induction n as [| n IH]; intros l; simpl; [reflexivity |].
  destruct (negb (IsEnd l) && type_eqb (GetCharType l) t); [| reflexivity].
  rewrite IH. reflexivity.
Qed.

Lemma whitespace_loop_tokens (n : nat) :
  forall l found, tokens_ (whitespace_loop n l found).1 = tokens_ l.
Proof.
  induction n as [| n IH]; intros l found; simpl; [reflexivity |].
  destruct (negb (IsEnd l) && type_eqb (GetCharType l) kWhite); [| reflexivity].
  rewrite IH. reflexivity.
Qed.

Lemma number_loop_tokens (n : nat) (start : nat) :
  forall l found_d found_e,
    tokens_ (number_loop n start l found_d found_e).1 = tokens_ l.
Proof.
  induction n as [| n IH]; intros l found_d found_e; simpl; [reflexivity |].
  repeat case_match; try reflexivity; rewrite IH; reflexivity.
Qed.

Lemma string_loop_tokens (n : nat) (qmark : ascii) :
  forall l jump found_e found_q,
    tokens_ (string_loop n qmark l jump found_e found_q).1 = tokens_ l.
Proof.
  induction n as [| n IH]; intros l jump found_e found_q; simpl; [reflexivity |].
  repeat case_match; try reflexivity; rewrite IH; reflexivity.
Qed.

(** *** The bounds of the loops are enough

    Each loop is run for [len_ - itr_] rounds; a longer run gives the same
    result, so the bound never cuts a loop short. *)

Lemma scan_type_loop_bound (t : LexerTokenType) (n : nat) :
  forall l, len_ l - itr_ l <= n ->
            scan_type_loop n t l = scan_type_loop (len_ l - itr_ l) t l.
Proof.
  induction n as [| n IH]; intros l Hn.
  - replace (len_ l - itr_ l) with 0 by lia. reflexivity.
  - destruct (len_ l - itr_ l) as [| m] eqn:Em; simpl.
    + assert (Hend : IsEnd l = true) by (unfold IsEnd; apply Nat.leb_le; lia).
      rewrite Hend. reflexivity.
    + destruct (negb (IsEnd l) && type_eqb (GetCharType l) t); [| reflexivity].
      rewrite IH by (unfold NextChar, len_ in *; simpl; lia).
      f_equal. unfold NextChar, len_ in *. simpl. lia.
Qed.

Lemma number_loop_bound (start : nat) (n : nat) :
  forall l found_d found_e,
    len_ l - itr_ l <= n ->
    number_loop n start l found_d found_e
    = number_loop (len_ l - itr_ l) start l found_d found_e.
Proof.
  induction n as [| n IH]; intros l found_d found_e Hn.
  - replace (len_ l - itr_ l) with 0 by lia. reflexivity.
  - destruct (len_ l - itr_ l) as [| m] eqn:Em; simpl.
    + assert (Hend : IsEnd l = true) by (unfold IsEnd; apply Nat.leb_le; lia).
      rewrite Hend. reflexivity.
    + assert (Hm : len_ (NextChar l) - itr_ (NextChar l) = m)
        by (unfold NextChar, len_ in *; simpl; lia).
      repeat case_match; try reflexivity;
        rewrite IH by lia; rewrite Hm; reflexivity.
Qed.

Lemma string_loop_bound (qmark : ascii) (n : nat) :
  forall l jump found_e found_q,
    len_ l - itr_ l <= n ->
    string_loop n qmark l jump found_e found_q
    = string_loop (len_ l - itr_ l) qmark l jump found_e found_q.
Proof.
  induction n as [n IH] using lt_wf_ind. intros l jump found_e found_q Hn.
  destruct n as [| n].
  - replace (len_ l - itr_ l) with 0 by lia. reflexivity.
  - destruct (len_ l - itr_ l) as [| m] eqn:Em; simpl.
    + assert (Hend : IsEnd l = true) by (unfold IsEnd; apply Nat.leb_le; lia).
      rewrite Hend. reflexivity.
    + assert (H1 : len_ (NextChar l) - itr_ (NextChar l) = m)
        by (unfold NextChar, len_ in *; simpl; lia).
      assert (H2 : len_ (NextChar (NextChar l)) - itr_ (NextChar (NextChar l)) <= m)
        by (unfold NextChar, len_ in *; simpl; lia).
      repeat case_match; try reflexivity.
      * rewrite (IH n) by lia. rewrite (IH m) by lia. reflexivity.
      * rewrite (IH n) by lia. rewrite (IH m) by lia. reflexivity.
      * rewrite (IH n) by lia. rewrite H1. reflexivity.
Qed.

(** *** What a scanner appends *)

Lemma appends_nothing (l l' : Lexer) :
  tokens_ l' = tokens_ l -> appends l l' [].
Proof. unfold appends. intros ->. rewrite app_nil_r. reflexivity. Qed.

Lemma appends_PushToken (l l' : Lexer) (t : LexerTokenType) (p : nat) (v : string) :
  tokens_ l' = tokens_ l -> appends l (PushToken t p v l') [Token t p v].
Proof. unfold appends. simpl. intros ->. reflexivity. Qed.

Lemma ScanWhitespace_appends (l : Lexer) :
  exists new, appends l (ScanWhitespace l).2 new /\ error_free new.
Proof.
  unfold ScanWhitespace.
  pose proof (whitespace_loop_tokens (len_ l - itr_ l) l false) as Ht.
  destruct (whitespace_loop (len_ l - itr_ l) l false) as [l1 found].
  simpl in Ht.
  destruct (include_whitespace l1 && found).
  - eexists. split; [apply appends_PushToken, Ht |].
    repeat constructor.
  - exists []. split; [apply appends_nothing, Ht | constructor].
Qed.

(** Each of the scanners of the switch appends at most one token. *)

Lemma at_most_one_nothing (l l' : Lexer) :
  tokens_ l' = tokens_ l -> at_most_one l l'.
Proof. intros H. exists []. split; [apply appends_nothing, H | simpl; lia]. Qed.

Lemma at_most_one_PushToken (l l' : Lexer) (t : LexerTokenType) (p : nat) (v : string) :
  tokens_ l' = tokens_ l -> at_most_one l (PushToken t p v l').
Proof. intros H. eexists. split; [apply appends_PushToken, H | simpl; lia]. Qed.

Lemma ScanSymbol_at_most_one (l : Lexer) : at_most_one l (ScanSymbol l).2.
Proof. apply at_most_one_PushToken, scan_type_loop_tokens. Qed.

Lemma ScanUnknown_at_most_one (l : Lexer) : at_most_one l (ScanUnknown l).2.
Proof. apply at_most_one_PushToken, scan_type_loop_tokens. Qed.

Lemma ScanNumber_at_most_one (l : Lexer) : at_most_one l (ScanNumber l).2.
Proof.
  unfold ScanNumber.
  pose proof (number_loop_tokens (len_ l - itr_ l) (GetPosition l) l false false) as Ht.
  destruct (number_loop (len_ l - itr_ l) (GetPosition l) l false false) as [l1 err].
  simpl in Ht.
  destruct err; apply at_most_one_PushToken, Ht.
Qed.

Lemma ScanString_at_most_one (l : Lexer) : at_most_one l (ScanString l).2.
Proof.
  unfold Lexer.ScanString.
  destruct (IsEnd (NextChar l)); [apply at_most_one_PushToken; reflexivity |].
  pose proof (string_loop_tokens
                (len_ (NextChar l) - itr_ (NextChar l)) (GetChar l) (NextChar l)
                false false false) as Ht.
  destruct (string_loop (len_ (NextChar l) - itr_ (NextChar l)) (GetChar l)
              (NextChar l) false false false) as [l1 [[jump found_e] found_q]].
  simpl in Ht.
  destruct (jump || IsEnd l1 && negb (Ascii.eqb (GetCharOff l1 (-1)) (GetChar l)));
    apply at_most_one_PushToken, Ht.
Qed.

Lemma ScanBracket_at_most_one (l : Lexer) : at_most_one l (ScanBracket l).2.
Proof.
  unfold ScanBracket. simpl.
  eexists. split; [unfold appends; simpl; reflexivity | simpl; lia].
Qed.

Lemma ScanTag_at_most_one (l : Lexer) : at_most_one l (ScanTag l).2.
Proof. apply at_most_one_nothing. reflexivity. Qed.

(** [ScanFromTo] only moves the position. *)
Lemma advance_tokens (n : nat) : forall l, tokens_ (advance n l) = tokens_ l.
Proof.
  induction n as [| n IH]; intros l; simpl; [reflexivity |].
  rewrite IH. reflexivity.
Qed.

Lemma find_loop_tokens (n : nat) (to : string) :
  forall l, tokens_ (find_loop n to l) = tokens_ l.
Proof.
  induction n as [| n IH]; intros l; simpl; [reflexivity |].
  destruct (negb (IsEnd l) && negb (at_cursor l to)); [| reflexivity].
  rewrite IH. reflexivity.
Qed.

Lemma ScanFromTo_tokens (from to : string) (l : Lexer) :
  tokens_ (ScanFromTo from to l).2 = tokens_ l.
Proof.
  unfold ScanFromTo.
  destruct (IsEnd l || negb (at_cursor l from)); [reflexivity |].
  destruct (IsEnd _); simpl;
    rewrite ?advance_tokens, find_loop_tokens, advance_tokens; reflexivity.
Qed.

(** The scanners of [NewickLexer]. *)
Lemma NewickLexer_ScanNumber_at_most_one (l : Lexer) (r : bool * Lexer) :
  NewickLexer_ScanNumber l = Some r -> at_most_one l r.2.
Proof.
  unfold NewickLexer_ScanNumber.
  destruct (Ascii.eqb (GetChar l) ":"); [| discriminate].
  intros [= <-].
  destruct (ScanNumber_at_most_one (NextChar l)) as (new & Happ & Hlen).
  exists new. split; [exact Happ | exact Hlen].
Qed.

Lemma NewickLexer_ScanTag_at_most_one (l : Lexer) (r : bool * Lexer) :
  NewickLexer_ScanTag l = Some r -> at_most_one l r.2.
Proof.
  unfold NewickLexer_ScanTag.
  destruct (Ascii.eqb (GetChar l) "}").
  { intros [= <-]. apply at_most_one_PushToken. reflexivity. }
  destruct (negb (Ascii.eqb (GetChar l) "{")); [discriminate |].
  pose proof (ScanFromTo_tokens "{" "}" l) as Ht.
  destruct (ScanFromTo "{" "}" l) as [found l1]. simpl in Ht.
  destruct (negb found).
  { intros [= <-]. apply at_most_one_PushToken, Ht. }
  destruct (include_tags l1); intros [= <-].
  - apply at_most_one_PushToken, Ht.
  - apply at_most_one_nothing, Ht.
Qed.

(** The calls through the object. *)
Lemma virtual_ScanNumber_at_most_one (l : Lexer) (r : bool * Lexer) :
  virtual_ScanNumber l = Some r -> at_most_one l r.2.
Proof.
  unfold virtual_ScanNumber. destruct (class_ l).
  - intros [= <-]. apply ScanNumber_at_most_one.
  - apply NewickLexer_ScanNumber_at_most_one.
Qed.

Lemma virtual_ScanTag_at_most_one (l : Lexer) (r : bool * Lexer) :
  virtual_ScanTag l = Some r -> at_most_one l r.2.
Proof.
  unfold virtual_ScanTag. destruct (class_ l).
  - intros [= <-]. apply ScanTag_at_most_one.
  - apply NewickLexer_ScanTag_at_most_one.
Qed.

Lemma ScanOperator_at_most_one (l : Lexer) (r : bool * Lexer) :
  ScanOperator l = Some r -> at_most_one l r.2.
Proof.
  unfold ScanOperator.
  destruct (CharIsSign (GetChar l) && glue_sign_to_number l && negb (IsEndOff l 1)
            && CharIsDigit (GetCharOff l 1)).
  - apply virtual_ScanNumber_at_most_one.
  - intros [= <-]. simpl.
    eexists. split; [unfold appends; simpl; reflexivity | simpl; lia].
Qed.

(** A comment scanner appends at most one token, and no error token when
    it returns true. *)
Lemma virtual_ScanComment_appends (l : Lexer) :
  exists new,
    appends l (virtual_ScanComment l).2 new /\ length new <= 1
    /\ ((virtual_ScanComment l).1 = true -> error_free new).
Proof.
  unfold virtual_ScanComment. destruct (class_ l).
  - exists []. split; [apply appends_nothing; reflexivity |].
    split; [simpl; lia | constructor].
  - unfold NewickLexer_ScanComment.
    destruct (Ascii.eqb (GetChar l) "]").
    { eexists. split; [apply appends_PushToken; reflexivity |].
      split; [simpl; lia | discriminate]. }
    pose proof (ScanFromTo_tokens "[" "]" l) as Ht.
    destruct (ScanFromTo "[" "]" l) as [found l1]. simpl in Ht.
    destruct (negb found && Ascii.eqb (GetChar l1) "[").
    { eexists. split; [apply appends_PushToken, Ht |].
      split; [simpl; lia | discriminate]. }
    destruct (found && include_comments l1).
    + eexists. split; [apply appends_PushToken, Ht |].
      split; [simpl; lia |]. intros _. repeat constructor.
    + exists []. split; [apply appends_nothing, Ht |].
      split; [simpl; lia | constructor].
Qed.

(** *** The bound of the loop over whitespace and comments

    A scanner of that loop that returns true has moved the position
    forward in the same text, so [len_ - itr_ + 1] rounds are enough. *)

Lemma whitespace_loop_moves (n : nat) :
  forall l found,
    let r := whitespace_loop n l found in
    text_ r.1 = text_ l /\ itr_ l <= itr_ r.1
    /\ (found = false -> r.2 = true -> itr_ l < itr_ r.1 /\ itr_ l < len_ l).
Proof.
  induction n as [| n IH]; intros l found; simpl.
  - repeat split; [lia | congruence | congruence].
  - destruct (IsEnd l) eqn:Eend; simpl;
      [repeat split; [lia | congruence | congruence] |].
    destruct (type_eqb (GetCharType l) kWhite); simpl;
      [| repeat split; [lia | congruence | congruence]].
    destruct (IH (NextChar l) true) as (Ht & Hi & _).
    unfold NextChar in *. simpl in *.
    apply Nat.leb_gt in Eend.
    repeat split; [exact Ht | lia | lia | exact Eend].
Qed.

Lemma ScanWhitespace_moves (l l1 : Lexer) :
  ScanWhitespace l = (true, l1) ->
  text_ l1 = text_ l /\ itr_ l < itr_ l1 /\ itr_ l < len_ l.
Proof.
  unfold ScanWhitespace.
  pose proof (whitespace_loop_moves (len_ l - itr_ l) l false) as H.
  destruct (whitespace_loop (len_ l - itr_ l) l false) as [l' found].
  simpl in H. destruct H as (Ht & _ & Hfound).
  destruct (include_whitespace l' && found); intros [= -> <-];
    destruct (Hfound eq_refl eq_refl); auto.
Qed.

Lemma advance_moves (n : nat) :
  forall l, text_ (advance n l) = text_ l /\ itr_ (advance n l) = itr_ l + n.
Proof.
  induction n as [| n IH]; intros l; simpl; [split; [reflexivity | lia] |].
  destruct (IH (NextChar l)) as [Ht Hi]. rewrite Ht, Hi. simpl. split; [reflexivity | lia].
Qed.

Lemma find_loop_moves (n : nat) (to : string) :
  forall l, text_ (find_loop n to l) = text_ l /\ itr_ l <= itr_ (find_loop n to l).
Proof.
  induction n as [| n IH]; intros l; simpl; [split; [reflexivity | lia] |].
  destruct (negb (IsEnd l) && negb (at_cursor l to)); [| split; [reflexivity | lia]].
  destruct (IH (NextChar l)) as [Ht Hi]. simpl in *. split; [exact Ht | lia].
Qed.

Lemma ScanFromTo_moves (from to : string) (l l1 : Lexer) :
  ScanFromTo from to l = (true, l1) ->
  text_ l1 = text_ l /\ itr_ l + String.length from <= itr_ l1 /\ itr_ l < len_ l.
Proof.
  unfold ScanFromTo.
  destruct (IsEnd l) eqn:Eend; cbn [orb]; [discriminate |].
  destruct (negb (at_cursor l from)); [discriminate |]. cbv zeta.
  destruct (advance_moves (String.length from) l) as [Ht1 Hi1].
  set (l' := advance (String.length from) l) in *.
  destruct (find_loop_moves (len_ l' - itr_ l') to l') as [Ht2 Hi2].
  set (l'' := find_loop (len_ l' - itr_ l') to l') in *.
  destruct (advance_moves (String.length to) l'') as [Ht3 Hi3].
  destruct (IsEnd l''); [discriminate |]. intros [= <-].
  apply Nat.leb_gt in Eend.
  split; [congruence |]. split; [lia | exact Eend].
Qed.

Lemma virtual_ScanComment_moves (l l1 : Lexer) :
  virtual_ScanComment l = (true, l1) ->
  text_ l1 = text_ l /\ itr_ l < itr_ l1 /\ itr_ l < len_ l.
Proof.
  unfold virtual_ScanComment. destruct (class_ l); [discriminate |].
  unfold NewickLexer_ScanComment.
  destruct (Ascii.eqb (GetChar l) "]"); [discriminate |].
  pose proof (ScanFromTo_moves "[" "]" l) as H.
  destruct (ScanFromTo "[" "]" l) as [found l'].
  destruct found; simpl.
  - destruct (H l' eq_refl) as (Ht & Hi & Hlen). simpl in Hi.
    destruct (include_comments l'); intros [= <-]; simpl; repeat split; auto; lia.
  - destruct (Ascii.eqb (GetChar l') "["); discriminate.
Qed.

Lemma skip_loop_bound (n : nat) :
  forall l, len_ l - itr_ l < n ->
            skip_loop n l = skip_loop (S (len_ l - itr_ l)) l.
Proof.
  induction n as [n IH] using lt_wf_ind. intros l Hn.
  destruct n as [| n]; [lia |]. simpl.
  destruct (ScanWhitespace l) as [w l1] eqn:Ew.
  destruct w.
  - destruct (ScanWhitespace_moves l l1 Ew) as (Ht & Hi & Hlen).
    assert (Hlen1 : len_ l1 = len_ l) by (unfold len_; rewrite Ht; reflexivity).
    rewrite (IH n) by lia. rewrite (IH (len_ l - itr_ l)) by lia. reflexivity.
  - destruct (virtual_ScanComment l1) as [c l2] eqn:Ec.
    destruct c; [| reflexivity].
    destruct (virtual_ScanComment_moves l1 l2 Ec) as (Ht & Hi & Hlen).
    assert (Hlen2 : len_ l2 = len_ l1) by (unfold len_; rewrite Ht; reflexivity).
    assert (Hsame : text_ l1 = text_ l /\ itr_ l <= itr_ l1).
    { unfold ScanWhitespace in Ew.
      pose proof (whitespace_loop_moves (len_ l - itr_ l) l false) as H.
      destruct (whitespace_loop (len_ l - itr_ l) l false) as [l' found].
      simpl in H. destruct H as (Ht' & Hi' & _).
      destruct (include_whitespace l' && found); injection Ew as _ <-; auto. }
    destruct Hsame as [Ht1 Hi1].
    assert (Hlen1 : len_ l1 = len_ l) by (unfold len_; rewrite Ht1; reflexivity).
    rewrite (IH n) by lia. rewrite (IH (len_ l - itr_ l)) by lia. reflexivity.
Qed.

(** *** One call of [ProcessStep] *)

Lemma back_IsError_snoc (ts : list LexerToken) (t : LexerToken) :
  back_IsError (ts ++ [t]) = IsError t.
Proof. unfold back_IsError. rewrite last_snoc. reflexivity. Qed.

Lemma error_free_clean_but_last (ts : list LexerToken) :
  error_free ts -> clean_but_last ts.
Proof.
  intros H. exists ts, []. rewrite app_nil_r. repeat split; [exact H | simpl; lia].
Qed.

(** After a scanner that appends at most one token: an error token can
    only be the last one, and there is none when the last token is not an
    error token. *)
Lemma scanned_tokens (l l' : Lexer) :
  error_free (tokens_ l) -> at_most_one l l' ->
  clean_but_last (tokens_ l')
  /\ (back_IsError (tokens_ l') = false -> error_free (tokens_ l')).
Proof.
  intros Hfree (new & Happ & Hlen). unfold appends in Happ. rewrite Happ.
  split; [exists (tokens_ l), new; auto |].
  destruct new as [| t [| t' new]]; [| | simpl in Hlen; lia].
  - rewrite app_nil_r. intros _. exact Hfree.
  - rewrite back_IsError_snoc. intros H.
    apply Forall_app. split; [exact Hfree |]. constructor; [exact H | constructor].
Qed.

(** The loop over whitespace and comments: it goes on only while no error
    token was appended. *)
Lemma skip_loop_tokens (n : nat) :
  forall l,
    error_free (tokens_ l) ->
    clean_but_last (tokens_ (skip_loop n l))
    /\ (back_IsError (tokens_ (skip_loop n l)) = false ->
        error_free (tokens_ (skip_loop n l))).
Proof.
  induction n as [| n IH]; intros l Hfree; simpl.
  - split; [apply error_free_clean_but_last, Hfree | intros _; exact Hfree].
  - destruct (ScanWhitespace_appends l) as (new1 & H1 & Hfree1).
    destruct (ScanWhitespace l) as [w l1]. simpl in H1.
    assert (Hl1 : error_free (tokens_ l1)).
    { unfold appends in H1. rewrite H1. apply Forall_app. split; assumption. }
    destruct w; [apply IH, Hl1 |].
    destruct (virtual_ScanComment_appends l1) as (new2 & H2 & Hlen2 & Htrue2).
    destruct (virtual_ScanComment l1) as [c l2]. simpl in H2, Htrue2.
    destruct c.
    + apply IH. unfold appends in H2. rewrite H2.
      apply Forall_app. split; [exact Hl1 | apply Htrue2; reflexivity].
    + apply (scanned_tokens l1 l2 Hl1). exists new2. split; assumption.
Qed.

Lemma ProcessStep_tokens (l : Lexer) :
  error_free (tokens_ l) ->
  clean_but_last (tokens_ (lexer_of (ProcessStep l)))
  /\ (forall l', ProcessStep l = Returned true l' -> error_free (tokens_ l')).
Proof.
  intros Hfree. unfold Lexer.ProcessStep. cbv zeta.
  destruct (IsEnd l);
    [split; [apply error_free_clean_but_last, Hfree | discriminate] |].
  destruct (skip_loop_tokens (S (len_ l - itr_ l)) l Hfree) as [Hclean1 Hback1].
  set (l1 := skip_loop (S (len_ l - itr_ l)) l) in *.
  clearbody l1.
  destruct (back_IsError (tokens_ l1)) eqn:Eback.
  { destruct (tokens_empty (tokens_ l1)) eqn:Eempty; simpl.
    - destruct (tokens_ l1); [discriminate Eback | discriminate Eempty].
    - split; [exact Hclean1 | discriminate]. }
  assert (Hfree1 : error_free (tokens_ l1)) by (apply Hback1; reflexivity).
  rewrite andb_false_r.
  destruct (IsEnd l1);
    [split; [apply error_free_clean_but_last, Hfree1 | discriminate] |].
  destruct (type_eqb (GetCharType l1) kError).
  { split; [| discriminate]. simpl.
    eexists (tokens_ l1), [_]. repeat split; [exact Hfree1 | simpl; lia]. }
  assert (Hstop : clean_but_last (tokens_ (lexer_of (AssertionFailed l1)))
                  /\ (forall l', AssertionFailed l1 = Returned true l' ->
                                 error_free (tokens_ l')))
    by (split; [apply error_free_clean_but_last, Hfree1 | discriminate]).
  assert (Hfinish : forall l',
             at_most_one l1 l' ->
             clean_but_last
               (tokens_ (lexer_of
                  (if tokens_empty (tokens_ l') || back_IsError (tokens_ l')
                   then Returned false l' else Returned true l')))
             /\ (forall l'',
                   (if tokens_empty (tokens_ l') || back_IsError (tokens_ l')
                    then Returned false l' else Returned true l') = Returned true l'' ->
                   error_free (tokens_ l''))).
  { intros l' Hone.
    destruct (scanned_tokens l1 l' Hfree1 Hone) as [Hclean Htrue].
    destruct (tokens_empty (tokens_ l') || back_IsError (tokens_ l')) eqn:E.
    - split; [exact Hclean | discriminate].
    - split; [exact Hclean |]. intros l'' [= <-]. apply Htrue.
      apply orb_false_iff in E. apply E. }
  assert (Hmaybe : forall r : option (bool * Lexer),
             (forall x, r = Some x -> at_most_one l1 x.2) ->
             clean_but_last
               (tokens_ (lexer_of
                  match option_map snd r with
                  | None => AssertionFailed l1
                  | Some l' =>
                    if tokens_empty (tokens_ l') || back_IsError (tokens_ l')
                    then Returned false l' else Returned true l'
                  end))
             /\ (forall l'',
                   match option_map snd r with
                   | None => AssertionFailed l1
                   | Some l' =>
                     if tokens_empty (tokens_ l') || back_IsError (tokens_ l')
                     then Returned false l' else Returned true l'
                   end = Returned true l'' ->
                   error_free (tokens_ l''))).
  { intros [x |] Hr; simpl; [apply Hfinish, (Hr x eq_refl) | exact Hstop]. }
  destruct (GetCharType l1).
  - exact Hstop.
  - exact (Hfinish _ (ScanUnknown_at_most_one l1)).
  - exact Hstop.
  - exact Hstop.
  - exact (Hfinish _ (ScanSymbol_at_most_one l1)).
  - exact (Hmaybe _ (virtual_ScanNumber_at_most_one l1)).
  - exact (Hfinish _ (ScanString_at_most_one l1)).
  - exact (Hfinish _ (ScanBracket_at_most_one l1)).
  - exact (Hmaybe _ (ScanOperator_at_most_one l1)).
  - exact (Hmaybe _ (virtual_ScanTag_at_most_one l1)).
Qed.

(** *** The loops that call [ProcessStep] *)

Lemma process_loop_tokens (fuel : nat) :
  forall l o,
    error_free (tokens_ l) ->
    process_loop fuel l = Some o ->
    clean_but_last (tokens_ (lexer_of o)).
Proof.
  induction fuel as [| fuel IH]; intros l o Hfree; simpl; [discriminate |].
  destruct (IsEnd l).
  { intros [= <-]. apply error_free_clean_but_last, Hfree. }
  destruct (ProcessStep_tokens l Hfree) as [Hclean Htrue].
  destruct (ProcessStep l) as [[|] l' | l'].
  - apply IH, Htrue. reflexivity.
  - intros [= <-]. exact Hclean.
  - intros [= <-]. exact Hclean.
Qed.

Lemma step_again_tokens (n : nat) :
  forall o,
    clean_but_last (tokens_ (lexer_of o)) ->
    (forall l, o = Returned true l -> error_free (tokens_ l)) ->
    clean_but_last (tokens_ (lexer_of (step_again n o))).
Proof.
  induction n as [| n IH]; intros o Hclean Htrue; simpl; [exact Hclean |].
  destruct o as [[|] l | l]; try exact Hclean.
  destruct (ProcessStep_tokens l (Htrue l eq_refl)) as [Hclean' Htrue'].
  apply IH; assumption.
Qed.

(** *** From the shape of the list to the claim *)

Lemma error_free_filter (ts : list LexerToken) :
  error_free ts -> List.filter IsError ts = [].
Proof.
  induction 1 as [| t ts Ht _ IH]; simpl; [reflexivity |].
  rewrite Ht. exact IH.
Qed.

Lemma clean_but_last_terminal (ts : list LexerToken) :
  clean_but_last ts -> error_is_terminal ts.
Proof.
  intros (clean & new & -> & Hfree & Hlen). split.
  - rewrite List.filter_app, (error_free_filter clean Hfree). simpl.
    pose proof (List.filter_length_le IsError new). lia.
  - intros i t Hi Herr. rewrite length_app.
    destruct (Nat.lt_ge_cases i (length clean)) as [Hlt | Hge].
    + rewrite lookup_app_l in Hi by exact Hlt.
      unfold error_free in Hfree. rewrite Forall_lookup in Hfree.
      rewrite (Hfree i t Hi) in Herr. discriminate.
    + rewrite lookup_app_r in Hi by exact Hge.
      apply lookup_lt_Some in Hi. lia.
Qed.

(** C3.  For every text, whatever the class ([Lexer] or [NewickLexer]),
    the options and the character table of the lexer: the tokens
    [ProcessString] leaves when it returns (in either mode, [fuel] bounding
    the rounds of its loop), and the tokens after any number of further
    calls of [ProcessStep] in stepwise mode, each made only while the
    previous call returned true, hold at most one error token, and an error
    token among them is the last token. *)
Theorem error_token_is_terminal (l0 : Lexer) (text : string) :
  (forall fuel stepwise,
     match ProcessString fuel text stepwise l0 with
     | Some o => error_is_terminal (tokens_ (lexer_of o))
     | None => True
     end)
  /\ (forall n, error_is_terminal (tokens_ (lexer_of (ProcessStepwise n text l0)))).
Proof.
  assert (Hinit : error_free (tokens_ (Init text l0))) by constructor.
  split.
  - intros fuel stepwise. unfold Lexer.ProcessString.
    destruct stepwise.
    + apply clean_but_last_terminal, ProcessStep_tokens, Hinit.
    + destruct (process_loop fuel (Init text l0)) as [o |] eqn:E; [| exact I].
      apply clean_but_last_terminal, (process_loop_tokens fuel _ o Hinit E).
  - intros n. unfold Lexer.ProcessStepwise.
    apply clean_but_last_terminal, step_again_tokens;
      apply ProcessStep_tokens, Hinit.
Qed.

End ErrorTokenFacts.

(* --------------------------------------------------------------------- *)
(** ** Lexer: the loop of [ProcessString] comes to an end                  *)
(* --------------------------------------------------------------------- *)

Section TerminationFacts.
Import Lexer.
Local Open Scope nat_scope.

Variable StringDeescape : string -> string.
Variable StringReplaceAll : string -> string -> string -> string.

Local Abbreviation ScanString := (ScanString StringDeescape StringReplaceAll).
Local Abbreviation ProcessStep := (ProcessStep StringDeescape StringReplaceAll).
Local Abbreviation process_loop := (process_loop StringDeescape StringReplaceAll).
Local Abbreviation ProcessString := (ProcessString StringDeescape StringReplaceAll).

Lemma moved_refl (l : Lexer) : moved l l.
Proof. unfold moved. auto. Qed.

Lemma moved_trans (l1 l2 l3 : Lexer) : moved l1 l2 -> moved l2 l3 -> moved l1 l3.
Proof. unfold moved. intros (? & ? & ?) (? & ? & ?). repeat split; try congruence; lia. Qed.

Lemma moved_on_moved (l1 l2 l3 : Lexer) : moved_on l1 l2 -> moved l2 l3 -> moved_on l1 l3.
Proof.
  unfold moved, moved_on. intros (? & ? & ?) (? & ? & ?).
  repeat split; try congruence; lia.
Qed.

Lemma moved_moved_on (l1 l2 l3 : Lexer) : moved l1 l2 -> moved_on l2 l3 -> moved_on l1 l3.
Proof.
  unfold moved, moved_on. intros (? & ? & ?) (? & ? & ?).
  repeat split; try congruence; lia.
Qed.

Lemma moved_on_weaken (l l' : Lexer) : moved_on l l' -> moved l l'.
Proof. unfold moved, moved_on. intros (? & ? & ?). repeat split; try assumption; lia. Qed.

Lemma NextChar_moved_on (l : Lexer) : moved_on l (NextChar l).
Proof. unfold moved_on. simpl. auto. Qed.

Lemma PushToken_moved (t : LexerTokenType) (p : nat) (v : string) (l : Lexer) :
  moved l (PushToken t p v l).
Proof. unfold moved. simpl. auto. Qed.

Lemma scan_type_loop_moved (t : LexerTokenType) (n : nat) :
  forall l, moved l (scan_type_loop n t l).
Proof.
  induction n as [| n IH]; intros l; simpl; [apply moved_refl |].
  destruct (negb (IsEnd l) && type_eqb (GetCharType l) t); [| apply moved_refl].
  eapply moved_trans; [apply moved_on_weaken, NextChar_moved_on | apply IH].
Qed.

(** A scanner that starts on a character of its type takes it. *)
Lemma scan_type_loop_moved_on (t : LexerTokenType) (l : Lexer) :
  IsEnd l = false -> GetCharType l = t ->
  moved_on l (scan_type_loop (len_ l - itr_ l) t l).
Proof.
  intros Hend Ht.
  destruct (len_ l - itr_ l) as [| n] eqn:En.
  - unfold IsEnd in Hend. apply Nat.leb_gt in Hend. lia.
  - simpl. rewrite Hend, Ht. 
    replace (type_eqb t t) with true by (destruct t; reflexivity). simpl.
    eapply moved_on_moved; [apply NextChar_moved_on | apply scan_type_loop_moved].
Qed.

Lemma whitespace_loop_moved (n : nat) :
  forall l found, moved l (whitespace_loop n l found).1.
Proof.
  induction n as [| n IH]; intros l found; simpl; [apply moved_refl |].
  destruct (negb (IsEnd l) && type_eqb (GetCharType l) kWhite); [| apply moved_refl].
  eapply moved_trans; [apply moved_on_weaken, NextChar_moved_on | apply IH].
Qed.

Lemma ScanWhitespace_moved (l : Lexer) : moved l (ScanWhitespace l).2.
Proof.
  unfold ScanWhitespace.
  pose proof (whitespace_loop_moved (len_ l - itr_ l) l false) as H.
  destruct (whitespace_loop (len_ l - itr_ l) l false) as [l1 found]. simpl in H.
  destruct (include_whitespace l1 && found); simpl; [| exact H].
  eapply moved_trans; [exact H | apply PushToken_moved].
Qed.

Lemma number_loop_moved (start : nat) (n : nat) :
  forall l found_d found_e, moved l (number_loop n start l found_d found_e).1.
Proof.
  induction n as [| n IH]; intros l found_d found_e; simpl; [apply moved_refl |].
  repeat case_match; try apply moved_refl;
    (eapply moved_trans; [apply moved_on_weaken, NextChar_moved_on | apply IH]).
Qed.

Lemma ScanNumber_moved (l : Lexer) : moved l (ScanNumber l).2.
Proof.
  unfold ScanNumber.
  pose proof (number_loop_moved (GetPosition l) (len_ l - itr_ l) l false false) as H.
  destruct (number_loop (len_ l - itr_ l) (GetPosition l) l false false) as [l1 err].
  simpl in H.
  destruct err; simpl; (eapply moved_trans; [exact H | apply PushToken_moved]).
Qed.

Lemma string_loop_moved (qmark : ascii) (n : nat) :
  forall l jump found_e found_q,
    moved l (string_loop n qmark l jump found_e found_q).1.
Proof.
  induction n as [| n IH]; intros l jump found_e found_q; simpl; [apply moved_refl |].
  repeat case_match; try apply moved_refl; simpl.
  - eapply moved_trans; [| apply IH].
    eapply moved_trans; apply moved_on_weaken, NextChar_moved_on.
  - eapply moved_trans; [| apply IH].
    eapply moved_trans; apply moved_on_weaken, NextChar_moved_on.
  - apply moved_on_weaken, NextChar_moved_on.
  - eapply moved_trans; [apply moved_on_weaken, NextChar_moved_on | apply IH].
Qed.

Lemma ScanString_moved_on (l : Lexer) : moved_on l (ScanString l).2.
Proof.
  unfold Lexer.ScanString.
  destruct (IsEnd (NextChar l)).
  { eapply moved_on_moved; [apply NextChar_moved_on | apply PushToken_moved]. }
  pose proof (string_loop_moved (GetChar l)
                (len_ (NextChar l) - itr_ (NextChar l)) (NextChar l)
                false false false) as H.
  destruct (string_loop (len_ (NextChar l) - itr_ (NextChar l)) (GetChar l)
              (NextChar l) false false false) as [l1 [[jump found_e] found_q]].
  simpl in H.
  destruct (jump || IsEnd l1 && negb (Ascii.eqb (GetCharOff l1 (-1)) (GetChar l)));
    (eapply moved_on_moved; [apply NextChar_moved_on |];
     eapply moved_trans; [exact H | apply PushToken_moved]).
Qed.

Lemma ScanBracket_moved_on (l : Lexer) : moved_on l (ScanBracket l).2.
Proof. unfold moved_on. simpl. auto. Qed.

Lemma advance_moved (n : nat) : forall l, moved l (advance n l).
Proof.
  induction n as [| n IH]; intros l; simpl; [apply moved_refl |].
  eapply moved_trans; [apply moved_on_weaken, NextChar_moved_on | apply IH].
Qed.

Lemma find_loop_moved (to : string) (n : nat) : forall l, moved l (find_loop n to l).
Proof.
  induction n as [| n IH]; intros l; simpl; [apply moved_refl |].
  destruct (negb (IsEnd l) && negb (at_cursor l to)); [| apply moved_refl].
  eapply moved_trans; [apply moved_on_weaken, NextChar_moved_on | apply IH].
Qed.

Lemma ScanFromTo_moved (from to : string) (l : Lexer) :
  moved l (ScanFromTo from to l).2.
Proof.
  unfold ScanFromTo.
  destruct (IsEnd l || negb (at_cursor l from)); [apply moved_refl |]. cbv zeta.
  set (l' := advance (String.length from) l).
  set (l'' := find_loop (len_ l' - itr_ l') to l').
  assert (H : moved l l'')
    by (eapply moved_trans; [apply advance_moved | apply find_loop_moved]).
  destruct (IsEnd l''); simpl; [exact H |].
  eapply moved_trans; [exact H | apply advance_moved].
Qed.

Lemma virtual_ScanComment_moved (l : Lexer) : moved l (virtual_ScanComment l).2.
Proof.
  unfold virtual_ScanComment. destruct (class_ l); [apply moved_refl |].
  unfold NewickLexer_ScanComment.
  destruct (Ascii.eqb (GetChar l) "]"); [apply PushToken_moved |].
  pose proof (ScanFromTo_moved "[" "]" l) as H.
  destruct (ScanFromTo "[" "]" l) as [found l1]. simpl in H.
  destruct (negb found && Ascii.eqb (GetChar l1) "[");
    [eapply moved_trans; [exact H | apply PushToken_moved] |].
  destruct (found && include_comments l1); simpl; [| exact H].
  eapply moved_trans; [exact H | apply PushToken_moved].
Qed.

Lemma skip_loop_moved (n : nat) : forall l, moved l (skip_loop n l).
Proof.
  induction n as [| n IH]; intros l; simpl; [apply moved_refl |].
  pose proof (ScanWhitespace_moved l) as Hw.
  destruct (ScanWhitespace l) as [w l1]. simpl in Hw.
  destruct w; [eapply moved_trans; [exact Hw | apply IH] |].
  pose proof (virtual_ScanComment_moved l1) as Hc.
  destruct (virtual_ScanComment l1) as [c l2]. simpl in Hc.
  destruct c; [| eapply moved_trans; eassumption].
  eapply moved_trans; [exact Hw |]. eapply moved_trans; [exact Hc | apply IH].
Qed.

(** The scanners of [NewickLexer] for numbers and tags take at least the
    character they start on when they give a result that lets
    [ProcessStep] go on. *)
Lemma NewickLexer_ScanNumber_moved_on (l : Lexer) (r : bool * Lexer) :
  NewickLexer_ScanNumber l = Some r -> moved_on l r.2.
Proof.
  unfold NewickLexer_ScanNumber.
  destruct (Ascii.eqb (GetChar l) ":"); [| discriminate]. intros [= <-].
  eapply moved_on_moved; [apply NextChar_moved_on | apply ScanNumber_moved].
Qed.

Lemma NewickLexer_ScanTag_moved_on (l : Lexer) (r : bool * Lexer) :
  NewickLexer_ScanTag l = Some r ->
  moved_on l r.2 \/ back_IsError (tokens_ r.2) = true.
Proof.
  unfold NewickLexer_ScanTag.
  destruct (Ascii.eqb (GetChar l) "}").
  { intros [= <-]. right. apply back_IsError_snoc. }
  destruct (negb (Ascii.eqb (GetChar l) "{")); [discriminate |].
  pose proof (ScanFromTo_moved "{" "}" l) as H.
  pose proof (ScanFromTo_moves "{" "}" l) as Hon.
  destruct (ScanFromTo "{" "}" l) as [found l1]. simpl in H.
  destruct found; simpl.
  - destruct (Hon l1 eq_refl) as (_ & Hi & _). simpl in Hi.
    assert (Hmo : moved_on l l1).
    { destruct H as (Hc & Ht & _). repeat split; [exact Hc | exact Ht | lia]. }
    destruct (include_tags l1); intros [= <-]; left; simpl; [| exact Hmo].
    eapply moved_on_moved; [exact Hmo | apply PushToken_moved].
  - intros [= <-]. right. apply back_IsError_snoc.
Qed.

(** The check at the end of [ProcessStep]. *)
Lemma finish_true (l' l'' : Lexer) :
  (if tokens_empty (tokens_ l') || back_IsError (tokens_ l')
   then Returned false l' else Returned true l') = Returned true l'' ->
  l'' = l' /\ back_IsError (tokens_ l') = false.
Proof.
  destruct (tokens_empty (tokens_ l') || back_IsError (tokens_ l')) eqn:E;
    [discriminate |].
  intros [= <-]. apply orb_false_iff in E. split; [reflexivity | apply E].
Qed.

(** A call of [ProcessStep] on a [NewickLexer] that returns true has moved
    the position forward. *)
Lemma ProcessStep_moved_on (l l' : Lexer) :
  class_ l = NewickLexer ->
  ProcessStep l = Returned true l' ->
  moved_on l l'.
Proof.
  intros Hclass. unfold Lexer.ProcessStep. cbv zeta.
  destruct (IsEnd l); [discriminate |].
  pose proof (skip_loop_moved (S (len_ l - itr_ l)) l) as Hskip.
  set (l1 := skip_loop (S (len_ l - itr_ l)) l) in *. clearbody l1.
  assert (Hclass1 : class_ l1 = NewickLexer)
    by (destruct Hskip as (Hc & _); congruence).
  destruct (negb (tokens_empty (tokens_ l1)) && back_IsError (tokens_ l1));
    [discriminate |].
  destruct (IsEnd l1) eqn:Eend; [discriminate |].
  destruct (type_eqb (GetCharType l1) kError); [discriminate |].
  assert (Hgo : forall x, moved_on l1 x -> moved_on l x)
    by (intros x Hx; eapply moved_moved_on; eassumption).
  destruct (GetCharType l1) eqn:Et; try discriminate.
  - intros H. apply finish_true in H. destruct H as [-> _]. apply Hgo.
    eapply moved_on_moved;
      [apply (scan_type_loop_moved_on kUnknown l1 Eend Et) | apply PushToken_moved].
  - intros H. apply finish_true in H. destruct H as [-> _]. apply Hgo.
    eapply moved_on_moved;
      [apply (scan_type_loop_moved_on kSymbol l1 Eend Et) | apply PushToken_moved].
  - unfold virtual_ScanNumber. rewrite Hclass1.
    destruct (NewickLexer_ScanNumber l1) as [r |] eqn:Er; simpl; [| discriminate].
    intros H. apply finish_true in H. destruct H as [-> _]. apply Hgo.
    apply (NewickLexer_ScanNumber_moved_on l1 r Er).
  - intros H. apply finish_true in H. destruct H as [-> _]. apply Hgo.
    apply ScanString_moved_on.
  - intros H. apply finish_true in H. destruct H as [-> _]. apply Hgo.
    apply ScanBracket_moved_on.
  - unfold ScanOperator, virtual_ScanNumber. rewrite Hclass1.
    destruct (CharIsSign (GetChar l1) && glue_sign_to_number l1
              && negb (IsEndOff l1 1) && CharIsDigit (GetCharOff l1 1)).
    + destruct (NewickLexer_ScanNumber l1) as [r |] eqn:Er; simpl; [| discriminate].
      intros H. apply finish_true in H. destruct H as [-> _]. apply Hgo.
      apply (NewickLexer_ScanNumber_moved_on l1 r Er).
    + intros H.
      apply (finish_true
               (NextChar (PushTokenRange kOperator (GetPosition l1)
                                         (GetPosition l1 + 1) l1))) in H.
      destruct H as [-> _]. apply Hgo.
      unfold moved_on. simpl. auto.
  - unfold virtual_ScanTag. rewrite Hclass1.
    destruct (NewickLexer_ScanTag l1) as [r |] eqn:Er; simpl; [| discriminate].
    intros H. apply finish_true in H. destruct H as [-> Hback]. apply Hgo.
    destruct (NewickLexer_ScanTag_moved_on l1 r Er) as [Hmo | Herr];
      [exact Hmo | congruence].
Qed.

(** For a [NewickLexer], the loop of [ProcessString] ends within
    [len_ - itr_ + 1] rounds. *)
Lemma process_loop_returns (d : nat) :
  forall l fuel,
    class_ l = NewickLexer ->
    len_ l - itr_ l <= d -> d < fuel ->
    exists o, process_loop fuel l = Some o.
Proof.
  induction d as [d IH] using lt_wf_ind. intros l fuel Hclass Hd Hfuel.
  destruct fuel as [| fuel]; [lia |]. simpl.
  destruct (IsEnd l) eqn:Eend; [eauto |].
  destruct (ProcessStep l) as [[|] l' | l'] eqn:Estep; [| eauto | eauto].
  destruct (ProcessStep_moved_on l l' Hclass Estep) as (Hc & Ht & Hi).
  unfold IsEnd in Eend. apply Nat.leb_gt in Eend.
  assert (Hlen : len_ l' = len_ l) by (unfold len_; rewrite Ht; reflexivity).
  apply (IH (len_ l' - itr_ l')); [lia | congruence | lia | lia].
Qed.

(** On every text, [ProcessString] of a [NewickLexer] returns: as many
    rounds as the text has characters, and one more, are enough. *)
Lemma NewickLexer_ProcessString_returns (l0 : Lexer) (text : string) (stepwise : bool) :
  class_ l0 = NewickLexer ->
  forall fuel, String.length text < fuel ->
  exists o, ProcessString fuel text stepwise l0 = Some o.
Proof.
  intros Hclass fuel Hfuel. unfold Lexer.ProcessString.
  destruct stepwise; [eauto |].
  apply (process_loop_returns (String.length text)); [exact Hclass | | exact Hfuel].
  unfold len_. simpl. lia.
Qed.

End TerminationFacts.

(** Runs of [ProcessString].  The Newick lexer turns the text [(A,B;] into
    the five tokens used above for [ValidateBrackets], without error, and
    the text [(A:0.1,B:+)] into tokens that end with the error token of the
    number scanner; on the plain lexer the error character of [(A # B] ends
    the lexing, and the error token is the last of the three tokens. *)
Example lexing_on_the_examples :
  option_map (fun o => Lexer.tokens_ (Lexer.lexer_of o))
    (Lexer.ProcessString Examples.no_escape Examples.no_blank 6 "(A,B;" false
       Examples.newick_lexer)
  = Some Examples.unclosed_tokens
  /\ option_map (fun o => Lexer.tokens_ (Lexer.lexer_of o))
       (Lexer.ProcessString Examples.no_escape Examples.no_blank 9 "(A:0.1,B:+)" false
          Examples.newick_lexer)
     = Some [ Lexer.Token Lexer.kBracket 0 "(";
              Lexer.Token Lexer.kSymbol 1 "A";
              Lexer.Token Lexer.kNumber 3 "0.1";
              Lexer.Token Lexer.kOperator 6 ",";
              Lexer.Token Lexer.kSymbol 7 "B";
              Lexer.Token Lexer.kError 9 "Malformed number." ]
  /\ option_map (fun o => Lexer.tokens_ (Lexer.lexer_of o))
       (Lexer.ProcessString Examples.no_escape Examples.no_blank 6 "(A # B" false
          Examples.lexer)
     = Some [ Lexer.Token Lexer.kBracket 0 "(";
              Lexer.Token Lexer.kSymbol 1 "A";
              Lexer.Token Lexer.kError 3 "Invalid character." ].
Proof. repeat split; vm_compute; reflexivity. Qed.

(* ===================================================================== *)
(** * Part III: further properties of the code                             *)
(* ===================================================================== *)

(* --------------------------------------------------------------------- *)
(** ** Bitvector: reads after writes                                       *)
(* --------------------------------------------------------------------- *)

Section BitvectorInRange.
Import Bitvector Notions.


Lemma mask_test (w k : Z) :
  0 <= k -> negb (Z.land w (bit_mask_ k) =? 0) = Z.testbit w k.
Proof.
  intros Hk. unfold bit_mask_. rewrite Z.shiftl_1_l.
  destruct (Z.testbit w k) eqn:E.
  - apply negb_true_iff, Z.eqb_neq. intros H.
    assert (Hb : Z.testbit (Z.land w (2 ^ k)) k = true)
      by (rewrite Z.land_spec, E, Z.pow2_bits_true by lia; reflexivity).
    rewrite H, Z.bits_0 in Hb. discriminate.
  - apply negb_false_iff, Z.eqb_eq. apply Z.bits_inj'. intros n Hn.
    rewrite Z.land_spec, Z.bits_0, Z.pow2_bits_eqb by lia.
    destruct (Z.eqb_spec k n) as [-> |]; [rewrite E; reflexivity | apply andb_false_r].
Qed.

Lemma all_1_test (k : Z) : 0 <= k < IntSize -> Z.testbit all_1_ k = true.
Proof.
  intros Hk. unfold all_1_.
  replace (2 ^ IntSize - 1) with (Z.ones IntSize)
    by (rewrite Z.ones_equiv; unfold IntSize; lia).
  apply Z.ones_spec_low. exact Hk.
Qed.

Lemma index_split (i : Z) :
  0 <= i -> 0 <= i / IntSize /\ 0 <= i mod IntSize < IntSize.
Proof.
  intros Hi. unfold IntSize. split; [apply Z.div_pos; lia | apply Z.mod_pos_bound; lia].
Qed.

Lemma word_in_range (b : Bitvector.t) (i : Z) :
  covers b -> 0 <= i < size_ b ->
  (Z.to_nat (i / IntSize) < length (data_ b))%nat.
Proof.
  unfold covers, IntSize. intros Hc Hi.
  assert (i / 64 < Z.of_nat (length (data_ b)))
    by (apply Z.div_lt_upper_bound; lia).
  assert (0 <= i / 64) by (apply Z.div_pos; lia). lia.
Qed.

Lemma word_set_word_same (b : Bitvector.t) (w v : Z) :
  (Z.to_nat w < length (data_ b))%nat -> word (set_word b w v) w = v.
Proof.
  intros Hw. unfold word, set_word. simpl.
  rewrite list_lookup_insert_eq by exact Hw. reflexivity.
Qed.

Lemma word_set_word_other (b : Bitvector.t) (w w' v : Z) :
  0 <= w -> 0 <= w' -> w <> w' -> word (set_word b w v) w' = word b w'.
Proof.
  intros Hw Hw' Hne. unfold word, set_word. simpl.
  rewrite list_lookup_insert_ne by lia. reflexivity.
Qed.

Lemma word_set_word_missing (b : Bitvector.t) (w v : Z) :
  (length (data_ b) <= Z.to_nat w)%nat -> set_word b w v = b.
Proof.
  intros Hw. unfold set_word. destruct b as [s d]. simpl in *.
  rewrite list_insert_ge by exact Hw. reflexivity.
Qed.


Lemma geb_below (i s : Z) : i < s -> (i >=? s) = false.
Proof. intros H. rewrite Z.geb_leb. apply Z.leb_gt. exact H. Qed.

Lemma Get_in_range (b : Bitvector.t) (i : Z) :
  0 <= i < size_ b ->
  Get b i = Z.testbit (word b (i / IntSize)) (i mod IntSize).
Proof.
  intros Hi. unfold Get.
  rewrite geb_below by lia.
  apply mask_test. apply index_split. lia.
Qed.

Lemma guard_in_range (b x : Bitvector.t) (i : Z) :
  i < size_ b -> (if i >=? size_ b then b else x) = x.
Proof.
  intros Hi. rewrite geb_below by lia. reflexivity.
Qed.

Lemma Get_after_Set_to (b : Bitvector.t) (i : Z) (value : bool) :
  covers b -> 0 <= i < size_ b ->
  Get (Set_to b i value) i = value.
Proof.
  intros Hc Hi.
  pose proof (word_in_range b i Hc Hi) as Hw.
  destruct (index_split i) as [Hq Hr]; [lia |].
  unfold Set_to. destruct value.
  - unfold Set_. rewrite guard_in_range by lia.
    rewrite Get_in_range by (simpl; lia).
    rewrite word_set_word_same by exact Hw.
    rewrite Z.lor_spec. unfold bit_mask_.
    rewrite Z.shiftl_1_l, Z.pow2_bits_true by lia. apply orb_true_r.
  - unfold Unset. rewrite guard_in_range by lia.
    rewrite Get_in_range by (simpl; lia).
    rewrite word_set_word_same by exact Hw.
    rewrite Z.land_spec, Z.lxor_spec, all_1_test by exact Hr. unfold bit_mask_.
    rewrite Z.shiftl_1_l, Z.pow2_bits_true by lia. apply andb_false_r.
Qed.

Lemma other_bit (i j : Z) :
  0 <= i -> 0 <= j -> i <> j -> i / IntSize = j / IntSize ->
  i mod IntSize <> j mod IntSize.
Proof.
  unfold IntSize. intros Hi Hj Hne Hq Hr. apply Hne.
  rewrite (Z.div_mod i 64), (Z.div_mod j 64) by lia. congruence.
Qed.

(** The three writes change one word by a bit operation with the mask of
    the bit; such a change leaves every other bit as it was. *)
Lemma write_frame (b : Bitvector.t) (i j : Z) (f : Z -> Z) :
  0 <= i -> 0 <= j -> i <> j ->
  (forall w k, 0 <= k < IntSize -> k <> i mod IntSize ->
               Z.testbit (f w) k = Z.testbit w k) ->
  Get (set_word b (i / IntSize) (f (word b (i / IntSize)))) j = Get b j.
Proof.
  intros Hi Hj Hne Hf.
  destruct (index_split i Hi) as [Hqi Hri].
  destruct (index_split j Hj) as [Hqj Hrj].
  destruct (Z_lt_le_dec j (size_ b)) as [Hlt | Hge].
  2: { rewrite !Get_out_of_range by (simpl; lia). reflexivity. }
  rewrite !Get_in_range by (simpl; lia).
  destruct (Z.eq_dec (i / IntSize) (j / IntSize)) as [Heq | Hneq].
  - destruct (Nat.lt_ge_cases (Z.to_nat (i / IntSize)) (length (data_ b))) as [Hw | Hw].
    + rewrite <- Heq, word_set_word_same by exact Hw.
      apply Hf; [exact Hrj |]. intros E. apply (other_bit i j); auto.
    + rewrite word_set_word_missing by exact Hw. reflexivity.
  - rewrite word_set_word_other by assumption. reflexivity.
Qed.

(** X2.  A write to one bit ([Set], [Unset], [Set (index, value)] or
    [Flip]) leaves every other bit of the vector as it was. *)
Theorem writes_keep_the_other_bits (b : Bitvector.t) (i j : Z) (value : bool) :
  0 <= i -> 0 <= j -> i <> j ->
  Get (Set_to b i value) j = Get b j /\ Get (Flip b i) j = Get b j.
Proof.
  intros Hi Hj Hne.
  destruct (index_split i Hi) as [Hqi Hri].
  destruct (Z_lt_le_dec i (size_ b)) as [Hlt | Hge].
  2: { unfold Set_to, Set_, Unset, Flip.
       rewrite !guard_out_of_range by lia. destruct value; auto. }
  split.
  - unfold Set_to, Set_, Unset. destruct value; rewrite guard_in_range by lia.
    + apply (write_frame b i j (fun w => Z.lor w (bit_mask_ (i mod IntSize)))); auto.
      intros w k Hk Hki. rewrite Z.lor_spec. unfold bit_mask_.
      rewrite Z.shiftl_1_l, Z.pow2_bits_false by lia. apply orb_false_r.
    + apply (write_frame b i j
               (fun w => Z.land w (Z.lxor all_1_ (bit_mask_ (i mod IntSize))))); auto.
      intros w k Hk Hki. rewrite Z.land_spec, Z.lxor_spec, all_1_test by exact Hk.
      unfold bit_mask_. rewrite Z.shiftl_1_l, Z.pow2_bits_false by lia.
      apply andb_true_r.
  - unfold Flip. rewrite guard_in_range by lia.
    apply (write_frame b i j (fun w => Z.lxor w (bit_mask_ (i mod IntSize)))); auto.
    intros w k Hk Hki. rewrite Z.lxor_spec. unfold bit_mask_.
    rewrite Z.shiftl_1_l, Z.pow2_bits_false by lia. apply xorb_false_r.
Qed.

Lemma Flip_inverts_and_undoes (b : Bitvector.t) (i : Z) :
  covers b -> 0 <= i < size_ b ->
  Get (Flip b i) i = negb (Get b i) /\ Flip (Flip b i) i = b.
Proof.
  intros Hc Hi.
  pose proof (word_in_range b i Hc Hi) as Hw.
  destruct (index_split i) as [Hq Hr]; [lia |].
  split.
  - unfold Flip. rewrite guard_in_range by lia.
    rewrite !Get_in_range by (simpl; lia).
    rewrite word_set_word_same by exact Hw.
    rewrite Z.lxor_spec. unfold bit_mask_.
    rewrite Z.shiftl_1_l, Z.pow2_bits_true by lia. apply xorb_true_r.
  - assert (E : Flip b i = set_word b (i / IntSize)
                            (Z.lxor (word b (i / IntSize)) (bit_mask_ (i mod IntSize))))
      by (unfold Flip; apply guard_in_range; lia).
    rewrite E. unfold Flip. rewrite guard_in_range by (simpl; lia).
    rewrite word_set_word_same by exact Hw.
    rewrite Z.lxor_assoc, Z.lxor_nilpotent, Z.lxor_0_r.
    unfold set_word, word. destruct b as [s d]. simpl in *. f_equal.
    rewrite list_insert_insert_eq.
    destruct (lookup_lt_is_Some_2 d _ Hw) as [x Hx].
    rewrite Hx. simpl. apply list_insert_id. exact Hx.
Qed.

(** The constructor gives a vector whose words reach up to its size and
    whose bits are all false, and the writes keep the size and the words
    reaching up to it. *)
Lemma make_is_clear_and_writes_keep_the_shape (size : Z) :
  0 <= size ->
  covers (make size)
  /\ (forall i, Get (make size) i = false)
  /\ (forall b i value,
        covers b ->
        covers (Set_to b i value) /\ covers (Flip b i)
        /\ size_ (Set_to b i value) = size_ b /\ size_ (Flip b i) = size_ b).
Proof.
  intros Hs. split; [| split].
  - unfold covers, make, IntSize. simpl. rewrite length_replicate.
    pose proof (Z.div_mod size 64 ltac:(lia)) as Hdm.
    pose proof (Z.mod_pos_bound size 64 ltac:(lia)) as Hm.
    assert (0 <= size / 64) by (apply Z.div_pos; lia).
    destruct (Z.eqb_spec (size mod 64) 0); lia.
  - intros i. unfold Get. destruct (i >=? size_ (make size)); [reflexivity |].
    unfold word, make. simpl.
    destruct (replicate _ 0 !! Z.to_nat (i / IntSize)) as [x |] eqn:E; simpl.
    + apply lookup_replicate in E. destruct E as [-> _]. reflexivity.
    + reflexivity.
  - intros b i value Hc.
    assert (Hset : forall w v, covers (set_word b w v) /\ size_ (set_word b w v) = size_ b).
    { intros w v. unfold covers, set_word in *. simpl.
      rewrite length_insert. split; [exact Hc | reflexivity]. }
    unfold Set_to, Set_, Unset, Flip.
    destruct value; destruct (i >=? size_ b); repeat split;
      try exact Hc; try apply Hset.
Qed.

(** X1.  On a bit vector whose words reach up to its size, a bit that is
    written is read back: after [Set], [Unset] and [Set (index, value)] at
    an index below the size, [Get] at that index gives the value written;
    [Flip] inverts the bit, and a second [Flip] gives the vector back. *)
Theorem writes_are_read_back (b : Bitvector.t) (i : Z) :
  covers b -> 0 <= i < size_ b ->
  Get (Set_ b i) i = true
  /\ Get (Unset b i) i = false
  /\ (forall value, Get (Set_to b i value) i = value)
  /\ Get (Flip b i) i = negb (Get b i)
  /\ Flip (Flip b i) i = b.
Proof.
  intros Hc Hi.
  split; [exact (Get_after_Set_to b i true Hc Hi) |].
  split; [exact (Get_after_Set_to b i false Hc Hi) |].
  split; [intros value; exact (Get_after_Set_to b i value Hc Hi) |].
  exact (Flip_inverts_and_undoes b i Hc Hi).
Qed.

End BitvectorInRange.

Lemma writes_are_read_back_witness :
  Bitvector.Get (Bitvector.Set_ Examples.bits70 69) 69 = true
  /\ Bitvector.Get (Bitvector.Unset Examples.bits70 69) 69 = false
  /\ (forall value, Bitvector.Get (Bitvector.Set_to Examples.bits70 69 value) 69 = value)
  /\ Bitvector.Get (Bitvector.Flip Examples.bits70 69) 69
     = negb (Bitvector.Get Examples.bits70 69)
  /\ Bitvector.Flip (Bitvector.Flip Examples.bits70 69) 69 = Examples.bits70.
Proof.
  apply (writes_are_read_back Examples.bits70 69).
  - apply (make_is_clear_and_writes_keep_the_shape 70). lia.
  - simpl. lia.
Defined.

Lemma writes_keep_the_other_bits_witness :
  Bitvector.Get (Bitvector.Set_to Examples.bits70 69 true) 5
  = Bitvector.Get Examples.bits70 5
  /\ Bitvector.Get (Bitvector.Flip Examples.bits70 69) 5
     = Bitvector.Get Examples.bits70 5.
Proof. apply (writes_keep_the_other_bits Examples.bits70 69 5 true); lia. Defined.

(* --------------------------------------------------------------------- *)
(** ** TreeNode: the circle of the links                                   *)
(* --------------------------------------------------------------------- *)

Section TreeNodeCircle.
Import TreeNode.

Variable Next : nat -> nat.

Local Abbreviation after j link_ := (Nat.iter j Next link_).

Lemma after_add (a b link_ : nat) : after (a + b) link_ = after a (after b link_).
Proof. apply Nat.iter_add. Qed.

Lemma after_succ (j link_ : nat) : Next (after j link_) = after (S j) link_.
Proof. reflexivity. Qed.

(** On a circle of length [k], the links at two different places are
    different links. *)
Lemma first_return_distinct (link_ k : nat) :
  first_return Next link_ k ->
  forall i j, (i < j < k)%nat -> after i link_ <> after j link_.
Proof.
  intros (Hk & Hback & Hmin) i j Hij E.
  apply (Hmin (k - j + i)%nat); [lia |].
  rewrite after_add, E, <- after_add.
  replace (k - j + j)%nat with k by lia. exact Hback.
Qed.

Lemma first_return_period (link_ k : nat) :
  first_return Next link_ k ->
  forall q r, after (q * k + r) link_ = after r link_.
Proof.
  intros (Hk & Hback & _) q r. induction q as [| q IH]; [reflexivity |].
  replace (S q * k + r)%nat with ((q * k + r) + k)%nat by lia.
  rewrite after_add, Hback. exact IH.
Qed.

(** X3.  The iteration over the links of a node visits every link of the
    circle, each of them once, starting with the link of the node. *)
Theorem Links_visits_each_link_once (link_ m : nat) :
  (0 < m)%nat ->
  Nat.iter m Next link_ = link_ ->
  exists links,
    (forall fuel, (m < fuel)%nat -> Links Next fuel link_ = Some links)
    /\ NoDup links
    /\ head links = Some link_
    /\ (forall j, Nat.iter j Next link_ ∈ links).
Proof.
  intros Hm Hback.
  destruct (first_return_exists Next link_ m Hm Hback) as (k & Hkm & Hfirst).
  pose proof Hfirst as (Hk & _ & _).
  exists (map (fun i => after i link_) (seq 0 k)).
  split; [| split; [| split]].
  - intros fuel Hfuel. unfold Links, BeginLinks.
    destruct k as [| d]; [lia |].
    apply (iterate_links_runs Next link_ (S d) Hfirst d 0 fuel []); lia.
  - apply NoDup_fmap_2_strong; [| apply NoDup_seq].
    intros i j Hi Hj E. apply elem_of_seq in Hi, Hj.
    destruct (Nat.lt_trichotomy i j) as [Hlt | [Heq | Hgt]]; [| exact Heq |].
    + exfalso. apply (first_return_distinct link_ k Hfirst i j); [lia | exact E].
    + exfalso. apply (first_return_distinct link_ k Hfirst j i); [lia | symmetry; exact E].
  - destruct k as [| d]; [lia | reflexivity].
  - intros j.
    rewrite (Nat.div_mod_eq j k), (Nat.mul_comm k), (first_return_period link_ k Hfirst).
    apply (list_elem_of_fmap_2 (fun i => after i link_)).
    apply elem_of_seq. pose proof (Nat.mod_upper_bound j k). lia.
Qed.

Lemma rank_loop_above (fuel : nat) (link_ : nat) :
  forall link rank r, rank_loop Next fuel link_ link rank = Some r -> rank < r.
Proof.
  induction fuel as [| fuel IH]; intros link rank r; simpl; [discriminate |].
  destruct (Next link =? link_)%nat; [intros [= <-]; lia |].
  intros H. apply IH in H. lia.
Qed.

(** X4.  The rank is never negative, and it is 0 exactly for a node whose
    link is its own next link. *)
Theorem Rank_is_zero_for_a_lone_link (fuel link_ : nat) (r : Z) :
  Rank Next fuel link_ = Some r ->
  0 <= r /\ (r = 0 <-> Next link_ = link_).
Proof.
  unfold Rank. destruct fuel as [| fuel]; simpl; [discriminate |].
  destruct (Nat.eqb_spec (Next link_) link_) as [E | E].
  - intros [= <-]. split; [lia | split; auto].
  - intros H. apply rank_loop_above in H. split; [lia |].
    split; [lia | contradiction].
Qed.

Lemma rank_loop_off_circle (link_ : nat) :
  (forall j, (0 < j)%nat -> after j link_ <> link_) ->
  forall fuel j rank, rank_loop Next fuel link_ (after j link_) rank = None.
Proof.
  intros Hoff. induction fuel as [| fuel IH]; intros j rank; simpl; [reflexivity |].
  destruct (Nat.eqb_spec (Next (after j link_)) link_) as [E | E].
  - exfalso. apply (Hoff (S j)); [lia | exact E].
  - apply (IH (S j)).
Qed.

Lemma iterate_links_off_circle (link_ : nat) :
  (forall j, (0 < j)%nat -> after j link_ <> link_) ->
  forall fuel j seen,
    iterate_links Next fuel (Iterator (Some (after j link_)) (Some link_)) seen = None.
Proof.
  intros Hoff. induction fuel as [| fuel IH]; intros j seen; simpl; [reflexivity |].
  unfold increment. simpl.
  destruct (Nat.eqb_spec (Next (after j link_)) link_) as [E | E].
  - exfalso. apply (Hoff (S j)); [lia | exact E].
  - apply (IH (S j)).
Qed.

(** X5.  When the chain of next links never comes back to the link of the
    node, neither the loop of [Rank] nor the iteration over the links comes
    to an end. *)
Theorem Rank_and_Links_need_a_circle (link_ fuel : nat) :
  (forall j, (0 < j)%nat -> Nat.iter j Next link_ <> link_) ->
  Rank Next fuel link_ = None /\ Links Next fuel link_ = None.
Proof.
  intros Hoff. split.
  - apply (rank_loop_off_circle link_ Hoff fuel 0).
  - apply (iterate_links_off_circle link_ Hoff fuel 0).
Qed.

End TreeNodeCircle.

Lemma Links_visits_each_link_once_witness :
  exists links,
    (forall fuel, (3 < fuel)%nat -> TreeNode.Links Examples.next3 fuel 0 = Some links)
    /\ NoDup links
    /\ head links = Some 0%nat
    /\ (forall j, Nat.iter j Examples.next3 0%nat ∈ links).
Proof.
  apply (Links_visits_each_link_once Examples.next3 0 3); [lia | reflexivity].
Defined.

Lemma Rank_is_zero_for_a_lone_link_witness :
  0 <= 2 /\ (2 = 0 <-> Examples.next3 0 = 0%nat).
Proof.
  apply (Rank_is_zero_for_a_lone_link Examples.next3 3 0 2). reflexivity.
Defined.

Lemma Rank_and_Links_need_a_circle_witness :
  TreeNode.Rank S 1000 0 = None /\ TreeNode.Links S 1000 0 = None.
Proof.
  apply (Rank_and_Links_need_a_circle S 0 1000).
  intros j Hj. destruct j as [| j]; [lia | simpl; discriminate].
Defined.

(* --------------------------------------------------------------------- *)
(** ** Plausibility: the two loops over the reference tree                 *)
(* --------------------------------------------------------------------- *)

Section PlausibilityLoops.
Import Plausibility Notions.

Lemma collect_euler_snoc (ids : gmap nat Z) (tour : list Node) (n : Node) :
  collect_euler ids (tour ++ [n]) = euler_step ids (collect_euler ids tour) n.
Proof. unfold collect_euler. rewrite fold_left_app. reflexivity. Qed.

Lemma first_occurrence_snoc (l : list Z) (p q i : Z) :
  first_occurrence l p i -> first_occurrence (l ++ [q]) p i.
Proof.
  intros (Hi & Hl & Hmin).
  pose proof (lookup_lt_Some _ _ _ Hl) as Hlt.
  repeat split; [exact Hi | rewrite lookup_app_l by exact Hlt; exact Hl |].
  intros j Hj. rewrite lookup_app_l by lia. apply Hmin, Hj.
Qed.

(** X6.  The Euler loop collects the preorder id of every node of the
    traversal, in order, and maps every id it has collected to the index at
    which the id appears for the first time. *)
Theorem euler_map_holds_first_occurrences (ids : gmap nat Z) (eulertour : list Node) :
  (collect_euler ids eulertour).1.1
  = map (fun n => default 0 (ids !! index_ n)) eulertour
  /\ (collect_euler ids eulertour).2 = Z.of_nat (length eulertour)
  /\ (forall p, p ∈ (collect_euler ids eulertour).1.1 ->
                is_Some ((collect_euler ids eulertour).1.2 !! p))
  /\ (forall p i, (collect_euler ids eulertour).1.2 !! p = Some i ->
                  first_occurrence (collect_euler ids eulertour).1.1 p i).
Proof.
  induction eulertour as [| n tour IH] using rev_ind.
  - split; [reflexivity | split; [reflexivity | split]]; simpl.
    + intros p Hp. apply elem_of_nil in Hp. contradiction.
    + intros p i Hp. rewrite lookup_empty in Hp. discriminate.
  - rewrite collect_euler_snoc.
    destruct (collect_euler ids tour) as [[e m] c]. simpl in IH.
    destruct IH as (He & Hc & Hin & Hfirst).
    unfold euler_step. simpl.
    set (q := default 0 (ids !! index_ n)).
    split; [rewrite map_app, He; reflexivity |].
    split; [rewrite length_app; simpl; lia |].
    assert (Hlen : Z.to_nat c = length e) by (rewrite Hc, He, length_map; lia).
    destruct (m !! q) as [i0 |] eqn:Eq.
    + split.
      * intros p Hp. apply elem_of_app in Hp. destruct Hp as [Hp | Hp];
          [apply Hin, Hp |]. apply list_elem_of_singleton in Hp. subst p. eauto.
      * intros p i Hp. apply first_occurrence_snoc, Hfirst, Hp.
    + split.
      * intros p Hp. destruct (decide (p = q)) as [-> | Hne].
        { rewrite lookup_insert_eq. eauto. }
        rewrite lookup_insert_ne by congruence.
        apply elem_of_app in Hp. destruct Hp as [Hp | Hp]; [apply Hin, Hp |].
        apply list_elem_of_singleton in Hp. contradiction.
      * intros p i Hp. destruct (decide (p = q)) as [-> | Hne].
        { rewrite lookup_insert_eq in Hp. injection Hp as <-.
          repeat split.
          - lia.
          - rewrite Hlen, lookup_app_r, Nat.sub_diag by lia. reflexivity.
          - intros j Hj Hjq. rewrite Hlen in Hj. rewrite lookup_app_l in Hjq by exact Hj.
            apply list_elem_of_lookup_2, Hin in Hjq. rewrite Eq in Hjq.
            destruct Hjq as [? [=]]. }
        rewrite lookup_insert_ne in Hp by congruence.
        apply first_occurrence_snoc, Hfirst, Hp.
Qed.

Lemma number_preorder_snoc (preorder : list Node) (n : Node) :
  number_preorder (preorder ++ [n]) = number_step (number_preorder preorder) n.
Proof. unfold number_preorder. rewrite fold_left_app. reflexivity. Qed.

Lemma last_with_key_snoc_old {K : Type} (key : Node -> K) (keep : Node -> bool)
    (l : list Node) (k : nat) (n x : Node) :
  last_with_key key keep (l ++ [x]) k n -> (k < length l)%nat ->
  last_with_key key keep l k n /\ (keep x = true -> key x <> key n).
Proof.
  intros (Hl & Hkeep & Hlast) Hk.
  rewrite lookup_app_l in Hl by exact Hk.
  split; [repeat split; [exact Hl | exact Hkeep |] |].
  - intros k' n' Hk' Hl'. apply (Hlast k' n' Hk').
    rewrite lookup_app_l by (apply lookup_lt_Some in Hl'; exact Hl'). exact Hl'.
  - apply (Hlast (length l) x Hk).
    rewrite lookup_app_r, Nat.sub_diag by lia. reflexivity.
Qed.

Lemma last_with_key_snoc_new {K : Type} (key : Node -> K) (keep : Node -> bool)
    (l : list Node) (k : nat) (n x : Node) :
  last_with_key key keep (l ++ [x]) k n -> (length l <= k)%nat ->
  k = length l /\ n = x.
Proof.
  intros (Hl & _ & _) Hk.
  pose proof (lookup_lt_Some _ _ _ Hl) as Hlt. rewrite length_app in Hlt. simpl in Hlt.
  assert (k = length l) by lia. subst k.
  rewrite lookup_app_r, Nat.sub_diag in Hl by lia. injection Hl as <-. auto.
Qed.

(** X7.  The first loop numbers the nodes in the order of the traversal: a
    node is given its position, the last node to carry an index keeps the
    id stored under it, and the reference map gives for every name the
    position of the last leaf of that name, and holds nothing else. *)
Theorem number_preorder_gives_positions (preorder : list Node) :
  (number_preorder preorder).2 = Z.of_nat (length preorder)
  /\ (forall k n, last_with_key index_ (fun _ => true) preorder k n ->
                  (number_preorder preorder).1.1 !! index_ n = Some (Z.of_nat k))
  /\ (forall k n, last_with_key name IsLeaf preorder k n ->
                  (number_preorder preorder).1.2 !! name n = Some (Z.of_nat k))
  /\ (forall s v, (number_preorder preorder).1.2 !! s = Some v ->
                  exists k n, v = Z.of_nat k /\ preorder !! k = Some n
                              /\ IsLeaf n = true /\ name n = s).
Proof.
  induction preorder as [| x l IH] using rev_ind.
  - split; [reflexivity | split; [| split]]; simpl.
    + intros k n (Hl & _). rewrite lookup_nil in Hl. discriminate.
    + intros k n (Hl & _). rewrite lookup_nil in Hl. discriminate.
    + intros s v H. rewrite lookup_empty in H. discriminate.
  - rewrite number_preorder_snoc.
    destruct (number_preorder l) as [[ids rm] c]. simpl in IH.
    destruct IH as (Hc & Hids & Hrm & Hsrc).
    unfold number_step. simpl.
    split; [rewrite length_app; simpl; lia |].
    split; [| split].
    + intros k n Hlast.
      destruct (Nat.lt_ge_cases k (length l)) as [Hk | Hk].
      * destruct (last_with_key_snoc_old _ _ l k n x Hlast Hk) as [Hold Hne].
        rewrite lookup_insert_ne by (apply Hne; reflexivity).
        apply Hids, Hold.
      * destruct (last_with_key_snoc_new _ _ l k n x Hlast Hk) as [-> ->].
        rewrite lookup_insert_eq, Hc. reflexivity.
    + intros k n Hlast.
      destruct (Nat.lt_ge_cases k (length l)) as [Hk | Hk].
      * destruct (last_with_key_snoc_old _ _ l k n x Hlast Hk) as [Hold Hne].
        destruct (IsLeaf x) eqn:Ex.
        -- rewrite lookup_insert_ne by (apply Hne; reflexivity). apply Hrm, Hold.
        -- apply Hrm, Hold.
      * destruct (last_with_key_snoc_new _ _ l k n x Hlast Hk) as [-> ->].
        destruct Hlast as (_ & Hleaf & _). simpl in Hleaf. rewrite Hleaf.
        rewrite lookup_insert_eq, Hc. reflexivity.
    + intros s v H.
      assert (Hold : rm !! s = Some v ->
                     exists k n, v = Z.of_nat k /\ (l ++ [x]) !! k = Some n
                                 /\ IsLeaf n = true /\ name n = s).
      { intros H'. destruct (Hsrc s v H') as (k & n & Hv & Hl & Hleaf & Hname).
        exists k, n. repeat split; try assumption.
        rewrite lookup_app_l by (apply lookup_lt_Some in Hl; exact Hl). exact Hl. }
      destruct (IsLeaf x) eqn:Ex; [| apply Hold, H].
      destruct (decide (name x = s)) as [E | E].
      * rewrite E, lookup_insert_eq in H. injection H as <-.
        exists (length l), x.
        split; [lia | split; [| split; [exact Ex | exact E]]].
        rewrite lookup_app_r, Nat.sub_diag by lia. reflexivity.
      * rewrite lookup_insert_ne in H by exact E. apply Hold, H.
Qed.

End PlausibilityLoops.

(* --------------------------------------------------------------------- *)
(** ** NewickProcessor: the order of the children                          *)
(* --------------------------------------------------------------------- *)

Section PrintingOrder.
Import NewickProcessor.

Variable double : Type.
Variable to_string : double -> string.
Variable StringReplaceAll : string -> string -> string -> string.

Local Abbreviation ElementToString := (ElementToString double to_string StringReplaceAll).
Local Abbreviation ToStringRec := (ToStringRec double to_string StringReplaceAll).
Local Abbreviation children_loop := (children_loop double).
Local Abbreviation Element := (NewickBrokerElement double).

(** The loop that joins the children puts a comma between two of them. *)
Lemma join_children_concat (children : list string) :
  forall i out,
    join_children i children out
    = match children with
      | [] => out
      | _ => ((if (0 <? i)%nat then out ++ "," else out)
              ++ String.concat "," children)%string
      end.
Proof.
  induction children as [| c rest IH]; intros i out; [reflexivity |].
  cbn [join_children]. rewrite IH.
  destruct rest as [| c' rest]; [reflexivity |].
  cbn [String.concat]. replace (0 <? S i)%nat with true by reflexivity.
  rewrite !string_app_assoc. reflexivity.
Qed.

(** The loop over the positions after a node, when [leaves] are the
    elements at those positions, all of them children of the node without
    children of their own, and the element after them (if there is one) is
    no deeper than the node. *)
Lemma children_loop_over_leaves (st : Statics) (rec : nat -> option string)
    (broker : list Element) (bn : Element) (leaves : list Element) :
  forall n i children,
    (forall k e, leaves !! k = Some e ->
                 broker !! (i + k)%nat = Some e /\ depth e = depth bn + 1
                 /\ rec (i + k)%nat = Some (ElementToString st e)) ->
    (length leaves <= n)%nat ->
    (n = length leaves
     \/ broker !! (i + length leaves)%nat = None
     \/ exists r, broker !! (i + length leaves)%nat = Some r /\ depth r <= depth bn) ->
    children_loop rec broker bn n i children
    = Some (rev (map (ElementToString st) leaves) ++ children).
Proof.
  induction leaves as [| e leaves IH]; intros n i children Hleaves Hn Hstop.
  - simpl in *. destruct n as [| n]; [reflexivity |]. simpl.
    rewrite Nat.add_0_r in Hstop.
    destruct Hstop as [Hstop | [Hstop | (r & Hr & Hdepth)]]; [lia | |].
    + rewrite Hstop. reflexivity.
    + rewrite Hr. replace (depth r >? depth bn) with false by lia. reflexivity.
  - destruct n as [| n]; [simpl in Hn; lia |].
    destruct (Hleaves 0%nat e eq_refl) as (Hb & Hd & Hrec).
    rewrite Nat.add_0_r in Hb, Hrec. simpl.
    rewrite Hb, Hrec.
    replace (depth e >? depth bn) with true by lia.
    replace (depth e >? depth bn + 1) with false by lia.
    rewrite (IH n (S i) (ElementToString st e :: children)).
    + rewrite <- app_assoc. reflexivity.
    + intros k e' Hk. replace (S i + k)%nat with (i + S k)%nat by lia.
      apply (Hleaves (S k) e' Hk).
    + simpl in Hn. lia.
    + simpl in Hstop. replace (S i + length leaves)%nat with (i + S (length leaves))%nat by lia.
      destruct Hstop as [Hstop | Hstop]; [left; lia | right; exact Hstop].
Qed.

(** X8.  A node whose children are all leaves is printed as the children in
    parentheses, joined by commas, in the reverse of their order in the
    broker, followed by the node itself; without children the parentheses
    are empty. *)
Theorem ToStringRec_prints_the_children_in_reverse
    (st : Statics) (before : list Element) (bn : Element)
    (leaves after : list Element) (fuel : nat) :
  rank bn <> 0 ->
  Forall (fun e => depth e = depth bn + 1 /\ rank e = 0) leaves ->
  match after with [] => True | r :: _ => depth r <= depth bn end ->
  (2 <= fuel)%nat ->
  ToStringRec st fuel (before ++ bn :: leaves ++ after) (length before)
  = Some ("(" ++ String.concat "," (rev (map (ElementToString st) leaves))
              ++ ")" ++ ElementToString st bn)%string.
Proof.
  intros Hrank Hleaves Hafter Hfuel.
  destruct fuel as [| [| fuel]]; [lia | lia |].
  set (broker := before ++ bn :: leaves ++ after).
  assert (Hbn : broker !! length before = Some bn).
  { unfold broker. rewrite lookup_app_r, Nat.sub_diag by lia. reflexivity. }
  assert (Hat : forall k, broker !! (S (length before) + k)%nat = (leaves ++ after) !! k).
  { intros k. unfold broker. rewrite lookup_app_r by lia.
    replace (S (length before) + k - length before)%nat with (S k) by lia. reflexivity. }
  cbn [NewickProcessor.ToStringRec]. rewrite Hbn.
  replace (rank bn =? 0) with false by lia.
  rewrite (children_loop_over_leaves st _ broker bn leaves).
  - rewrite app_nil_r, join_children_concat.
    destruct (rev (map (ElementToString st) leaves)); reflexivity.
  - intros k e Hk.
    assert (Hb : broker !! (S (length before) + k)%nat = Some e)
      by (rewrite Hat, lookup_app_l by (apply lookup_lt_Some in Hk; exact Hk); exact Hk).
    rewrite Forall_lookup in Hleaves. destruct (Hleaves k e Hk) as [Hd Hr].
    split; [exact Hb | split; [exact Hd |]].
    cbn [NewickProcessor.ToStringRec]. rewrite Hb.
    replace (rank e =? 0) with true by lia. reflexivity.
  - unfold broker. rewrite length_app. simpl. rewrite length_app. lia.
  - rewrite Hat, lookup_app_r, Nat.sub_diag by lia.
    destruct after as [| r after]; [right; left; reflexivity |].
    right. right. exists r. split; [reflexivity | exact Hafter].
Qed.

End PrintingOrder.

Lemma ToStringRec_prints_the_children_in_reverse_witness :
  NewickProcessor.ToStringRec string Examples.printed Examples.no_blank Examples.statics 2
    ([NewickProcessor.Element "R" "0.000000" [] [] 0 2;
      NewickProcessor.Element "C" "0.300000" [] [] 1 0]
     ++ NewickProcessor.Element "I" "0.500000" [] [] 1 2
        :: [NewickProcessor.Element "B" "0.200000" [] [] 2 0;
            NewickProcessor.Element "A" "0.100000" [] [] 2 0] ++ [])
    2
  = Some "(A:0.100000,B:0.200000)I:0.500000"%string.
Proof.
  apply (ToStringRec_prints_the_children_in_reverse string Examples.printed
           Examples.no_blank Examples.statics
           [NewickProcessor.Element "R" "0.000000" [] [] 0 2;
            NewickProcessor.Element "C" "0.300000" [] [] 1 0]
           (NewickProcessor.Element "I" "0.500000" [] [] 1 2)
           [NewickProcessor.Element "B" "0.200000" [] [] 2 0;
            NewickProcessor.Element "A" "0.100000" [] [] 2 0] [] 2).
  - simpl. lia.
  - repeat constructor.
  - exact I.
  - lia.
Defined.

(* --------------------------------------------------------------------- *)
(** ** Lexer: what ValidateBrackets accepts                                *)
(* --------------------------------------------------------------------- *)

Section BracketNesting.
Import Lexer Brackets.

Lemma validate_token_kind (t : LexerToken) (stk : list ascii) :
  validate_token t stk
  = match bracket_kind t with
    | Other => Some stk
    | Opens x => Some (x :: stk)
    | Closes x =>
      match stk with
      | [] => None
      | top :: rest => if Ascii.eqb x top then Some rest else None
      end
    end.
Proof.
  unfold validate_token, bracket_kind.
  destruct (negb (IsBracket t)); [reflexivity |]. cbv zeta.
  destruct (Ascii.eqb_spec (front_char (value_ t)) "(") as [-> | _]; [reflexivity |].
  destruct (Ascii.eqb_spec (front_char (value_ t)) "[") as [-> | _]; [reflexivity |].
  destruct (Ascii.eqb_spec (front_char (value_ t)) "{") as [-> | _]; [reflexivity |].
  destruct (Ascii.eqb_spec (front_char (value_ t)) "<") as [-> | _]; [reflexivity |].
  destruct (_ || _ || _ || _); [| reflexivity].
  destruct stk as [| top rest]; [reflexivity |].
  destruct (Ascii.eqb (front_char (value_ t)) top); reflexivity.
Qed.

Lemma opens_is_closing (t : LexerToken) (x : ascii) :
  bracket_kind t = Opens x -> is_closing x = true.
Proof.
  unfold bracket_kind. repeat case_match; intros [= <-]; reflexivity.
Qed.

Lemma closing_token_kind (c : ascii) :
  is_closing c = true -> bracket_kind (closing_token c) = Closes c.
Proof.
  unfold is_closing, bracket_kind, closing_token. simpl. intros H.
  destruct (Ascii.eqb_spec c "(") as [-> | _]; [discriminate |].
  destruct (Ascii.eqb_spec c "[") as [-> | _]; [discriminate |].
  destruct (Ascii.eqb_spec c "{") as [-> | _]; [discriminate |].
  destruct (Ascii.eqb_spec c "<") as [-> | _]; [discriminate |].
  rewrite H. reflexivity.
Qed.

Lemma validate_loop_final_stack (ts : list LexerToken) :
  forall stk, validate_loop ts stk = true <-> is_Some (final_stack ts stk).
Proof.
  induction ts as [| t ts IH]; intros stk; simpl.
  - split; eauto.
  - destruct (validate_token t stk); [apply IH |].
    split; [discriminate | intros [? [=]]].
Qed.

Lemma final_stack_app (ts1 ts2 : list LexerToken) :
  forall stk,
    final_stack (ts1 ++ ts2) stk
    = match final_stack ts1 stk with
      | Some stk' => final_stack ts2 stk'
      | None => None
      end.
Proof.
  induction ts1 as [| t ts1 IH]; intros stk; simpl; [reflexivity |].
  destruct (validate_token t stk); [apply IH | reflexivity].
Qed.

(** A nested sequence leaves the stack as it found it. *)
Lemma nested_final_stack (ts : list LexerToken) :
  nested ts -> forall stk, final_stack ts stk = Some stk.
Proof.
  induction 1 as [| t ts Ht _ IH | o c x inner ts Ho Hc _ IHinner _ IHts]; intros stk.
  - reflexivity.
  - simpl. rewrite validate_token_kind, Ht. apply IH.
  - simpl. rewrite validate_token_kind, Ho, final_stack_app, IHinner. simpl.
    rewrite validate_token_kind, Hc, Ascii.eqb_refl. apply IHts.
Qed.

(** The tokens up to the one that takes [x] from the stack. *)
Lemma final_stack_pops (n : nat) :
  forall ts x stk out,
    (length ts <= n)%nat ->
    final_stack ts (x :: stk) = Some out ->
    (length out <= length stk)%nat ->
    exists inner c rest,
      ts = inner ++ c :: rest
      /\ (forall s, final_stack inner s = Some s)
      /\ bracket_kind c = Closes x
      /\ final_stack rest stk = Some out.
Proof.
  induction n as [n IH] using lt_wf_ind. intros ts x stk out Hn Hrun Hout.
  destruct ts as [| t ts]; simpl in Hrun, Hn.
  { injection Hrun as <-. simpl in Hout. lia. }
  rewrite validate_token_kind in Hrun.
  destruct (bracket_kind t) as [y | y |] eqn:Et.
  - destruct (IH (length ts) ltac:(lia) ts y (x :: stk) out (le_n _) Hrun
                ltac:(simpl; lia))
      as (inner1 & c1 & rest1 & -> & Hinner1 & Hc1 & Hrest1).
    rewrite length_app in Hn. simpl in Hn.
    destruct (IH (length rest1) ltac:(lia) rest1 x stk out (le_n _) Hrest1 Hout)
      as (inner2 & c2 & rest2 & -> & Hinner2 & Hc2 & Hrest2).
    exists (t :: inner1 ++ c1 :: inner2), c2, rest2.
    split; [simpl; rewrite <- app_assoc; reflexivity |].
    split; [| split; [exact Hc2 | exact Hrest2]].
    intros s. simpl. rewrite validate_token_kind, Et, final_stack_app, Hinner1.
    simpl. rewrite validate_token_kind, Hc1, Ascii.eqb_refl. apply Hinner2.
  - destruct (Ascii.eqb_spec y x) as [-> | Hne]; [| discriminate].
    exists [], t, ts.
    split; [reflexivity | split; [reflexivity | split; [exact Et | exact Hrun]]].
  - destruct (IH (length ts) ltac:(lia) ts x stk out (le_n _) Hrun Hout)
      as (inner & c & rest & -> & Hinner & Hc & Hrest).
    exists (t :: inner), c, rest.
    split; [reflexivity | split; [| split; [exact Hc | exact Hrest]]].
    intros s. simpl. rewrite validate_token_kind, Et. apply Hinner.
Qed.


(** A sequence that empties the stack it started with is nested. *)
Lemma final_stack_nested (n : nat) :
  forall ts, (length ts <= n)%nat -> final_stack ts [] = Some [] -> nested ts.
Proof.
  induction n as [n IH] using lt_wf_ind. intros ts Hn Hrun.
  destruct ts as [| t ts]; [constructor |]. simpl in Hrun, Hn.
  rewrite validate_token_kind in Hrun.
  destruct (bracket_kind t) as [x | x |] eqn:Et.
  - destruct (final_stack_pops (length ts) ts x [] [] (le_n _) Hrun (le_n _))
      as (inner & c & rest & -> & Hinner & Hc & Hrest).
    rewrite length_app in Hn. simpl in Hn.
    apply (nested_pair t c x); [exact Et | exact Hc | |].
    + apply (IH (length inner)); [lia | lia | apply Hinner].
    + apply (IH (length rest)); [lia | lia | exact Hrest].
  - discriminate.
  - apply nested_other; [exact Et |].
    apply (IH (length ts)); [lia | lia | exact Hrun].
Qed.

(** The stack holds closing brackets only. *)
Lemma final_stack_closing (ts : list LexerToken) :
  forall stk out,
    Forall (fun c => is_closing c = true) stk ->
    final_stack ts stk = Some out ->
    Forall (fun c => is_closing c = true) out.
Proof.
  induction ts as [| t ts IH]; intros stk out Hstk; simpl.
  - intros [= <-]. exact Hstk.
  - rewrite validate_token_kind.
    destruct (bracket_kind t) as [x | x |] eqn:Et.
    + apply IH. constructor; [apply (opens_is_closing t x Et) | exact Hstk].
    + destruct stk as [| top rest]; [discriminate |].
      destruct (Ascii.eqb x top); [| discriminate].
      apply IH. inversion Hstk; assumption.
    + apply IH, Hstk.
Qed.

(** The closing brackets the stack asks for empty it. *)
Lemma final_stack_closers (stk : list ascii) :
  Forall (fun c => is_closing c = true) stk ->
  final_stack (map closing_token stk) stk = Some [].
Proof.
  induction 1 as [| c stk Hc _ IH]; [reflexivity |].
  simpl map. cbn [final_stack].
  rewrite validate_token_kind, (closing_token_kind c Hc), Ascii.eqb_refl. exact IH.
Qed.

(** X9.  [ValidateBrackets] accepts exactly the token sequences that can be
    continued to a validly nested one: it rejects a closing bracket that
    does not match the innermost open one, whatever follows, and accepts
    every beginning of a nested sequence, whether or not the brackets it
    opens are closed. *)
Theorem ValidateBrackets_accepts_the_beginnings_of_nested (tokens_ : list LexerToken) :
  ValidateBrackets tokens_ = true <-> exists rest, nested (tokens_ ++ rest).
Proof.
  unfold ValidateBrackets. rewrite validate_loop_final_stack. split.
  - intros [stk Hstk].
    pose proof (final_stack_closing tokens_ [] stk (Forall_nil_2 _) Hstk) as Hclosing.
    exists (map closing_token stk).
    apply (final_stack_nested (length (tokens_ ++ map closing_token stk))); [lia |].
    rewrite final_stack_app, Hstk. apply final_stack_closers, Hclosing.
  - intros [rest Hnested].
    pose proof (nested_final_stack _ Hnested []) as Hrun.
    rewrite final_stack_app in Hrun.
    destruct (final_stack tokens_ []); [eauto | discriminate].
Qed.

(** The tokens that are not bracket tokens play no part in the
    validation. *)
Lemma ValidateBrackets_looks_at_bracket_tokens_only (tokens_ : list LexerToken) :
  ValidateBrackets tokens_ = ValidateBrackets (List.filter IsBracket tokens_).
Proof.
  unfold ValidateBrackets. generalize (@nil ascii).
  induction tokens_ as [| t ts IH]; intros stk; [reflexivity |].
  simpl. destruct (IsBracket t) eqn:Et.
  - simpl. destruct (validate_token t stk); [apply IH | reflexivity].
  - unfold validate_token. rewrite Et. simpl. apply IH.
Qed.

End BracketNesting.

(* --------------------------------------------------------------------- *)
(** ** Lexer: the scanners and the steps                                   *)
(* --------------------------------------------------------------------- *)

Section ScannerFacts.
Import Lexer Notions.
Local Open Scope nat_scope.

Variable StringDeescape : string -> string.
Variable StringReplaceAll : string -> string -> string -> string.

Local Abbreviation ScanString := (ScanString StringDeescape StringReplaceAll).
Local Abbreviation ProcessStep := (ProcessStep StringDeescape StringReplaceAll).
Local Abbreviation process_loop := (process_loop StringDeescape StringReplaceAll).
Local Abbreviation ProcessString := (ProcessString StringDeescape StringReplaceAll).

(** *** The loops of the scanners change the position only *)

Lemma NextChar_set_itr (l : Lexer) (k : nat) : NextChar (set_itr l k) = set_itr l (S k).
Proof. reflexivity. Qed.

Lemma scan_type_loop_run (t : LexerTokenType) (n : nat) :
  forall l,
    len_ l - itr_ l <= n ->
    exists k,
      scan_type_loop n t l = set_itr l k /\ itr_ l <= k
      /\ (forall q, itr_ l <= q < k -> q < len_ l /\ start_char_table_ l (char_at (text_ l) q) = t)
      /\ (k < len_ l -> start_char_table_ l (char_at (text_ l) k) <> t).
Proof.
  induction n as [| n IH]; intros l Hn.
  - exists (itr_ l). simpl. rewrite set_itr_same.
    split; [reflexivity | split; [lia | split; [intros q Hq; lia | intros Hk; lia]]].
  - simpl. destruct (IsEnd l) eqn:Eend.
    + exists (itr_ l). simpl. rewrite set_itr_same. unfold IsEnd in Eend.
      apply Nat.leb_le in Eend.
      split; [reflexivity | split; [lia | split; [intros q Hq; lia | intros Hk; lia]]].
    + simpl. unfold IsEnd in Eend. apply Nat.leb_gt in Eend.
      destruct (type_eqb (GetCharType l) t) eqn:Et.
      * destruct (IH (NextChar l)) as (k & Hrun & Hk & Hall & Hstop).
        { unfold len_ in *. simpl. lia. }
        exists k. simpl in *. rewrite Hrun.
        split; [reflexivity | split; [lia | split; [| exact Hstop]]].
        intros q Hq. destruct (Nat.eq_dec q (itr_ l)) as [-> | Hne].
        -- split; [exact Eend |]. unfold GetCharType, GetChar in Et.
           destruct (start_char_table_ l (char_at (text_ l) (itr_ l))), t;
             try discriminate; reflexivity.
        -- apply Hall. lia.
      * exists (itr_ l). rewrite set_itr_same.
        split; [reflexivity | split; [lia | split; [intros q Hq; lia |]]].
        intros _ E. unfold GetCharType, GetChar in Et. rewrite E in Et.
        destruct t; discriminate.
Qed.

(** X10.  A symbol token (and a token of unknown characters) is the longest
    run of characters of its type that starts at the position of the
    scanner. *)
Theorem ScanSymbol_takes_the_longest_run (l : Lexer) :
  (exists k,
     ScanSymbol l
     = (true, PushToken kSymbol (itr_ l)
                (String.substring (itr_ l) (k - itr_ l) (text_ l)) (set_itr l k))
     /\ itr_ l <= k
     /\ (forall q, itr_ l <= q < k ->
                   q < len_ l /\ start_char_table_ l (char_at (text_ l) q) = kSymbol)
     /\ (k < len_ l -> start_char_table_ l (char_at (text_ l) k) <> kSymbol))
  /\ (exists k,
        ScanUnknown l
        = (true, PushToken kUnknown (itr_ l)
                   (String.substring (itr_ l) (k - itr_ l) (text_ l)) (set_itr l k))
        /\ itr_ l <= k
        /\ (forall q, itr_ l <= q < k ->
                      q < len_ l /\ start_char_table_ l (char_at (text_ l) q) = kUnknown)
        /\ (k < len_ l -> start_char_table_ l (char_at (text_ l) k) <> kUnknown)).
Proof.
  split.
  - destruct (scan_type_loop_run kSymbol (len_ l - itr_ l) l (le_n _))
      as (k & Hrun & Hk & Hall & Hstop).
    exists k. unfold ScanSymbol. rewrite Hrun. auto.
  - destruct (scan_type_loop_run kUnknown (len_ l - itr_ l) l (le_n _))
      as (k & Hrun & Hk & Hall & Hstop).
    exists k. unfold ScanUnknown. rewrite Hrun. auto.
Qed.

Lemma number_loop_run (start : nat) (n : nat) :
  forall l found_d found_e,
    exists k err,
      number_loop n start l found_d found_e = (set_itr l k, err)
      /\ itr_ l <= k /\ (err = true -> k = start).
Proof.
  induction n as [| n IH]; intros l found_d found_e.
  { exists (itr_ l), false. simpl. rewrite set_itr_same. repeat split; [lia | discriminate]. }
  assert (Hstay : forall err, (err = true -> itr_ l = start) ->
            exists k err', (l, err) = (set_itr l k, err')
                           /\ itr_ l <= k /\ (err' = true -> k = start)).
  { intros err Herr. exists (itr_ l), err. rewrite set_itr_same. auto. }
  assert (Hgo : forall fd fe,
            exists k err', number_loop n start (NextChar l) fd fe = (set_itr l k, err')
                           /\ itr_ l <= k /\ (err' = true -> k = start)).
  { intros fd fe. destruct (IH (NextChar l) fd fe) as (k & err & Hrun & Hk & Herr).
    exists k, err. simpl in *. rewrite Hrun. repeat split; [lia | exact Herr]. }
  assert (Hpos : (GetPosition l =? start) = true -> itr_ l = start)
    by (intros H; apply Nat.eqb_eq in H; exact H).
  simpl. repeat case_match; try (apply Hstay; first [discriminate | exact Hpos]); apply Hgo.
Qed.

(** X11.  When the number scanner fails it has consumed nothing: the error
    token is at the position the scanner started on, and the position of
    the lexer has not moved. *)
Theorem ScanNumber_fails_only_at_its_start (l l' : Lexer) :
  ScanNumber l = (false, l') ->
  l' = PushToken kError (itr_ l) "Malformed number." l.
Proof.
  unfold ScanNumber.
  destruct (number_loop_run (GetPosition l) (len_ l - itr_ l) l false false)
    as (k & err & Hrun & Hk & Herr).
  rewrite Hrun. destruct err; [| discriminate].
  intros [= <-]. rewrite (Herr eq_refl). unfold GetPosition. simpl.
  rewrite set_itr_same. reflexivity.
Qed.

(** X12.  Started on a digit, the number scanner never fails: it gives a
    number token that begins with that digit. *)
Theorem ScanNumber_on_a_digit_gives_a_number (l : Lexer) :
  IsEnd l = false -> CharIsDigit (GetChar l) = true ->
  exists k,
    ScanNumber l
    = (true, PushToken kNumber (itr_ l)
               (String.substring (itr_ l) (k - itr_ l) (text_ l)) (set_itr l k))
    /\ itr_ l < k.
Proof.
  intros Hend Hdigit. unfold ScanNumber.
  unfold IsEnd in Hend. apply Nat.leb_gt in Hend.
  destruct (len_ l - itr_ l) as [| n] eqn:En; [lia |].
  cbn [number_loop]. unfold IsEnd. replace (len_ l <=? itr_ l) with false
    by (symmetry; apply Nat.leb_gt; lia).
  rewrite Hdigit.
  destruct (number_loop_run (GetPosition l) n (NextChar l) false false)
    as (k & err & Hrun & Hk & Herr).
  rewrite Hrun. simpl in Hk. destruct err.
  - specialize (Herr eq_refl). unfold GetPosition in Herr. lia.
  - exists k. split; [reflexivity | lia].
Qed.


(** *** The string scanner *)

Lemma plain_at_cons (l : Lexer) (qmark : ascii) (p d : nat) :
  plain_at l qmark p (S d) = true ->
  (Ascii.eqb (char_at (text_ l) p) "\" && use_string_escape l) = false
  /\ Ascii.eqb (char_at (text_ l) p) qmark = false
  /\ plain_at l qmark (S p) d = true.
Proof.
  unfold plain_at. simpl. intros H.
  apply andb_prop in H. destruct H as [H1 H2].
  apply andb_prop in H1. destruct H1 as [Ha Hb].
  apply negb_true_iff in Ha, Hb. auto.
Qed.

Lemma plain_at_last (l : Lexer) (qmark : ascii) (p d : nat) :
  plain_at l qmark p (S d) = true ->
  Ascii.eqb (char_at (text_ l) (p + d)) qmark = false.
Proof.
  revert p. induction d as [| d IH]; intros p H.
  - rewrite Nat.add_0_r. apply (plain_at_cons l qmark p 0 H).
  - destruct (plain_at_cons l qmark p (S d) H) as (_ & _ & Hrest).
    replace (p + S d) with (S p + d) by lia. apply IH, Hrest.
Qed.

Lemma string_loop_step (n : nat) (qmark : ascii) (l : Lexer) (jump found_e found_q : bool) :
  string_loop (S n) qmark l jump found_e found_q
  = if IsEnd l then (l, (jump, found_e, found_q))
    else if Ascii.eqb (GetChar l) "\" && use_string_escape l then
      string_loop n qmark (NextChar (NextChar l)) true true found_q
    else if Ascii.eqb (GetChar l) qmark && Ascii.eqb (GetCharOff l 1) qmark
            && use_string_doubled_quotes l then
      string_loop n qmark (NextChar (NextChar l)) true found_e true
    else if Ascii.eqb (GetChar l) qmark then
      (NextChar l, (jump, found_e, found_q))
    else string_loop n qmark (NextChar l) false found_e found_q.
Proof. reflexivity. Qed.

(** The loop over [d] plain characters. *)
Lemma string_loop_over_plain (qmark : ascii) (d : nat) :
  forall n l jump found_e found_q,
    plain_at l qmark (itr_ l) d = true ->
    itr_ l + d <= len_ l -> d <= n ->
    string_loop n qmark l jump found_e found_q
    = string_loop (n - d) qmark (set_itr l (itr_ l + d))
        (match d with 0 => jump | S _ => false end) found_e found_q.
Proof.
  induction d as [| d IH]; intros n l jump found_e found_q Hplain Hlen Hn.
  - rewrite Nat.sub_0_r, Nat.add_0_r, set_itr_same. reflexivity.
  - destruct n as [| n]; [lia |].
    destruct (plain_at_cons l qmark (itr_ l) d Hplain) as (Hesc & Hq & Hrest).
    cbn [string_loop]. unfold IsEnd, GetChar.
    replace (len_ l <=? itr_ l) with false by (symmetry; apply Nat.leb_gt; lia).
    rewrite Hesc, Hq. cbn [andb].
    rewrite (IH n (NextChar l) false found_e found_q);
      [| exact Hrest | unfold len_ in *; simpl; lia | lia].
    simpl. replace (S (itr_ l + d)) with (itr_ l + S d) by lia.
    destruct d; reflexivity.
Qed.

(** X13.  A quotation mark, [d] plain characters and the same quotation mark
    again are scanned as one string token that holds the characters in
    between (with the marks around them when they are not to be trimmed);
    the lexer is then behind the closing mark. *)
Theorem ScanString_reads_a_closed_string (l : Lexer) (d : nat) :
  let qmark := GetChar l in
  let body := String.substring (itr_ l + 1) d (text_ l) in
  plain_at l qmark (itr_ l + 1) d = true ->
  itr_ l + 1 + d < len_ l ->
  char_at (text_ l) (itr_ l + 1 + d) = qmark ->
  (Ascii.eqb qmark "\" && use_string_escape l) = false ->
  (Ascii.eqb (char_at (text_ l) (itr_ l + 2 + d)) qmark
   && use_string_doubled_quotes l) = false ->
  ScanString l
  = (true,
     PushToken kString (itr_ l)
       (if negb (trim_quotation_marks l)
        then String qmark (body ++ String qmark EmptyString)
        else body)
       (set_itr l (itr_ l + d + 2))).
Proof.
  intros qmark body Hplain Hlen Hclose Hesc Hdouble.
  unfold Lexer.ScanString. fold qmark.
  assert (Hend1 : IsEnd (NextChar l) = false)
    by (unfold IsEnd; simpl; apply Nat.leb_gt; unfold len_ in *; simpl; lia).
  rewrite Hend1.
  assert (Hn : len_ (NextChar l) - itr_ (NextChar l) = S (len_ l - itr_ l - 2 - d) + d)
    by (unfold len_ in *; simpl; lia).
  rewrite Hn.
  rewrite (string_loop_over_plain qmark d);
    [| simpl; replace (S (itr_ l)) with (itr_ l + 1) by lia; exact Hplain
     | unfold len_ in *; simpl; lia | lia].
  replace (S (len_ l - itr_ l - 2 - d) + d - d) with (S (len_ l - itr_ l - 2 - d)) by lia.
  set (l1 := set_itr (NextChar l) (itr_ (NextChar l) + d)).
  assert (Hitr1 : itr_ l1 = itr_ l + 1 + d) by (unfold l1; simpl; lia).
  assert (Htext1 : text_ l1 = text_ l) by reflexivity.
  cbn [string_loop]. unfold IsEnd, GetChar, GetCharOff.
  rewrite Htext1, Hitr1.
  replace (len_ l1 <=? itr_ l + 1 + d) with false
    by (symmetry; apply Nat.leb_gt; unfold len_ in *; rewrite Htext1; lia).
  rewrite Hclose.
  replace (use_string_escape l1) with (use_string_escape l) by reflexivity.
  replace (use_string_doubled_quotes l1) with (use_string_doubled_quotes l) by reflexivity.
  rewrite Hesc, Ascii.eqb_refl.
  replace (Z.to_nat (Z.of_nat (itr_ l + 1 + d) + 1)) with (itr_ l + 2 + d) by lia.
  cbn [andb]. rewrite Hdouble. cbv beta iota.
  set (l2 := NextChar l1).
  assert (Hitr2 : itr_ l2 = itr_ l + d + 2) by (unfold l2; simpl; lia).
  assert (Hjump : match d with 0 => false | S _ => false end = false) by (destruct d; reflexivity).
  rewrite Hjump.
  assert (Hback : char_at (text_ l2) (Z.to_nat (Z.of_nat (itr_ l2) + -1)) = qmark).
  { rewrite Hitr2.
    replace (Z.to_nat (Z.of_nat (itr_ l + d + 2) + -1)) with (itr_ l + 1 + d) by lia.
    exact Hclose. }
  rewrite Hback, Ascii.eqb_refl. cbn [negb orb andb].
  rewrite andb_false_r. cbn [andb].
  unfold GetSubstr, GetPosition. rewrite Hitr2. simpl itr_.
  replace (itr_ l + d + 2 - 1 - S (itr_ l)) with d by lia.
  replace (S (itr_ l) - 1) with (itr_ l) by lia.
  replace (S (itr_ l)) with (itr_ l + 1) by lia.
  replace (text_ l2) with (text_ l) by reflexivity.
  replace (trim_quotation_marks l2) with (trim_quotation_marks l) by reflexivity.
  fold body.
  replace l2 with (set_itr l (itr_ l + d + 2)); [reflexivity |].
  unfold l2, l1, NextChar. rewrite !set_itr_set_itr. f_equal. simpl. lia.
Qed.


(** X14.  A quotation mark and plain characters up to the end of the text,
    without a closing mark, give the error token of the string scanner, at
    the position of the opening mark. *)
Theorem ScanString_reports_an_open_string (l : Lexer) (d : nat) :
  plain_at l (GetChar l) (itr_ l + 1) d = true ->
  len_ l = itr_ l + 1 + d ->
  ScanString l
  = (false, PushToken kError (itr_ l) "Malformed string." (set_itr l (itr_ l + 1 + d))).
Proof.
  intros Hplain Hlen. unfold Lexer.ScanString.
  destruct d as [| d].
  - assert (Hend1 : IsEnd (NextChar l) = true)
      by (unfold IsEnd; simpl; apply Nat.leb_le; unfold len_ in *; simpl; lia).
    rewrite Hend1. unfold GetPosition, NextChar. simpl itr_.
    replace (S (itr_ l) - 1) with (itr_ l) by lia.
    replace (itr_ l + 1 + 0) with (S (itr_ l)) by lia. reflexivity.
  - assert (Hend1 : IsEnd (NextChar l) = false)
      by (unfold IsEnd; simpl; apply Nat.leb_gt; unfold len_ in *; simpl; lia).
    rewrite Hend1.
    assert (Hn : len_ (NextChar l) - itr_ (NextChar l) = S d)
      by (unfold len_ in *; simpl; lia).
    rewrite Hn.
    rewrite (string_loop_over_plain (GetChar l) (S d));
      [| simpl; replace (S (itr_ l)) with (itr_ l + 1) by lia; exact Hplain
       | unfold len_ in *; simpl; lia | lia].
    rewrite Nat.sub_diag. cbn [string_loop]. cbv beta iota.
    set (l1 := set_itr (NextChar l) (itr_ (NextChar l) + S d)).
    assert (Hend : IsEnd l1 = true)
      by (unfold IsEnd, l1; simpl; apply Nat.leb_le; unfold len_ in *; simpl; lia).
    assert (Hback : Ascii.eqb (GetCharOff l1 (-1)) (GetChar l) = false).
    { unfold GetCharOff, l1. simpl itr_. simpl text_.
      replace (Z.to_nat (Z.of_nat (S (itr_ l + S d)) + -1)) with (itr_ l + 1 + d) by lia.
      apply (plain_at_last l (GetChar l) (itr_ l + 1) d Hplain). }
    rewrite Hend, Hback. cbn [negb orb andb].
    unfold GetPosition. simpl itr_.
    replace (S (itr_ l) - 1) with (itr_ l) by lia.
    unfold l1, NextChar. rewrite set_itr_set_itr. simpl itr_.
    replace (S (itr_ l) + S d) with (itr_ l + 1 + S d) by lia. reflexivity.
Qed.

(** X15.  When doubled quotation marks stand for a quotation mark inside a
    string, a string whose last character is such a doubled mark is
    reported as malformed, although its closing mark is there: the flag
    [jump] is still set when the closing mark ends the loop. *)
Theorem ScanString_rejects_a_doubled_mark_at_the_end (l : Lexer) (d : nat) :
  let qmark := GetChar l in
  use_string_doubled_quotes l = true ->
  (Ascii.eqb qmark "\" && use_string_escape l) = false ->
  plain_at l qmark (itr_ l + 1) d = true ->
  char_at (text_ l) (itr_ l + 1 + d) = qmark ->
  char_at (text_ l) (itr_ l + 2 + d) = qmark ->
  char_at (text_ l) (itr_ l + 3 + d) = qmark ->
  Ascii.eqb (char_at (text_ l) (itr_ l + 4 + d)) qmark = false ->
  itr_ l + 3 + d < len_ l ->
  ScanString l
  = (false, PushToken kError (itr_ l) "Malformed string." (set_itr l (itr_ l + d + 4))).
Proof.
  intros qmark Hdoubled Hesc Hplain Hq1 Hq2 Hq3 Hq4 Hlen.
  unfold Lexer.ScanString. fold qmark.
  assert (Hend1 : IsEnd (NextChar l) = false)
    by (unfold IsEnd; simpl; apply Nat.leb_gt; unfold len_ in *; simpl; lia).
  rewrite Hend1.
  assert (Hn : len_ (NextChar l) - itr_ (NextChar l)
               = S (S (len_ l - itr_ l - 3 - d)) + d)
    by (unfold len_ in *; simpl; lia).
  rewrite Hn.
  rewrite (string_loop_over_plain qmark d);
    [| simpl; replace (S (itr_ l)) with (itr_ l + 1) by lia; exact Hplain
     | unfold len_ in *; simpl; lia | lia].
  replace (S (S (len_ l - itr_ l - 3 - d)) + d - d)
    with (S (S (len_ l - itr_ l - 3 - d))) by lia.
  unfold NextChar at 1 2. rewrite set_itr_set_itr. simpl itr_.
  set (l1 := set_itr l (S (itr_ l) + d)).
  (* the doubled mark *)
  assert (HE1 : IsEnd l1 = false)
    by (unfold IsEnd, l1; simpl; apply Nat.leb_gt; unfold len_ in *; simpl; lia).
  assert (HG1 : GetChar l1 = qmark)
    by (unfold GetChar, l1; simpl;
        replace (S (itr_ l + d)) with (itr_ l + 1 + d) by lia; exact Hq1).
  assert (HO1 : GetCharOff l1 1 = qmark).
  { unfold GetCharOff, l1. simpl.
    replace (Z.to_nat (Z.of_nat (S (itr_ l + d)) + 1)) with (itr_ l + 2 + d) by lia.
    exact Hq2. }
  rewrite string_loop_step, HE1, HG1, HO1.
  replace (use_string_escape l1) with (use_string_escape l) by reflexivity.
  replace (use_string_doubled_quotes l1) with (use_string_doubled_quotes l) by reflexivity.
  rewrite Hesc, Hdoubled, Ascii.eqb_refl. cbn [andb]. cbv beta match.
  (* the closing mark *)
  set (l2 := NextChar (NextChar l1)).
  assert (HE2 : IsEnd l2 = false)
    by (unfold IsEnd, l2, l1; simpl; apply Nat.leb_gt; unfold len_ in *; simpl; lia).
  assert (HG2 : GetChar l2 = qmark)
    by (unfold GetChar, l2, l1; simpl;
        replace (S (S (S (itr_ l + d)))) with (itr_ l + 3 + d) by lia; exact Hq3).
  assert (HO2 : Ascii.eqb (GetCharOff l2 1) qmark = false).
  { unfold GetCharOff, l2, l1. simpl.
    replace (Z.to_nat (Z.of_nat (S (S (S (itr_ l + d)))) + 1)) with (itr_ l + 4 + d) by lia.
    exact Hq4. }
  rewrite string_loop_step, HE2, HG2, HO2.
  replace (use_string_escape l2) with (use_string_escape l) by reflexivity.
  rewrite Hesc, Ascii.eqb_refl. cbn [andb orb]. cbv beta match. cbn [orb].
  unfold GetPosition. simpl itr_.
  replace (S (itr_ l) - 1) with (itr_ l) by lia.
  replace (NextChar l2) with (set_itr l (itr_ l + d + 4)); [reflexivity |].
  unfold l2, l1, NextChar. rewrite !set_itr_set_itr. f_equal. simpl. lia.
Qed.


(** *** The scanner of ranges *)

Lemma advance_set_itr (n : nat) : forall l, advance n l = set_itr l (itr_ l + n).
Proof.
  induction n as [| n IH]; intros l; simpl.
  - rewrite Nat.add_0_r, set_itr_same. reflexivity.
  - rewrite IH. unfold NextChar. rewrite set_itr_set_itr. f_equal. simpl. lia.
Qed.

Lemma find_loop_run (to : string) (n : nat) :
  forall l,
    len_ l - itr_ l <= n ->
    exists k,
      find_loop n to l = set_itr l k /\ itr_ l <= k
      /\ (forall q, itr_ l <= q < k ->
                    q < len_ l /\ String.substring q (String.length to) (text_ l) <> to)
      /\ (k < len_ l -> String.substring k (String.length to) (text_ l) = to).
Proof.
  induction n as [| n IH]; intros l Hn.
  - exists (itr_ l). simpl. rewrite set_itr_same.
    split; [reflexivity | split; [lia | split; [intros q Hq; lia | intros Hk; lia]]].
  - simpl. destruct (IsEnd l) eqn:Eend.
    + exists (itr_ l). simpl. rewrite set_itr_same. unfold IsEnd in Eend.
      apply Nat.leb_le in Eend.
      split; [reflexivity | split; [lia | split; [intros q Hq; lia | intros Hk; lia]]].
    + simpl. unfold IsEnd in Eend. apply Nat.leb_gt in Eend.
      destruct (at_cursor l to) eqn:Eat; simpl.
      * exists (itr_ l). rewrite set_itr_same.
        split; [reflexivity | split; [lia | split; [intros q Hq; lia |]]].
        intros _. unfold at_cursor in Eat. apply String.eqb_eq in Eat. exact Eat.
      * destruct (IH (NextChar l)) as (k & Hrun & Hk & Hall & Hstop).
        { unfold len_ in *. simpl. lia. }
        exists k. simpl in *. rewrite Hrun.
        split; [reflexivity | split; [lia | split; [| exact Hstop]]].
        intros q Hq. destruct (Nat.eq_dec q (itr_ l)) as [-> | Hne].
        -- split; [exact Eend |]. unfold at_cursor in Eat.
           apply String.eqb_neq in Eat. exact Eat.
        -- apply Hall. lia.
Qed.

(** X16.  [ScanFromTo] returns true exactly when the text goes on with [from]
    and holds [to] further on; the lexer is then behind the first [to]
    after [from].  Otherwise it has not moved (no [from] here), or it is at
    the end of the text (no [to] after [from]). *)
Theorem ScanFromTo_finds_the_first_occurrence (from to : string) (l : Lexer) :
  match ScanFromTo from to l with
  | (true, l1) =>
    exists k,
      l1 = set_itr l (k + String.length to)
      /\ IsEnd l = false /\ at_cursor l from = true
      /\ itr_ l + String.length from <= k < len_ l
      /\ String.substring k (String.length to) (text_ l) = to
      /\ (forall q, itr_ l + String.length from <= q < k ->
                    String.substring q (String.length to) (text_ l) <> to)
  | (false, l1) =>
    (l1 = l /\ (IsEnd l = true \/ at_cursor l from = false))
    \/ (IsEnd l = false /\ at_cursor l from = true
        /\ IsEnd l1 = true /\ moved l l1 /\ tokens_ l1 = tokens_ l
        /\ (forall q, itr_ l + String.length from <= q < len_ l ->
                      String.substring q (String.length to) (text_ l) <> to))
  end.
Proof.
  unfold ScanFromTo.
  destruct (IsEnd l) eqn:Eend; cbn [orb]; [left; auto |].
  destruct (at_cursor l from) eqn:Eat; cbn [negb]; [| left; auto].
  cbv zeta. rewrite advance_set_itr.
  set (l' := set_itr l (itr_ l + String.length from)).
  destruct (find_loop_run to (len_ l' - itr_ l') l' (le_n _))
    as (k & Hrun & Hk & Hall & Hstop).
  rewrite Hrun. unfold l' in *. simpl in Hk, Hall, Hstop.
  rewrite set_itr_set_itr.
  destruct (IsEnd (set_itr l k)) eqn:Eend'.
  - right. unfold IsEnd in Eend'. simpl in Eend'. apply Nat.leb_le in Eend'.
    split; [reflexivity | split; [reflexivity | split]].
    + unfold IsEnd. simpl. apply Nat.leb_le. exact Eend'.
    + split; [unfold moved; simpl; repeat split; lia |].
      split; [reflexivity |].
      intros q Hq. apply Hall. unfold len_ in *. simpl in *. lia.
  - unfold IsEnd in Eend'. simpl in Eend'. apply Nat.leb_gt in Eend'.
    exists k. rewrite advance_set_itr. rewrite set_itr_set_itr. simpl itr_.
    split; [reflexivity | split; [reflexivity | split; [reflexivity |]]].
    split; [unfold len_ in *; simpl in *; lia |].
    split; [apply Hstop; unfold len_ in *; simpl in *; lia |].
    intros q Hq. apply Hall. lia.
Qed.

Lemma substring_one (s : string) :
  forall n, n < String.length s ->
            String.substring n 1 s = String (char_at s n) EmptyString.
Proof.
  induction s as [| c s IH]; intros n Hn; simpl in Hn; [lia |].
  destruct n as [| n].
  - simpl. destruct s; reflexivity.
  - simpl. rewrite IH by lia. reflexivity.
Qed.

Lemma at_cursor_one (l : Lexer) (c : ascii) :
  IsEnd l = false -> at_cursor l (String c EmptyString) = Ascii.eqb (GetChar l) c.
Proof.
  intros Hend. unfold IsEnd in Hend. apply Nat.leb_gt in Hend.
  unfold at_cursor, GetChar. simpl String.length.
  rewrite substring_one by exact Hend.
  simpl. destruct (Ascii.eqb (char_at (text_ l) (itr_ l)) c); reflexivity.
Qed.

Lemma GetChar_at_end (l : Lexer) : IsEnd l = true -> GetChar l = zero.
Proof.
  intros Hend. unfold IsEnd in Hend. apply Nat.leb_le in Hend.
  apply char_at_past_end. exact Hend.
Qed.

(** Where the range scanner for comments leaves the lexer when it has
    not found a comment: not on an opening bracket. *)
Lemma ScanFromTo_leaves_no_opening_bracket (l : Lexer) :
  (ScanFromTo "[" "]" l).1 = false ->
  Ascii.eqb (GetChar (ScanFromTo "[" "]" l).2) "[" = false
  /\ tokens_ (ScanFromTo "[" "]" l).2 = tokens_ l
  /\ ((ScanFromTo "[" "]" l).2 = l \/ IsEnd (ScanFromTo "[" "]" l).2 = true).
Proof.
  intros Hfalse. split; [| split; [apply ScanFromTo_tokens |]].
  - revert Hfalse. unfold ScanFromTo.
    destruct (IsEnd l) eqn:Eend; cbn [orb].
    { intros _. cbn [snd]. rewrite (GetChar_at_end l Eend). reflexivity. }
    destruct (at_cursor l "[") eqn:Eat; cbn [negb].
    2: { intros _. cbn [snd]. rewrite <- (at_cursor_one l "[" Eend). exact Eat. }
    cbv zeta. set (lz := find_loop _ "]" _).
    destruct (IsEnd lz) eqn:Eend'; [| discriminate].
    intros _. cbn [snd]. rewrite (GetChar_at_end lz Eend'). reflexivity.
  - revert Hfalse. unfold ScanFromTo.
    destruct (IsEnd l || negb (at_cursor l "[")); [left; reflexivity |].
    cbv zeta. set (lz := find_loop _ "]" _).
    destruct (IsEnd lz) eqn:Eend'; [| discriminate].
    intros _. right. exact Eend'.
Qed.

(** X17.  The comment scanner of the Newick lexer never gives its error
    token for a comment that is not closed: when the closing bracket is
    missing, the range scanner has gone to the end of the text, where no
    opening bracket is to be seen, and the scanner returns false without
    a token. *)
Theorem NewickLexer_ScanComment_is_silent_on_an_open_comment (l l' : Lexer) :
  Ascii.eqb (GetChar l) "]" = false ->
  NewickLexer_ScanComment l = (false, l') ->
  tokens_ l' = tokens_ l /\ l' = (ScanFromTo "[" "]" l).2
  /\ (l' = l \/ IsEnd l' = true).
Proof.
  intros Hclose. unfold NewickLexer_ScanComment. rewrite Hclose.
  pose proof (ScanFromTo_leaves_no_opening_bracket l) as H.
  destruct (ScanFromTo "[" "]" l) as [found l1]. simpl in *.
  destruct found; simpl.
  - destruct (include_comments l1); discriminate.
  - destruct (H eq_refl) as (Hchar & Htok & Hwhere). rewrite Hchar.
    intros [= <-]. auto.
Qed.


(** *** The steps of the lexer *)

Lemma type_eqb_eq (a b : LexerTokenType) : type_eqb a b = true <-> a = b.
Proof. destruct a, b; simpl; split; intros H; try discriminate; reflexivity. Qed.

(** Nothing is skipped in front of a character that is neither whitespace
    nor, for the base class, anything else. *)
Lemma ScanWhitespace_on_other (l : Lexer) :
  type_eqb (GetCharType l) kWhite = false -> ScanWhitespace l = (false, l).
Proof.
  intros Ht. unfold ScanWhitespace.
  destruct (len_ l - itr_ l) as [| n]; simpl.
  - rewrite andb_false_r. reflexivity.
  - rewrite Ht, andb_false_r. simpl. rewrite andb_false_r. reflexivity.
Qed.

Lemma BaseLexer_skip_loop_on_other (l : Lexer) (n : nat) :
  class_ l = BaseLexer -> type_eqb (GetCharType l) kWhite = false ->
  skip_loop (S n) l = l.
Proof.
  intros Hclass Ht. simpl. rewrite (ScanWhitespace_on_other l Ht).
  unfold virtual_ScanComment. rewrite Hclass. reflexivity.
Qed.

(** X18.  A lexer of the base class that has produced a token and stands on a
    character that starts a tag makes no progress: [ProcessStep] returns
    true without consuming a character or adding a token, and the loop of
    [ProcessString] does not come to an end. *)
Theorem BaseLexer_stalls_on_a_tag_character (l : Lexer) (fuel : nat) :
  class_ l = BaseLexer ->
  IsEnd l = false ->
  GetCharType l = kTag ->
  tokens_ l <> [] ->
  back_IsError (tokens_ l) = false ->
  ProcessStep l = Returned true l /\ process_loop fuel l = None.
Proof.
  intros Hclass Hend Htag Htokens Hback.
  assert (Hstep : ProcessStep l = Returned true l).
  { unfold Lexer.ProcessStep. rewrite Hend.
    rewrite (BaseLexer_skip_loop_on_other l _ Hclass) by (rewrite Htag; reflexivity).
    rewrite Hback, andb_false_r, Hend, Htag. cbn [type_eqb].
    unfold virtual_ScanTag. rewrite Hclass. simpl.
    rewrite Hback. destruct (tokens_ l); [contradiction | reflexivity]. }
  split; [exact Hstep |].
  induction fuel as [| fuel IH]; simpl; [reflexivity |].
  rewrite Hend, Hstep. exact IH.
Qed.

(** What the loop over whitespace and comments appends. *)
Lemma skip_loop_appends (n : nat) :
  forall l, exists new, appends l (skip_loop n l) new.
Proof.
  induction n as [| n IH]; intros l; simpl.
  - exists []. apply appends_nothing. reflexivity.
  - destruct (ScanWhitespace_appends l) as (new1 & H1 & _).
    destruct (ScanWhitespace l) as [w l1]. simpl in H1.
    destruct w.
    + destruct (IH l1) as (new & Hnew). exists (new1 ++ new).
      unfold appends in *. rewrite Hnew, H1, app_assoc. reflexivity.
    + destruct (virtual_ScanComment_appends l1) as (new2 & H2 & _).
      destruct (virtual_ScanComment l1) as [c l2]. simpl in H2.
      destruct c.
      * destruct (IH l2) as (new & Hnew). exists (new1 ++ new2 ++ new).
        unfold appends in *. rewrite Hnew, H2, H1, !app_assoc. reflexivity.
      * exists (new1 ++ new2). unfold appends in *. rewrite H2, H1, app_assoc. reflexivity.
Qed.

Lemma at_most_one_appends (l l' : Lexer) :
  at_most_one l l' -> exists new, appends l l' new.
Proof. intros (new & H & _). eauto. Qed.

Lemma virtual_ScanNumber_moved (l : Lexer) (r : bool * Lexer) :
  virtual_ScanNumber l = Some r -> moved l r.2.
Proof.
  unfold virtual_ScanNumber. destruct (class_ l).
  - intros [= <-]. apply ScanNumber_moved.
  - intros H. apply moved_on_weaken, (NewickLexer_ScanNumber_moved_on l r H).
Qed.

Lemma virtual_ScanTag_moved (l : Lexer) (r : bool * Lexer) :
  virtual_ScanTag l = Some r -> moved l r.2.
Proof.
  unfold virtual_ScanTag. destruct (class_ l).
  - intros [= <-]. apply moved_refl.
  - unfold NewickLexer_ScanTag.
    destruct (Ascii.eqb (GetChar l) "}").
    { intros [= <-]. apply PushToken_moved. }
    destruct (negb (Ascii.eqb (GetChar l) "{")); [discriminate |].
    pose proof (ScanFromTo_moved "{" "}" l) as H.
    destruct (ScanFromTo "{" "}" l) as [found l1]. simpl in H.
    destruct (negb found).
    { intros [= <-]. eapply moved_trans; [exact H | apply PushToken_moved]. }
    destruct (include_tags l1); intros [= <-]; simpl; [| exact H].
    eapply moved_trans; [exact H | apply PushToken_moved].
Qed.

Lemma ScanOperator_moved (l : Lexer) (r : bool * Lexer) :
  ScanOperator l = Some r -> moved l r.2.
Proof.
  unfold ScanOperator.
  destruct (CharIsSign (GetChar l) && glue_sign_to_number l && negb (IsEndOff l 1)
            && CharIsDigit (GetCharOff l 1)).
  - apply virtual_ScanNumber_moved.
  - intros [= <-]. unfold moved. simpl. repeat split; lia.
Qed.

(** X19.  A call of [ProcessStep] never changes the text or the tokens that
    are already there, and never moves the position back: the lexer after
    the call has the same text, a position that is not smaller, and the
    old tokens followed by the new ones. *)
Theorem ProcessStep_only_appends_and_advances (l : Lexer) :
  moved l (lexer_of (ProcessStep l))
  /\ exists new, tokens_ (lexer_of (ProcessStep l)) = tokens_ l ++ new.
Proof.
  unfold Lexer.ProcessStep. cbv zeta.
  assert (Hrefl : moved l l /\ exists new, tokens_ l = tokens_ l ++ new)
    by (split; [apply moved_refl | exists []; rewrite app_nil_r; reflexivity]).
  destruct (IsEnd l); [exact Hrefl |].
  pose proof (skip_loop_moved (S (len_ l - itr_ l)) l) as Hskip.
  destruct (skip_loop_appends (S (len_ l - itr_ l)) l) as (new1 & Hnew1).
  set (l1 := skip_loop (S (len_ l - itr_ l)) l) in *. clearbody l1.
  assert (Hl1 : moved l l1 /\ exists new, tokens_ l1 = tokens_ l ++ new)
    by (split; [exact Hskip | exists new1; exact Hnew1]).
  assert (Hfinish : forall l',
            moved l1 l' -> at_most_one l1 l' ->
            moved l (lexer_of
                       (if tokens_empty (tokens_ l') || back_IsError (tokens_ l')
                        then Returned false l' else Returned true l'))
            /\ exists new,
                tokens_ (lexer_of
                           (if tokens_empty (tokens_ l') || back_IsError (tokens_ l')
                            then Returned false l' else Returned true l'))
                = tokens_ l ++ new).
  { intros l' Hmoved (new & Hnew & _).
    assert (H : moved l l' /\ exists new, tokens_ l' = tokens_ l ++ new).
    { split; [eapply moved_trans; eassumption |].
      exists (new1 ++ new). unfold appends in *. rewrite Hnew, Hnew1, app_assoc.
      reflexivity. }
    destruct (tokens_empty (tokens_ l') || back_IsError (tokens_ l')); exact H. }
  assert (Hmaybe : forall r : option (bool * Lexer),
            (forall x, r = Some x -> moved l1 x.2) ->
            (forall x, r = Some x -> at_most_one l1 x.2) ->
            moved l (lexer_of
                       match option_map snd r with
                       | None => AssertionFailed l1
                       | Some l' =>
                         if tokens_empty (tokens_ l') || back_IsError (tokens_ l')
                         then Returned false l' else Returned true l'
                       end)
            /\ exists new,
                tokens_ (lexer_of
                           match option_map snd r with
                           | None => AssertionFailed l1
                           | Some l' =>
                             if tokens_empty (tokens_ l') || back_IsError (tokens_ l')
                             then Returned false l' else Returned true l'
                           end)
                = tokens_ l ++ new).
  { intros [x |] Hm Ho; simpl; [apply Hfinish; [apply Hm | apply Ho]; reflexivity |].
    exact Hl1. }
  destruct (negb (tokens_empty (tokens_ l1)) && back_IsError (tokens_ l1)); [exact Hl1 |].
  destruct (IsEnd l1); [exact Hl1 |].
  destruct (type_eqb (GetCharType l1) kError).
  { destruct Hl1 as [Hm (new & Hnew)]. split.
    - eapply moved_trans; [exact Hm | apply PushToken_moved].
    - eexists. simpl. rewrite Hnew, <- app_assoc. reflexivity. }
  destruct (GetCharType l1).
  - exact Hl1.
  - apply Hfinish; [| apply ScanUnknown_at_most_one].
    eapply moved_trans; [apply scan_type_loop_moved | apply PushToken_moved].
  - exact Hl1.
  - exact Hl1.
  - apply Hfinish; [| apply ScanSymbol_at_most_one].
    eapply moved_trans; [apply scan_type_loop_moved | apply PushToken_moved].
  - exact (Hmaybe _ (virtual_ScanNumber_moved l1) (virtual_ScanNumber_at_most_one l1)).
  - apply Hfinish; [| apply ScanString_at_most_one].
    apply moved_on_weaken, ScanString_moved_on.
  - apply Hfinish; [| apply ScanBracket_at_most_one].
    apply moved_on_weaken, ScanBracket_moved_on.
  - exact (Hmaybe _ (ScanOperator_moved l1) (ScanOperator_at_most_one l1)).
  - exact (Hmaybe _ (virtual_ScanTag_moved l1) (virtual_ScanTag_at_most_one l1)).
Qed.

Lemma process_loop_true_tokens (fuel : nat) :
  forall l l',
    error_free (tokens_ l) ->
    process_loop fuel l = Some (Returned true l') ->
    error_free (tokens_ l').
Proof.
  induction fuel as [| fuel IH]; intros l l' Hfree; simpl; [discriminate |].
  destruct (IsEnd l).
  { intros [= <-]. exact Hfree. }
  destruct (ProcessStep_tokens StringDeescape StringReplaceAll l Hfree) as [_ Htrue].
  destruct (ProcessStep l) as [[|] l1 | l1].
  - apply IH, Htrue. reflexivity.
  - intros [= Hempty <-]. destruct (tokens_ l1); [constructor | discriminate].
  - discriminate.
Qed.

(** X20.  When [ProcessString] returns true, in either mode, no token it has
    produced is an error token. *)
Theorem ProcessString_true_means_no_error
    (l0 l : Lexer) (text : string) (stepwise : bool) (fuel : nat) :
  ProcessString fuel text stepwise l0 = Some (Returned true l) ->
  error_free (tokens_ l).
Proof.
  assert (Hinit : error_free (tokens_ (Init text l0))) by constructor.
  unfold Lexer.ProcessString. destruct stepwise.
  - intros [= H].
    apply (ProcessStep_tokens StringDeescape StringReplaceAll _ Hinit). exact H.
  - apply process_loop_true_tokens, Hinit.
Qed.

Lemma process_loop_more_fuel (fuel : nat) :
  forall l o fuel',
    process_loop fuel l = Some o -> fuel <= fuel' -> process_loop fuel' l = Some o.
Proof.
  induction fuel as [| fuel IH]; intros l o fuel' Hrun Hle; simpl in Hrun; [discriminate |].
  destruct fuel' as [| fuel']; [lia |]. simpl.
  destruct (IsEnd l); [exact Hrun |].
  destruct (ProcessStep l) as [[|] l' | l']; [| exact Hrun | exact Hrun].
  apply (IH l' o fuel' Hrun). lia.
Qed.

(** *** The assertions of the Newick lexer *)

Lemma setup_of_NextChar (l : Lexer) : setup_of (NextChar l) = setup_of l.
Proof. reflexivity. Qed.

Lemma setup_of_PushToken (t : LexerTokenType) (p : nat) (v : string) (l : Lexer) :
  setup_of (PushToken t p v l) = setup_of l.
Proof. reflexivity. Qed.

Lemma setup_of_scan_type_loop (t : LexerTokenType) (n : nat) :
  forall l, setup_of (scan_type_loop n t l) = setup_of l.
Proof.
  induction n as [| n IH]; intros l; simpl; [reflexivity |].
  destruct (negb (IsEnd l) && type_eqb (GetCharType l) t); [| reflexivity].
  rewrite IH. reflexivity.
Qed.

Lemma setup_of_whitespace_loop (n : nat) :
  forall l found, setup_of (whitespace_loop n l found).1 = setup_of l.
Proof.
  induction n as [| n IH]; intros l found; simpl; [reflexivity |].
  destruct (negb (IsEnd l) && type_eqb (GetCharType l) kWhite); [| reflexivity].
  rewrite IH. reflexivity.
Qed.

Lemma setup_of_ScanWhitespace (l : Lexer) : setup_of (ScanWhitespace l).2 = setup_of l.
Proof.
  unfold ScanWhitespace.
  pose proof (setup_of_whitespace_loop (len_ l - itr_ l) l false) as H.
  destruct (whitespace_loop (len_ l - itr_ l) l false) as [l1 found]. simpl in H.
  destruct (include_whitespace l1 && found); exact H.
Qed.

Lemma setup_of_number_loop (start : nat) (n : nat) :
  forall l found_d found_e,
    setup_of (number_loop n start l found_d found_e).1 = setup_of l.
Proof.
  induction n as [| n IH]; intros l found_d found_e; simpl; [reflexivity |].
  repeat case_match; try reflexivity; rewrite IH; reflexivity.
Qed.

Lemma setup_of_ScanNumber (l : Lexer) : setup_of (ScanNumber l).2 = setup_of l.
Proof.
  unfold ScanNumber.
  pose proof (setup_of_number_loop (GetPosition l) (len_ l - itr_ l) l false false) as H.
  destruct (number_loop (len_ l - itr_ l) (GetPosition l) l false false) as [l1 err].
  simpl in H. destruct err; exact H.
Qed.

Lemma setup_of_string_loop (qmark : ascii) (n : nat) :
  forall l jump found_e found_q,
    setup_of (string_loop n qmark l jump found_e found_q).1 = setup_of l.
Proof.
  induction n as [| n IH]; intros l jump found_e found_q; simpl; [reflexivity |].
  repeat case_match; try reflexivity; simpl; rewrite ?IH; reflexivity.
Qed.

Lemma setup_of_ScanString (l : Lexer) : setup_of (ScanString l).2 = setup_of l.
Proof.
  unfold Lexer.ScanString.
  destruct (IsEnd (NextChar l)); [reflexivity |].
  pose proof (setup_of_string_loop (GetChar l)
                (len_ (NextChar l) - itr_ (NextChar l)) (NextChar l)
                false false false) as H.
  destruct (string_loop (len_ (NextChar l) - itr_ (NextChar l)) (GetChar l)
              (NextChar l) false false false) as [l1 [[jump found_e] found_q]].
  simpl in H.
  destruct (jump || IsEnd l1 && negb (Ascii.eqb (GetCharOff l1 (-1)) (GetChar l)));
    exact H.
Qed.

Lemma setup_of_advance (n : nat) : forall l, setup_of (advance n l) = setup_of l.
Proof.
  induction n as [| n IH]; intros l; simpl; [reflexivity |].
  rewrite IH. reflexivity.
Qed.

Lemma setup_of_find_loop (to : string) (n : nat) :
  forall l, setup_of (find_loop n to l) = setup_of l.
Proof.
  induction n as [| n IH]; intros l; simpl; [reflexivity |].
  destruct (negb (IsEnd l) && negb (at_cursor l to)); [| reflexivity].
  rewrite IH. reflexivity.
Qed.

Lemma setup_of_ScanFromTo (from to : string) (l : Lexer) :
  setup_of (ScanFromTo from to l).2 = setup_of l.
Proof.
  unfold ScanFromTo.
  destruct (IsEnd l || negb (at_cursor l from)); [reflexivity |]. cbv zeta.
  set (l' := advance (String.length from) l).
  set (l'' := find_loop (len_ l' - itr_ l') to l').
  assert (H : setup_of l'' = setup_of l)
    by (unfold l'', l'; rewrite setup_of_find_loop, setup_of_advance; reflexivity).
  destruct (IsEnd l''); cbn [snd]; [exact H |].
  rewrite setup_of_advance. exact H.
Qed.

Lemma setup_of_virtual_ScanComment (l : Lexer) :
  setup_of (virtual_ScanComment l).2 = setup_of l.
Proof.
  unfold virtual_ScanComment. destruct (class_ l); [reflexivity |].
  unfold NewickLexer_ScanComment.
  destruct (Ascii.eqb (GetChar l) "]"); [reflexivity |].
  pose proof (setup_of_ScanFromTo "[" "]" l) as H.
  destruct (ScanFromTo "[" "]" l) as [found l1]. simpl in H.
  destruct (negb found && Ascii.eqb (GetChar l1) "["); [exact H |].
  destruct (found && include_comments l1); exact H.
Qed.

Lemma setup_of_skip_loop (n : nat) : forall l, setup_of (skip_loop n l) = setup_of l.
Proof.
  induction n as [| n IH]; intros l; simpl; [reflexivity |].
  pose proof (setup_of_ScanWhitespace l) as Hw.
  destruct (ScanWhitespace l) as [w l1]. simpl in Hw.
  destruct w; [rewrite IH; exact Hw |].
  pose proof (setup_of_virtual_ScanComment l1) as Hc.
  destruct (virtual_ScanComment l1) as [c l2]. simpl in Hc.
  destruct c; [rewrite IH |]; congruence.
Qed.

Lemma setup_of_virtual_ScanNumber (l : Lexer) (r : bool * Lexer) :
  virtual_ScanNumber l = Some r -> setup_of r.2 = setup_of l.
Proof.
  unfold virtual_ScanNumber, NewickLexer_ScanNumber.
  destruct (class_ l).
  - intros [= <-]. apply setup_of_ScanNumber.
  - destruct (Ascii.eqb (GetChar l) ":"); [| discriminate].
    intros [= <-]. rewrite setup_of_ScanNumber. reflexivity.
Qed.

Lemma setup_of_virtual_ScanTag (l : Lexer) (r : bool * Lexer) :
  virtual_ScanTag l = Some r -> setup_of r.2 = setup_of l.
Proof.
  unfold virtual_ScanTag, NewickLexer_ScanTag.
  destruct (class_ l); [intros [= <-]; reflexivity |].
  destruct (Ascii.eqb (GetChar l) "}"); [intros [= <-]; reflexivity |].
  destruct (negb (Ascii.eqb (GetChar l) "{")); [discriminate |].
  pose proof (setup_of_ScanFromTo "{" "}" l) as H.
  destruct (ScanFromTo "{" "}" l) as [found l1]. simpl in H.
  destruct found; simpl; [| intros [= <-]; exact H].
  destruct (include_tags l1); intros [= <-]; exact H.
Qed.

Lemma setup_of_ScanOperator (l : Lexer) (r : bool * Lexer) :
  ScanOperator l = Some r -> setup_of r.2 = setup_of l.
Proof.
  unfold ScanOperator.
  destruct (CharIsSign (GetChar l) && glue_sign_to_number l
            && negb (IsEndOff l 1) && CharIsDigit (GetCharOff l 1));
    [apply setup_of_virtual_ScanNumber |].
  intros [= <-]. reflexivity.
Qed.

(** A call of [ProcessStep] changes the cursor and the tokens only. *)
Lemma setup_of_ProcessStep (l : Lexer) :
  setup_of (lexer_of (ProcessStep l)) = setup_of l.
Proof.
  unfold Lexer.ProcessStep. cbv zeta.
  destruct (IsEnd l); [reflexivity |].
  pose proof (setup_of_skip_loop (S (len_ l - itr_ l)) l) as Hskip.
  set (l1 := skip_loop (S (len_ l - itr_ l)) l) in *. clearbody l1.
  destruct (negb (tokens_empty (tokens_ l1)) && back_IsError (tokens_ l1));
    [exact Hskip |].
  destruct (IsEnd l1); [exact Hskip |].
  destruct (type_eqb (GetCharType l1) kError); [exact Hskip |].
  assert (Hfinish : forall l',
             setup_of l' = setup_of l1 ->
             setup_of (lexer_of (if tokens_empty (tokens_ l') || back_IsError (tokens_ l')
                                 then Returned false l' else Returned true l'))
             = setup_of l).
  { intros l' H. destruct (tokens_empty (tokens_ l') || back_IsError (tokens_ l'));
      simpl; congruence. }
  assert (Hmaybe : forall r : option (bool * Lexer),
             (forall x, r = Some x -> setup_of x.2 = setup_of l1) ->
             setup_of (lexer_of
               match option_map snd r with
               | Some l' => if tokens_empty (tokens_ l') || back_IsError (tokens_ l')
                            then Returned false l' else Returned true l'
               | None => AssertionFailed l1
               end) = setup_of l).
  { intros [x |] H; simpl; [apply Hfinish, (H x eq_refl) | exact Hskip]. }
  destruct (GetCharType l1); try exact Hskip.
  - apply Hfinish. unfold ScanUnknown. cbn [snd].
    unfold PushTokenRange. rewrite setup_of_PushToken. apply setup_of_scan_type_loop.
  - apply Hfinish. unfold ScanSymbol. cbn [snd].
    unfold PushTokenRange. rewrite setup_of_PushToken. apply setup_of_scan_type_loop.
  - apply Hmaybe, setup_of_virtual_ScanNumber.
  - apply Hfinish. apply setup_of_ScanString.
  - apply Hfinish. reflexivity.
  - apply Hmaybe, setup_of_ScanOperator.
  - apply Hmaybe, setup_of_virtual_ScanTag.
Qed.

Lemma newick_setup_kept (l l' : Lexer) :
  setup_of l' = setup_of l -> newick_setup l -> newick_setup l'.
Proof.
  intros H (Hclass & Hglue & Hnumber & Htag & Hcomment).
  assert (Hc : class_ l' = class_ l) by exact (f_equal class_ H).
  assert (Hg : glue_sign_to_number l' = glue_sign_to_number l)
    by exact (f_equal glue_sign_to_number H).
  assert (Ht : start_char_table_ l' = start_char_table_ l)
    by exact (f_equal start_char_table_ H).
  unfold newick_setup. rewrite Hc, Hg, Ht. auto.
Qed.

(** A whitespace scanner that returns false has found the end of the text
    or a character that is no whitespace, and has left the lexer as it
    was. *)
Lemma whitespace_loop_found (n : nat) :
  forall l, (whitespace_loop n l true).2 = true.
Proof.
  induction n as [| n IH]; intros l; simpl; [reflexivity |].
  destruct (negb (IsEnd l) && type_eqb (GetCharType l) kWhite); [apply IH | reflexivity].
Qed.

Lemma ScanWhitespace_false (l l1 : Lexer) :
  ScanWhitespace l = (false, l1) ->
  l1 = l /\ (IsEnd l = true \/ type_eqb (GetCharType l) kWhite = false).
Proof.
  unfold ScanWhitespace.
  destruct (len_ l - itr_ l) as [| n] eqn:En; simpl.
  - rewrite andb_false_r. intros [= <-]. split; [reflexivity | left].
    unfold IsEnd. apply Nat.leb_le. lia.
  - destruct (IsEnd l) eqn:Eend; simpl.
    { rewrite andb_false_r. intros [= <-]. auto. }
    destruct (type_eqb (GetCharType l) kWhite) eqn:Et; simpl.
    + pose proof (whitespace_loop_found n (NextChar l)) as H.
      destruct (whitespace_loop n (NextChar l) true) as [l' found]. simpl in H.
      subst found. destruct (include_whitespace l' && true); discriminate.
    + rewrite andb_false_r. intros [= <-]. auto.
Qed.

(** Where the loop over whitespace and comments leaves a [NewickLexer]:
    behind an error token, at the end of the text, or on a character that
    is neither whitespace nor a square bracket. *)
Lemma skip_loop_leaves (d : nat) :
  forall l,
    class_ l = NewickLexer -> len_ l - itr_ l <= d ->
    let l1 := skip_loop (S d) l in
    back_IsError (tokens_ l1) = true \/ IsEnd l1 = true
    \/ (type_eqb (GetCharType l1) kWhite = false
        /\ Ascii.eqb (GetChar l1) "[" = false /\ Ascii.eqb (GetChar l1) "]" = false).
Proof.
  induction d as [d IH] using lt_wf_ind. intros l Hclass Hd. cbv zeta.
  cbn [skip_loop].
  destruct (ScanWhitespace l) as [w l1] eqn:Ew.
  destruct w.
  - destruct (ScanWhitespace_moves l l1 Ew) as (Ht & Hi & Hlen).
    assert (Hlen1 : len_ l1 = len_ l) by (unfold len_; rewrite Ht; reflexivity).
    pose proof (ScanWhitespace_moved l) as Hm. rewrite Ew in Hm. simpl in Hm.
    destruct d as [| d]; [lia |].
    apply (IH d); [lia | destruct Hm as (Hc & _); congruence | lia].
  - apply ScanWhitespace_false in Ew. destruct Ew as [-> Hwhite].
    destruct (virtual_ScanComment l) as [c l2] eqn:Ec.
    destruct c.
    + destruct (virtual_ScanComment_moves l l2 Ec) as (Ht & Hi & Hlen).
      assert (Hlen2 : len_ l2 = len_ l) by (unfold len_; rewrite Ht; reflexivity).
      pose proof (virtual_ScanComment_moved l) as Hm. rewrite Ec in Hm. simpl in Hm.
      destruct d as [| d]; [lia |].
      apply (IH d); [lia | destruct Hm as (Hc & _); congruence | lia].
    + revert Ec. unfold virtual_ScanComment. rewrite Hclass.
      unfold NewickLexer_ScanComment.
      destruct (Ascii.eqb (GetChar l) "]") eqn:Eclose.
      { intros [= <-]. left. apply back_IsError_snoc. }
      pose proof (ScanFromTo_leaves_no_opening_bracket l) as H.
      destruct (ScanFromTo "[" "]" l) as [found l3]. simpl in H.
      destruct found; simpl; [destruct (include_comments l3); discriminate |].
      destruct (H eq_refl) as (Hopen & _ & Hwhere). rewrite Hopen.
      intros [= <-]. destruct Hwhere as [-> | Hend]; [| auto].
      destruct Hwhite as [Hend | Hwhite]; auto.
Qed.

(** With that setup no [assert] stops a step of the lexer. *)
Lemma ProcessStep_returns (l : Lexer) :
  newick_setup l -> exists result l', ProcessStep l = Returned result l'.
Proof.
  intros Hsetup. unfold Lexer.ProcessStep. cbv zeta.
  destruct (IsEnd l); [eauto |].
  pose proof (setup_of_skip_loop (S (len_ l - itr_ l)) l) as Hskip.
  pose proof (skip_loop_leaves (len_ l - itr_ l) l (proj1 Hsetup) (le_n _)) as Hleaves.
  cbv zeta in Hleaves.
  set (l1 := skip_loop (S (len_ l - itr_ l)) l) in *. clearbody l1.
  destruct (newick_setup_kept l l1 Hskip Hsetup)
    as (Hclass & Hglue & Hnumber & Htag & Hcomment).
  destruct (negb (tokens_empty (tokens_ l1)) && back_IsError (tokens_ l1)) eqn:Eerr;
    [eauto |].
  destruct (IsEnd l1) eqn:Eend; [eauto |].
  destruct (type_eqb (GetCharType l1) kError) eqn:Eerror; [eauto |].
  assert (Hfinish : forall l',
             exists result l'',
               (if tokens_empty (tokens_ l') || back_IsError (tokens_ l')
                then Returned false l' else Returned true l') = Returned result l'').
  { intros l'. destruct (tokens_empty (tokens_ l') || back_IsError (tokens_ l')); eauto. }
  assert (Hplain : back_IsError (tokens_ l1) = false).
  { destruct (tokens_ l1) as [| t ts] eqn:Ets; [reflexivity |].
    simpl in Eerr. exact Eerr. }
  destruct Hleaves as [Hback | [Hend | (Hwhite & Hopen & Hclose)]]; [congruence.. |].
  assert (Hnw : GetCharType l1 <> kWhite)
    by (intros E; rewrite E in Hwhite; discriminate Hwhite).
  assert (Hnc : GetCharType l1 <> kComment).
  { intros E. destruct (Hcomment (GetChar l1) E) as [E' | E'];
      rewrite E' in *; discriminate. }
  assert (Hne : GetCharType l1 <> kError)
    by (intros E; rewrite E in Eerror; discriminate Eerror).
  destruct (GetCharType l1) eqn:Et; try congruence; try apply Hfinish.
  - unfold virtual_ScanNumber, NewickLexer_ScanNumber. rewrite Hclass.
    rewrite (Hnumber (GetChar l1) Et), Ascii.eqb_refl. apply Hfinish.
  - unfold ScanOperator. rewrite Hglue, andb_false_r. apply Hfinish.
  - unfold virtual_ScanTag, NewickLexer_ScanTag. rewrite Hclass.
    destruct (Htag (GetChar l1) Et) as [E | E]; rewrite E.
    + change (Ascii.eqb "{" "}") with false. rewrite Ascii.eqb_refl. cbn [negb].
      destruct (ScanFromTo "{" "}" l1) as [found l2].
      destruct found; cbn [negb]; [destruct (include_tags l2) |]; apply Hfinish.
    + rewrite Ascii.eqb_refl. apply Hfinish.
Qed.

Lemma process_loop_returns_a_flag (d : nat) :
  forall l fuel,
    newick_setup l ->
    len_ l - itr_ l <= d -> d < fuel ->
    exists result l', process_loop fuel l = Some (Returned result l').
Proof.
  induction d as [d IH] using lt_wf_ind. intros l fuel Hsetup Hd Hfuel.
  destruct fuel as [| fuel]; [lia |]. simpl.
  destruct (IsEnd l) eqn:Eend; [eauto |].
  destruct (ProcessStep_returns l Hsetup) as (result & l' & Estep).
  pose proof (setup_of_ProcessStep l) as Hkept.
  rewrite Estep in *. simpl in Hkept.
  destruct result; [| eauto].
  destruct (ProcessStep_moved_on StringDeescape StringReplaceAll l l' (proj1 Hsetup) Estep)
    as (Hc & Ht & Hi).
  unfold IsEnd in Eend. apply Nat.leb_gt in Eend.
  assert (Hlen : len_ l' = len_ l) by (unfold len_; rewrite Ht; reflexivity).
  apply (IH (len_ l' - itr_ l')); [lia | | lia | lia].
  apply (newick_setup_kept l l' Hkept Hsetup).
Qed.

(** With that setup [ProcessString] returns a flag. *)
Lemma NewickLexer_ProcessString_returns_a_flag
    (l0 : Lexer) (text : string) (stepwise : bool) :
  newick_setup l0 ->
  exists result l,
    forall fuel, String.length text < fuel ->
                 ProcessString fuel text stepwise l0 = Some (Returned result l).
Proof.
  intros Hsetup.
  assert (Hinit : newick_setup (Init text l0)) by exact Hsetup.
  unfold Lexer.ProcessString. cbv zeta. destruct stepwise.
  - destruct (ProcessStep_returns _ Hinit) as (result & l & E).
    exists result, l. intros fuel _. rewrite E. reflexivity.
  - destruct (process_loop_returns_a_flag (String.length text) (Init text l0)
                (S (String.length text)) Hinit) as (result & l & E);
      [unfold len_; simpl; lia | lia |].
    exists result, l. intros fuel Hfuel.
    apply (process_loop_more_fuel (S (String.length text))); [exact E | lia].
Qed.

(** X21.  On every text, the loop of [ProcessString] of a [NewickLexer]
    comes to an end, in either mode, within as many rounds as the text has
    characters, and one more, and any larger bound on the rounds gives the
    same outcome.  When the lexer has the setup of its constructor where
    the scanners have an [assert] ([newick_setup]), that outcome is a
    return with a flag: no [assert] of [ProcessStep] or of the scanners of
    [NewickLexer] stops the program. *)
Theorem NewickLexer_ProcessString_always_returns
    (l0 : Lexer) (text : string) (stepwise : bool) :
  class_ l0 = NewickLexer ->
  exists o,
    (forall fuel, String.length text < fuel ->
                  ProcessString fuel text stepwise l0 = Some o)
    /\ (newick_setup l0 -> exists result l, o = Returned result l).
Proof.
  intros Hclass.
  destruct (NewickLexer_ProcessString_returns StringDeescape StringReplaceAll
              l0 text stepwise Hclass (S (String.length text)) (Nat.lt_succ_diag_r _))
    as [o Ho].
  exists o. split.
  - intros fuel Hfuel. unfold Lexer.ProcessString in *.
    destruct stepwise; [exact Ho |].
    apply (process_loop_more_fuel (S (String.length text))); [exact Ho | lia].
  - intros Hsetup.
    destruct (NewickLexer_ProcessString_returns_a_flag l0 text stepwise Hsetup)
      as (result & l & Hrun).
    exists result, l.
    specialize (Hrun (S (String.length text)) (Nat.lt_succ_diag_r _)).
    congruence.
Qed.

End ScannerFacts.

Lemma ScanNumber_fails_only_at_its_start_witness :
  (Lexer.ScanNumber (Lexer.Init "+x" Examples.lexer)).2
  = Lexer.PushToken Lexer.kError 0 "Malformed number." (Lexer.Init "+x" Examples.lexer).
Proof.
  apply (ScanNumber_fails_only_at_its_start (Lexer.Init "+x" Examples.lexer)).
  reflexivity.
Defined.

Lemma ScanNumber_on_a_digit_gives_a_number_witness :
  exists k,
    Lexer.ScanNumber (Lexer.Init "12." Examples.lexer)
    = (true, Lexer.PushToken Lexer.kNumber 0
               (String.substring 0 (k - 0) "12.")
               (Lexer.set_itr (Lexer.Init "12." Examples.lexer) k))
    /\ (0 < k)%nat.
Proof.
  apply (ScanNumber_on_a_digit_gives_a_number (Lexer.Init "12." Examples.lexer));
    reflexivity.
Defined.

Lemma ScanString_reads_a_closed_string_witness :
  Lexer.ScanString Examples.no_escape Examples.no_blank (Lexer.Init "'ab'" Examples.lexer)
  = (true, Lexer.PushToken Lexer.kString 0 "ab"
             (Lexer.set_itr (Lexer.Init "'ab'" Examples.lexer) 4)).
Proof.
  apply (ScanString_reads_a_closed_string Examples.no_escape Examples.no_blank
           (Lexer.Init "'ab'" Examples.lexer) 2);
    first [reflexivity | unfold Lexer.len_; simpl; lia].
Defined.

Lemma ScanString_reports_an_open_string_witness :
  Lexer.ScanString Examples.no_escape Examples.no_blank (Lexer.Init "'ab" Examples.lexer)
  = (false, Lexer.PushToken Lexer.kError 0 "Malformed string."
              (Lexer.set_itr (Lexer.Init "'ab" Examples.lexer) 3)).
Proof.
  apply (ScanString_reports_an_open_string Examples.no_escape Examples.no_blank
           (Lexer.Init "'ab" Examples.lexer) 2); reflexivity.
Defined.

Lemma ScanString_rejects_a_doubled_mark_at_the_end_witness :
  Lexer.ScanString Examples.no_escape Examples.no_blank (Lexer.Init "'a'''" Examples.lexer)
  = (false, Lexer.PushToken Lexer.kError 0 "Malformed string."
              (Lexer.set_itr (Lexer.Init "'a'''" Examples.lexer) 5)).
Proof.
  apply (ScanString_rejects_a_doubled_mark_at_the_end Examples.no_escape
           Examples.no_blank (Lexer.Init "'a'''" Examples.lexer) 1);
    first [reflexivity | unfold Lexer.len_; simpl; lia].
Defined.

Lemma NewickLexer_ScanComment_is_silent_on_an_open_comment_witness :
  Lexer.tokens_ (Lexer.set_itr (Lexer.Init "[abc" Examples.newick_lexer) 4)
  = Lexer.tokens_ (Lexer.Init "[abc" Examples.newick_lexer)
  /\ Lexer.set_itr (Lexer.Init "[abc" Examples.newick_lexer) 4
     = (Lexer.ScanFromTo "[" "]" (Lexer.Init "[abc" Examples.newick_lexer)).2
  /\ (Lexer.set_itr (Lexer.Init "[abc" Examples.newick_lexer) 4
      = Lexer.Init "[abc" Examples.newick_lexer
      \/ Lexer.IsEnd (Lexer.set_itr (Lexer.Init "[abc" Examples.newick_lexer) 4) = true).
Proof.
  apply (NewickLexer_ScanComment_is_silent_on_an_open_comment
           (Lexer.Init "[abc" Examples.newick_lexer)); reflexivity.
Defined.

Lemma BaseLexer_stalls_on_a_tag_character_witness :
  Lexer.ProcessStep Examples.no_escape Examples.no_blank Examples.stalled_lexer
  = Lexer.Returned true Examples.stalled_lexer
  /\ Lexer.process_loop Examples.no_escape Examples.no_blank 1000 Examples.stalled_lexer
     = None.
Proof.
  apply (BaseLexer_stalls_on_a_tag_character Examples.no_escape Examples.no_blank
           Examples.stalled_lexer 1000);
    first [reflexivity | discriminate].
Defined.

Lemma ProcessString_true_means_no_error_witness :
  Lexer.error_free
    (Lexer.tokens_
       (Lexer.Build Lexer.NewickLexer "(A,B;" 5 Examples.unclosed_tokens
          (Lexer.start_char_table_ Examples.newick_lexer)
          false true false true false true true)).
Proof.
  apply (ProcessString_true_means_no_error Examples.no_escape Examples.no_blank
           Examples.newick_lexer _ "(A,B;" false 6).
  reflexivity.
Defined.

Lemma NewickLexer_ProcessString_always_returns_witness :
  exists result l,
    forall fuel, (String.length "(A,B;" < fuel)%nat ->
                 Lexer.ProcessString Examples.no_escape Examples.no_blank fuel "(A,B;"
                   false Examples.newick_lexer = Some (Lexer.Returned result l).
Proof.
  destruct (NewickLexer_ProcessString_always_returns Examples.no_escape
              Examples.no_blank Examples.newick_lexer "(A,B;" false eq_refl)
    as (o & Hrun & Hflag).
  destruct Hflag as (result & l & ->); [| exists result, l; exact Hrun].
  unfold Notions.newick_setup.
  split; [reflexivity |]. split; [reflexivity |].
  split; [| split]; intros c; destruct c as [[] [] [] [] [] [] [] []];
    vm_compute; intros H; first [discriminate H | auto].
Defined.

(** Without that setup an [assert] can stop the lexer: with signs glued to
    numbers, the operator scanner hands the text [+1] to the number scanner
    of [NewickLexer], which asserts a colon. *)
Example NewickLexer_assertion_on_the_example :
  Lexer.ProcessString Examples.no_escape Examples.no_blank 3 "+1" false
    Examples.glued_newick_lexer
  = Some (Lexer.AssertionFailed (Lexer.Init "+1" Examples.glued_newick_lexer)).
Proof. reflexivity. Qed.

(* --------------------------------------------------------------------- *)
(** ** Utils: trimming                                                     *)
(* --------------------------------------------------------------------- *)

Section TrimFacts.
Import Utils.

Variable delimiters : string.

Local Abbreviation delim := (is_delimiter delimiters).

Lemma all_delimiters_cons (c : ascii) (s : string) :
  all_delimiters delimiters (String c s)
  <-> delim c = true /\ all_delimiters delimiters s.
Proof.
  unfold all_delimiters. simpl. split.
  - intros H. inversion H. auto.
  - intros [H1 H2]. constructor; assumption.
Qed.

Lemma all_delimiters_nil : all_delimiters delimiters EmptyString.
Proof. constructor. Qed.

(** What the search from the left finds. *)
Lemma find_first_not_of_spec (s : string) :
  match find_first_not_of s delimiters with
  | None => all_delimiters delimiters s
  | Some p =>
    (p < String.length s)%nat
    /\ exists t r,
        s = (t ++ r)%string /\ String.length t = p
        /\ all_delimiters delimiters t
        /\ r = String.substring p (String.length s - p) s
        /\ exists c, first_char r = Some c /\ delim c = false
  end.
Proof.
  induction s as [| c s IH]; simpl; [apply all_delimiters_nil |].
  destruct (delim c) eqn:Ec.
  - destruct (find_first_not_of s delimiters) as [p |]; simpl.
    + destruct IH as (Hp & t & r & Hs & Ht & Hall & Hr & Hc).
      split; [lia |]. exists (String c t), r.
      split; [rewrite string_app_cons, <- Hs; reflexivity |].
      split; [simpl; lia |].
      split; [apply all_delimiters_cons; auto |].
      split; [exact Hr | exact Hc].
    + apply all_delimiters_cons. auto.
  - split; [lia |]. exists EmptyString, (String c s).
    split; [reflexivity |]. split; [reflexivity |].
    split; [apply all_delimiters_nil |].
    split; [rewrite Nat.sub_0_r; simpl; rewrite substring_all; reflexivity |].
    exists c. auto.
Qed.

Lemma last_char_cons (c : ascii) (s : string) :
  last_char (String c s) = match last_char s with Some x => Some x | None => Some c end.
Proof.
  destruct s as [| c' s]; [reflexivity |].
  change (last_char (String c (String c' s))) with (last_char (String c' s)).
  assert (H : forall s' x, exists y, last_char (String x s') = Some y).
  { induction s' as [| z s' IH]; intros x; [exists x; reflexivity |].
    destruct (IH z) as [y Hy]. exists y. rewrite <- Hy. reflexivity. }
  destruct (H s c') as [y Hy]. rewrite Hy. reflexivity.
Qed.

(** What the search from the right finds. *)
Lemma find_last_not_of_spec (s : string) :
  match find_last_not_of s delimiters with
  | None => all_delimiters delimiters s
  | Some p =>
    (p < String.length s)%nat
    /\ exists r t,
        s = (r ++ t)%string /\ String.length r = S p
        /\ all_delimiters delimiters t
        /\ r = String.substring 0 (S p) s
        /\ exists c, last_char r = Some c /\ delim c = false
  end.
Proof.
  induction s as [| c s IH]; simpl; [apply all_delimiters_nil |].
  destruct (find_last_not_of s delimiters) as [p |].
  - destruct IH as (Hp & r & t & Hs & Hr & Hall & Hsub & x & Hx & Hdx).
    split; [lia |]. exists (String c r), t.
    split; [rewrite string_app_cons, <- Hs; reflexivity |].
    split; [simpl; lia |].
    split; [exact Hall |].
    split; [rewrite <- Hsub; reflexivity |].
    exists x. rewrite last_char_cons, Hx. auto.
  - destruct (delim c) eqn:Ec.
    + apply all_delimiters_cons. auto.
    + split; [lia |]. exists (String c EmptyString), s.
      split; [reflexivity |]. split; [reflexivity |].
      split; [exact IH |].
      split; [rewrite substring_0_0; reflexivity |].
      exists c. auto.
Qed.


Lemma all_delimiters_app (s1 s2 : string) :
  all_delimiters delimiters (s1 ++ s2)
  <-> all_delimiters delimiters s1 /\ all_delimiters delimiters s2.
Proof.
  induction s1 as [| c s1 IH].
  - simpl. split; [intros H; split; [apply all_delimiters_nil | exact H] | intros [_ H]; exact H].
  - rewrite string_app_cons, !all_delimiters_cons, IH. tauto.
Qed.

Lemma all_delimiters_first_char (s : string) (c : ascii) :
  all_delimiters delimiters s -> first_char s = Some c -> delim c = true.
Proof.
  destruct s as [| x s]; [discriminate |].
  intros H [= <-]. apply all_delimiters_cons in H. apply H.
Qed.

Lemma last_char_app (t r : string) :
  r <> EmptyString -> last_char (t ++ r) = last_char r.
Proof.
  intros Hr. induction t as [| c t IH]; [reflexivity |].
  rewrite string_app_cons, last_char_cons, IH.
  destruct r as [| x r]; [contradiction |].
  rewrite last_char_cons. destruct (last_char r); reflexivity.
Qed.

Lemma gtb_no (a b : Z) : a <= b -> (a >? b) = false.
Proof. intros H. rewrite Z.gtb_ltb. apply Z.ltb_ge. exact H. Qed.

Lemma gtb_yes (a b : Z) : b < a -> (a >? b) = true.
Proof. intros H. rewrite Z.gtb_ltb. apply Z.ltb_lt. exact H. Qed.

Lemma npos_plus_one : size_t (npos + 1) = 0.
Proof. reflexivity. Qed.

Lemma StringTrimRight_found (s : string) (p : nat) :
  Z.of_nat (String.length s) < npos -> (p < String.length s)%nat ->
  find_last_not_of s delimiters = Some p ->
  StringTrimRight s delimiters = Some (String.substring 0 (S p) s).
Proof.
  intros Hlen Hp Hfind. unfold StringTrimRight, substr. rewrite Hfind. simpl position.
  unfold npos in Hlen.
  rewrite gtb_no by lia.
  unfold size_t. rewrite Z.mod_small by lia.
  replace (Z.to_nat (Z.min (Z.of_nat p + 1) (Z.of_nat (String.length s) - 0)))
    with (S p) by lia.
  reflexivity.
Qed.

Lemma StringTrimRight_blank (s : string) :
  find_last_not_of s delimiters = None ->
  StringTrimRight s delimiters = Some EmptyString.
Proof.
  intros Hfind. unfold StringTrimRight, substr. rewrite Hfind. simpl position.
  rewrite npos_plus_one, gtb_no by lia.
  replace (Z.to_nat (Z.min 0 (Z.of_nat (String.length s) - 0))) with 0%nat by lia.
  simpl. rewrite substring_0_0. reflexivity.
Qed.

Lemma StringTrimRight_spec (s : string) :
  Z.of_nat (String.length s) < npos ->
  exists r t,
    StringTrimRight s delimiters = Some r
    /\ s = (r ++ t)%string
    /\ all_delimiters delimiters t
    /\ (forall c, last_char r = Some c -> delim c = false)
    /\ (all_delimiters delimiters s -> r = EmptyString).
Proof.
  intros Hlen. pose proof (find_last_not_of_spec s) as Hspec.
  destruct (find_last_not_of s delimiters) as [p |] eqn:Hfind.
  - destruct Hspec as (Hp & r & t & Hs & Hr & Hall & Hsub & x & Hx & Hdx).
    exists r, t. rewrite (StringTrimRight_found s p Hlen Hp Hfind), <- Hsub.
    split; [reflexivity | split; [exact Hs | split; [exact Hall | split]]].
    + intros c Hc. congruence.
    + intros Hblank. rewrite Hs in Hblank. apply all_delimiters_app in Hblank.
      destruct Hblank as [Hblank _]. exfalso.
      assert (Hne : r <> EmptyString) by (intros ->; discriminate).
      clear - Hblank Hx Hdx. induction r as [| c r IH]; [discriminate |].
      apply all_delimiters_cons in Hblank. destruct Hblank as [Hc Hrest].
      rewrite last_char_cons in Hx. destruct (last_char r) as [y |] eqn:Ey.
      * apply IH; assumption.
      * injection Hx as <-. congruence.
  - exists EmptyString, s. rewrite (StringTrimRight_blank s Hfind).
    split; [reflexivity | split; [reflexivity | split; [exact Hspec | split]]].
    + discriminate.
    + reflexivity.
Qed.

Lemma StringTrimLeft_found (s : string) (p : nat) :
  Z.of_nat (String.length s) < npos -> (p < String.length s)%nat ->
  find_first_not_of s delimiters = Some p ->
  StringTrimLeft s delimiters = Some (String.substring p (String.length s - p) s).
Proof.
  intros Hlen Hp Hfind. unfold StringTrimLeft, substr. rewrite Hfind. simpl position.
  unfold npos in *.
  rewrite gtb_no by lia.
  rewrite Nat2Z.id.
  replace (Z.to_nat (Z.min (2 ^ 64 - 1) (Z.of_nat (String.length s) - Z.of_nat p)))
    with (String.length s - p)%nat by lia.
  reflexivity.
Qed.

Lemma StringTrimLeft_blank (s : string) :
  Z.of_nat (String.length s) < npos ->
  find_first_not_of s delimiters = None ->
  StringTrimLeft s delimiters = None.
Proof.
  intros Hlen Hfind. unfold StringTrimLeft, substr. rewrite Hfind. simpl position.
  rewrite gtb_yes by lia. reflexivity.
Qed.

Lemma find_first_not_of_blank (s : string) :
  all_delimiters delimiters s -> find_first_not_of s delimiters = None.
Proof.
  intros Hblank. pose proof (find_first_not_of_spec s) as Hspec.
  destruct (find_first_not_of s delimiters) as [p |]; [| reflexivity].
  destruct Hspec as (_ & t & r & Hs & _ & _ & _ & c & Hc & Hdc).
  rewrite Hs in Hblank. apply all_delimiters_app in Hblank.
  rewrite (all_delimiters_first_char r c (proj2 Hblank) Hc) in Hdc. discriminate.
Qed.

Lemma StringTrimLeft_spec (s : string) :
  Z.of_nat (String.length s) < npos ->
  (StringTrimLeft s delimiters = None <-> all_delimiters delimiters s)
  /\ (forall r, StringTrimLeft s delimiters = Some r ->
        exists t,
          s = (t ++ r)%string /\ all_delimiters delimiters t
          /\ exists c, first_char r = Some c /\ delim c = false).
Proof.
  intros Hlen. pose proof (find_first_not_of_spec s) as Hspec.
  destruct (find_first_not_of s delimiters) as [p |] eqn:Hfind.
  - destruct Hspec as (Hp & t & r & Hs & Ht & Hall & Hsub & Hc).
    rewrite (StringTrimLeft_found s p Hlen Hp Hfind), <- Hsub. split.
    + split; [discriminate |]. intros Hblank.
      rewrite (find_first_not_of_blank s Hblank) in Hfind. discriminate.
    + intros r' [= <-]. exists t. auto.
  - rewrite (StringTrimLeft_blank s Hlen Hfind). split.
    + split; [intros _; exact Hspec | reflexivity].
    + discriminate.
Qed.

(** X22.  [StringTrimRight] always returns; what it returns is the string
    without the delimiters at its end: the rest of the string holds
    delimiters only, and the result does not end in a delimiter.  A string
    of delimiters only gives the empty string ([npos + 1] wraps to 0). *)
Theorem StringTrimRight_removes_the_delimiters_at_the_end (s : string) :
  Z.of_nat (String.length s) < npos ->
  exists r t,
    StringTrimRight s delimiters = Some r
    /\ s = (r ++ t)%string
    /\ all_delimiters delimiters t
    /\ (forall c, last_char r = Some c -> delim c = false)
    /\ (all_delimiters delimiters s -> r = EmptyString).
Proof. apply StringTrimRight_spec. Qed.

(** X23.  [StringTrimLeft] throws on the empty string and on every string
    of delimiters only ([substr] is asked for the position [npos], behind
    the end of the string); on any other string it returns the string
    without the delimiters at its beginning. *)
Theorem StringTrimLeft_throws_on_a_blank_string (s : string) :
  Z.of_nat (String.length s) < npos ->
  (StringTrimLeft s delimiters = None <-> all_delimiters delimiters s)
  /\ (forall r, StringTrimLeft s delimiters = Some r ->
        exists t,
          s = (t ++ r)%string /\ all_delimiters delimiters t
          /\ exists c, first_char r = Some c /\ delim c = false).
Proof. apply StringTrimLeft_spec. Qed.

(** X24.  [StringTrim] throws on the empty string and on every string of
    delimiters only; on any other string it returns the string without the
    delimiters at its beginning and at its end. *)
Theorem StringTrim_throws_on_a_blank_string (s : string) :
  Z.of_nat (String.length s) < npos ->
  (StringTrim s delimiters = None <-> all_delimiters delimiters s)
  /\ (forall r, StringTrim s delimiters = Some r ->
        exists t1 t2,
          s = (t1 ++ r ++ t2)%string
          /\ all_delimiters delimiters t1 /\ all_delimiters delimiters t2
          /\ (exists c, first_char r = Some c /\ delim c = false)
          /\ (exists c, last_char r = Some c /\ delim c = false)).
Proof.
  intros Hlen.
  destruct (StringTrimRight_spec s Hlen)
    as (r1 & t2 & Hright & Hs & Ht2 & Hlast & Hblank).
  assert (Hlen1 : Z.of_nat (String.length r1) < npos).
  { rewrite Hs, string_length_app in Hlen. lia. }
  destruct (StringTrimLeft_spec r1 Hlen1) as [Hnone Hsome].
  unfold StringTrim. rewrite Hright. split.
  - rewrite Hnone. split.
    + intros H1. rewrite Hs. apply all_delimiters_app. auto.
    + intros H. rewrite (Hblank H). apply all_delimiters_nil.
  - intros r Hr. destruct (Hsome r Hr) as (t1 & Hr1 & Ht1 & c & Hc & Hdc).
    exists t1, t2. rewrite Hs, Hr1, string_app_assoc.
    split; [reflexivity | split; [exact Ht1 | split; [exact Ht2 | split]]].
    + exists c. auto.
    + assert (Hne : r <> EmptyString) by (intros ->; discriminate).
      destruct r1 as [| x r1']; [destruct t1; discriminate |].
      assert (Hl : exists y, last_char (String x r1') = Some y).
      { clear. revert x. induction r1' as [| z r1' IH]; intros x; [exists x; reflexivity |].
        destruct (IH z) as [y Hy]. exists y. rewrite <- Hy. reflexivity. }
      destruct Hl as [y Hy]. exists y.
      rewrite <- (last_char_app t1 r Hne), <- Hr1. split; [exact Hy | apply Hlast, Hy].
Qed.

End TrimFacts.

Lemma StringTrimRight_removes_the_delimiters_at_the_end_witness :
  exists r t,
    Utils.StringTrimRight "  ab c  " Utils.whitespace = Some r
    /\ "  ab c  "%string = (r ++ t)%string
    /\ Utils.all_delimiters Utils.whitespace t
    /\ (forall c, Utils.last_char r = Some c ->
                  Utils.is_delimiter Utils.whitespace c = false)
    /\ (Utils.all_delimiters Utils.whitespace "  ab c  " -> r = EmptyString).
Proof.
  apply (StringTrimRight_removes_the_delimiters_at_the_end Utils.whitespace "  ab c  ").
  vm_compute. reflexivity.
Defined.

Lemma StringTrimLeft_throws_on_a_blank_string_witness :
  (Utils.StringTrimLeft "   " Utils.whitespace = None
   <-> Utils.all_delimiters Utils.whitespace "   ")
  /\ (forall r, Utils.StringTrimLeft "   " Utils.whitespace = Some r ->
        exists t,
          "   "%string = (t ++ r)%string /\ Utils.all_delimiters Utils.whitespace t
          /\ exists c, Utils.first_char r = Some c
                       /\ Utils.is_delimiter Utils.whitespace c = false).
Proof.
  apply (StringTrimLeft_throws_on_a_blank_string Utils.whitespace "   ").
  vm_compute. reflexivity.
Defined.

Lemma StringTrim_throws_on_a_blank_string_witness :
  (Utils.StringTrim "  ab c  " Utils.whitespace = None
   <-> Utils.all_delimiters Utils.whitespace "  ab c  ")
  /\ (forall r, Utils.StringTrim "  ab c  " Utils.whitespace = Some r ->
        exists t1 t2,
          "  ab c  "%string = (t1 ++ r ++ t2)%string
          /\ Utils.all_delimiters Utils.whitespace t1
          /\ Utils.all_delimiters Utils.whitespace t2
          /\ (exists c, Utils.first_char r = Some c
                        /\ Utils.is_delimiter Utils.whitespace c = false)
          /\ (exists c, Utils.last_char r = Some c
                        /\ Utils.is_delimiter Utils.whitespace c = false)).
Proof.
  apply (StringTrim_throws_on_a_blank_string Utils.whitespace "  ab c  ").
  vm_compute. reflexivity.
Defined.

(** The three functions on a text and on a blank string. *)
Example trimming_on_the_examples :
  Utils.StringTrimRight "  ab c  " Utils.whitespace = Some "  ab c"%string
  /\ Utils.StringTrimLeft "  ab c  " Utils.whitespace = Some "ab c  "%string
  /\ Utils.StringTrim "  ab c  " Utils.whitespace = Some "ab c"%string
  /\ Utils.StringTrimRight "   " Utils.whitespace = Some ""%string
  /\ Utils.StringTrimLeft "   " Utils.whitespace = None
  /\ Utils.StringTrim "   " Utils.whitespace = None
  /\ Utils.StringTrim "" Utils.whitespace = None.
Proof. repeat split; vm_compute; reflexivity. Qed.

(* --------------------------------------------------------------------- *)
(** ** SequenceSet                                                         *)
(* --------------------------------------------------------------------- *)

Section SequenceSetFacts.
Import SequenceSet.

Variable Sequence : Type.
Variable Label : Sequence -> string.

Local Abbreviation State := (State Sequence).
Local Abbreviation find_sequence_loop := (find_sequence_loop Sequence Label).
Local Abbreviation FindSequence := (FindSequence Sequence Label).
Local Abbreviation remove_loop := (remove_loop Sequence Label).
Local Abbreviation RemoveList := (RemoveList Sequence Label).
Local Abbreviation kept := (kept Sequence Label).
Local Abbreviation labelled := (labelled Sequence Label).
Local Abbreviation removes := (removes Sequence Label).

(** The search goes to the first pointer whose sequence has the label. *)
Lemma find_sequence_loop_first (store : gmap nat Sequence) (label : string) (seqs : list nat) :
  (forall p, p ∈ seqs -> is_Some (store !! p)) ->
  find_sequence_loop store label seqs = Some (head (List.filter (labelled store label) seqs)).
Proof.
  induction seqs as [| s rest IH]; intros Hlive; [reflexivity |].
  simpl. unfold SequenceSet.labelled at 1.
  destruct (Hlive s) as [q Hq]; [left |]. rewrite Hq.
  destruct (String.eqb (Label q) label); [reflexivity |].
  apply IH. intros p Hp. apply Hlive. right. exact Hp.
Qed.


Lemma head_filter_Some {A : Type} (f : A -> bool) (l : list A) (x : A) :
  head (List.filter f l) = Some x ->
  exists i, l !! i = Some x /\ f x = true
            /\ forall j y, (j < i)%nat -> l !! j = Some y -> f y = false.
Proof.
  induction l as [| a l IH]; simpl; [discriminate |].
  destruct (f a) eqn:Ea; simpl.
  - intros [= <-]. exists 0%nat. split; [reflexivity | split; [exact Ea |]].
    intros j y Hj. lia.
  - intros H. destruct (IH H) as (i & Hi & Hx & Hmin).
    exists (S i). split; [exact Hi | split; [exact Hx |]].
    intros [| j] y Hj Hy; [injection Hy as <-; exact Ea |].
    apply (Hmin j y); [lia | exact Hy].
Qed.

Lemma head_filter_None {A : Type} (f : A -> bool) (l : list A) :
  head (List.filter f l) = None -> forall x, x ∈ l -> f x = false.
Proof.
  induction l as [| a l IH]; simpl; intros H x Hx.
  - apply elem_of_nil in Hx. contradiction.
  - destruct (f a) eqn:Ea; [discriminate |].
    apply elem_of_cons in Hx. destruct Hx as [-> | Hx]; [exact Ea | apply IH; assumption].
Qed.

(** X25.  [FindSequence] returns the first sequence of the set that has the
    label, and [nullptr] exactly when no sequence of the set has it. *)
Theorem FindSequence_returns_the_first_match (st : State) (label : string) :
  (forall p, p ∈ sequences st -> is_Some (store st !! p)) ->
  exists r,
    FindSequence st label = Some r
    /\ match r with
       | Some p =>
         exists i q,
           sequences st !! i = Some p /\ store st !! p = Some q /\ Label q = label
           /\ forall j p' q', (j < i)%nat -> sequences st !! j = Some p' ->
                              store st !! p' = Some q' -> Label q' <> label
       | None =>
         forall p q, p ∈ sequences st -> store st !! p = Some q -> Label q <> label
       end.
Proof.
  intros Hlive. unfold SequenceSet.FindSequence.
  rewrite (find_sequence_loop_first _ _ _ Hlive). eexists. split; [reflexivity |].
  destruct (head (List.filter (labelled (store st) label) (sequences st))) as [p |] eqn:E.
  - destruct (head_filter_Some _ _ _ E) as (i & Hi & Hp & Hmin).
    unfold SequenceSet.labelled in Hp.
    destruct (store st !! p) as [q |] eqn:Hq; [| discriminate].
    exists i, q. split; [exact Hi | split; [reflexivity | split]].
    + apply String.eqb_eq. exact Hp.
    + intros j p' q' Hj Hp' Hq'. specialize (Hmin j p' Hj Hp').
      unfold SequenceSet.labelled in Hmin. rewrite Hq' in Hmin.
      apply String.eqb_neq. exact Hmin.
  - intros p q Hp Hq. pose proof (head_filter_None _ _ E p Hp) as H.
    unfold SequenceSet.labelled in H. rewrite Hq in H. apply String.eqb_neq. exact H.
Qed.

(** The loop of [RemoveList], from a state in which the elements in front
    of [re] are [done], the ones up to [it] are [junk], and [rest] is
    still to be looked at. *)
Lemma remove_loop_run (lmap : gset string) (invert : bool) (rest : list nat) :
  forall n done junk (h : gmap nat Sequence),
    (length rest <= n)%nat ->
    NoDup rest ->
    (forall p, p ∈ rest -> is_Some (h !! p)) ->
    exists seqs h' re,
      remove_loop n lmap invert (done ++ junk ++ rest) h
                  (length done + length junk) (length done)
      = Some (seqs, h', re)
      /\ take re seqs
         = done ++ List.filter
                     (fun p => match h !! p with
                               | Some q => negb (removes lmap invert q)
                               | None => false
                               end) rest
      /\ (forall p, h' !! p
                    = if bool_decide (p ∈ rest)
                         && match h !! p with
                            | Some q => removes lmap invert q
                            | None => false
                            end
                      then None else h !! p).
Proof.
  induction rest as [| p rest IH]; intros n done junk h Hn Hnodup Hlive.
  - exists (done ++ junk ++ []), h, (length done).
    split; [| split].
    + destruct n as [| n]; [reflexivity |]. simpl.
      rewrite app_nil_r, lookup_ge_None_2 by (rewrite length_app; lia). reflexivity.
    + rewrite take_app_length. simpl. rewrite app_nil_r. reflexivity.
    + intros p. rewrite bool_decide_eq_false_2 by (apply not_elem_of_nil). reflexivity.
  - destruct n as [| n]; [simpl in Hn; lia |].
    apply NoDup_cons in Hnodup. destruct Hnodup as [Hp Hnodup].
    destruct (Hlive p) as [q Hq]; [left |].
    assert (Hat : (done ++ junk ++ p :: rest) !! (length done + length junk)%nat = Some p).
    { rewrite app_assoc, lookup_app_r by (rewrite length_app; lia).
      rewrite length_app, Nat.sub_diag. reflexivity. }
    cbn [SequenceSet.remove_loop]. rewrite Hat, Hq.
    destruct (removes lmap invert q) eqn:Er.
    + destruct (IH n done (junk ++ [p]) (delete p h)) as (seqs & h' & re & Hrun & Htake & Hstore).
      { simpl in Hn. lia. }
      { exact Hnodup. }
      { intros p' Hp'. rewrite lookup_delete_ne by (intros ->; contradiction).
        apply Hlive. right. exact Hp'. }
      exists seqs, h', re.
      rewrite length_app in Hrun. simpl in Hrun.
      replace (done ++ (junk ++ [p]) ++ rest) with (done ++ junk ++ p :: rest) in Hrun
        by (rewrite <- (app_assoc junk); reflexivity).
      replace (length done + (length junk + 1))%nat with (S (length done + length junk)) in Hrun
        by lia.
      split; [exact Hrun | split].
      * rewrite Htake. simpl. rewrite Hq, Er. simpl. f_equal.
        apply List.filter_ext_in. intros p' Hp'.
        rewrite lookup_delete_ne; [reflexivity |].
        intros ->. apply Hp. apply list_elem_of_In. exact Hp'.
      * intros p'. rewrite Hstore. destruct (decide (p' = p)) as [-> | Hne].
        -- rewrite lookup_delete_eq, Hq, Er.
           rewrite (bool_decide_eq_false_2 (p ∈ rest)) by exact Hp.
           rewrite (bool_decide_eq_true_2 (p ∈ p :: rest)) by left. reflexivity.
        -- rewrite lookup_delete_ne by congruence.
           destruct (decide (p' ∈ rest)) as [Hin | Hnin].
           ++ rewrite (bool_decide_eq_true_2 _ Hin).
              rewrite (bool_decide_eq_true_2 (p' ∈ p :: rest)) by (right; exact Hin).
              reflexivity.
           ++ rewrite (bool_decide_eq_false_2 _ Hnin).
              rewrite (bool_decide_eq_false_2 (p' ∈ p :: rest)); [reflexivity |].
              intros H. apply elem_of_cons in H. destruct H; contradiction.
    + assert (Hnew : exists junk',
                 <[ length done := p ]> (done ++ junk ++ p :: rest)
                 = (done ++ [p]) ++ junk' ++ rest
                 /\ length junk' = length junk).
      { destruct junk as [| j junk].
        - exists []. split; [| reflexivity]. simpl.
          rewrite insert_app_r_alt, Nat.sub_diag by lia. simpl.
          rewrite <- app_assoc. reflexivity.
        - exists (junk ++ [p]). split; [| rewrite length_app; simpl; lia].
          rewrite insert_app_r_alt, Nat.sub_diag by lia. simpl.
          rewrite <- !app_assoc. reflexivity. }
      destruct Hnew as (junk' & Hnew & Hjunk'). rewrite Hnew.
      destruct (IH n (done ++ [p]) junk' h) as (seqs & h' & re & Hrun & Htake & Hstore).
      { simpl in Hn. lia. }
      { exact Hnodup. }
      { intros p' Hp'. apply Hlive. right. exact Hp'. }
      exists seqs, h', re.
      rewrite length_app, Hjunk' in Hrun. simpl in Hrun.
      replace (length done + 1 + length junk)%nat with (S (length done + length junk)) in Hrun
        by lia.
      replace (length done + 1)%nat with (S (length done)) in Hrun by lia.
      split; [exact Hrun | split].
      * rewrite Htake. simpl. rewrite Hq, Er. simpl. rewrite <- app_assoc. reflexivity.
      * intros p'. rewrite Hstore. destruct (decide (p' = p)) as [-> | Hne].
        -- rewrite Hq, Er, !andb_false_r. reflexivity.
        -- destruct (decide (p' ∈ rest)) as [Hin | Hnin].
           ++ rewrite (bool_decide_eq_true_2 _ Hin).
              rewrite (bool_decide_eq_true_2 (p' ∈ p :: rest)) by (right; exact Hin).
              reflexivity.
           ++ rewrite (bool_decide_eq_false_2 _ Hnin).
              rewrite (bool_decide_eq_false_2 (p' ∈ p :: rest)); [reflexivity |].
              intros H. apply elem_of_cons in H. destruct H; contradiction.
Qed.


Lemma NoDup_bool_filter {A : Type} (f : A -> bool) (l : list A) :
  NoDup l -> NoDup (List.filter f l).
Proof.
  induction 1 as [| x l Hx _ IH]; simpl; [constructor |].
  destruct (f x); [| exact IH].
  constructor; [| exact IH].
  intros Hin. apply Hx. apply list_elem_of_In, List.filter_In in Hin.
  apply list_elem_of_In, Hin.
Qed.

Lemma RemoveList_runs (labels : list string) (invert : bool) (st : State) :
  valid Sequence st ->
  exists st',
    RemoveList labels invert st = Some st'
    /\ sequences st' = List.filter (kept labels invert (store st)) (sequences st)
    /\ (forall p, store st' !! p
                  = if bool_decide (p ∈ sequences st)
                       && negb (kept labels invert (store st) p)
                    then None else store st !! p)
    /\ valid Sequence st'.
Proof.
  intros [Hnodup Hlive].
  destruct (remove_loop_run (list_to_set labels) invert (sequences st)
              (length (sequences st)) [] [] (store st) (le_n _) Hnodup Hlive)
    as (seqs & h' & re & Hrun & Htake & Hstore).
  simpl in Hrun, Htake.
  assert (Hstore' : forall p, h' !! p
                    = if bool_decide (p ∈ sequences st)
                         && negb (kept labels invert (store st) p)
                      then None else store st !! p).
  { intros p. rewrite Hstore. unfold SequenceSet.kept.
    destruct (decide (p ∈ sequences st)) as [Hin | Hnin].
    - rewrite (bool_decide_eq_true_2 _ Hin). destruct (Hlive p Hin) as [q Hq].
      rewrite Hq, negb_involutive. reflexivity.
    - rewrite (bool_decide_eq_false_2 _ Hnin). reflexivity. }
  exists (Build (take re seqs) h').
  unfold SequenceSet.RemoveList. rewrite Hrun.
  split; [reflexivity | split; [exact Htake | split; [exact Hstore' |]]].
  split; simpl.
  - rewrite Htake. apply NoDup_bool_filter, Hnodup.
  - intros p Hp. rewrite Htake in Hp.
    apply list_elem_of_In, List.filter_In in Hp. destruct Hp as [Hp Hkept].
    cbv beta in Hkept. rewrite Hstore'. unfold SequenceSet.kept.
    rewrite Hkept, andb_false_r.
    apply Hlive, list_elem_of_In, Hp.
Qed.

(** X26.  On a set of different pointers to sequences on the store,
    [RemoveList] returns; it keeps, in their order, exactly the sequences
    its test does not select (those whose label is not in the list, or,
    inverted, those whose label is in it), deletes each of the others
    from the store once, and leaves the rest of the store alone. *)
Theorem RemoveList_keeps_the_others_in_order
    (labels : list string) (invert : bool) (st : State) :
  valid Sequence st ->
  exists st',
    RemoveList labels invert st = Some st'
    /\ sequences st' = List.filter (kept labels invert (store st)) (sequences st)
    /\ (forall p, store st' !! p
                  = if bool_decide (p ∈ sequences st)
                       && negb (kept labels invert (store st) p)
                    then None else store st !! p)
    /\ valid Sequence st'.
Proof. apply RemoveList_runs. Qed.

Lemma filter_of_kept {A : Type} (f g h : A -> bool) (b : bool) (l : list A) :
  (forall x, In x l -> g x = true -> f x = b && h x) ->
  (forall x, In x l -> h x = true -> g x = b) ->
  List.filter f (List.filter g l) = if b then List.filter h l else [].
Proof.
  induction l as [| x l IH]; intros Hf Hg; [destruct b; reflexivity |].
  assert (IH' : List.filter f (List.filter g l) = if b then List.filter h l else [])
    by (apply IH; intros y Hy; [apply Hf | apply Hg]; right; exact Hy).
  simpl. destruct (g x) eqn:Eg; simpl.
  - rewrite (Hf x (or_introl eq_refl) Eg), IH'.
    destruct b; simpl; [destruct (h x); reflexivity | reflexivity].
  - rewrite IH'. destruct b; [| reflexivity].
    destruct (h x) eqn:Eh; [| reflexivity].
    rewrite (Hg x (or_introl eq_refl) Eh) in Eg. discriminate.
Qed.

Lemma removes_by_label (labels : list string) (invert : bool) (q : Sequence) :
  removes (list_to_set labels) invert q
  = xorb invert (bool_decide (Label q ∈ labels)).
Proof.
  unfold SequenceSet.removes.
  destruct (decide (Label q ∈ labels)) as [Hin | Hnin].
  - rewrite (bool_decide_eq_true_2 (Label q ∈ labels) Hin).
    rewrite bool_decide_eq_true_2 by (apply elem_of_list_to_set; exact Hin).
    destruct invert; reflexivity.
  - rewrite (bool_decide_eq_false_2 (Label q ∈ labels) Hnin).
    rewrite bool_decide_eq_false_2 by (rewrite elem_of_list_to_set; exact Hnin).
    destruct invert; reflexivity.
Qed.

(** X27.  After [RemoveList], [FindSequence] finds no sequence for a label
    that was to be removed, and for any other label the sequence it found
    before. *)
Theorem FindSequence_after_RemoveList
    (labels : list string) (invert : bool) (st st' : State) (label : string) :
  valid Sequence st ->
  RemoveList labels invert st = Some st' ->
  FindSequence st' label
  = if xorb invert (bool_decide (label ∈ labels)) then Some None
    else FindSequence st label.
Proof.
  intros Hvalid Hrun.
  destruct (RemoveList_runs labels invert st Hvalid)
    as (st'' & Hrun' & Hseqs & Hstore & Hvalid').
  rewrite Hrun in Hrun'. injection Hrun' as <-.
  destruct Hvalid as [Hnodup Hlive]. destruct Hvalid' as [_ Hlive'].
  unfold SequenceSet.FindSequence.
  rewrite (find_sequence_loop_first _ _ _ Hlive'), (find_sequence_loop_first _ _ _ Hlive), Hseqs.
  assert (Hsame : forall p, In p (sequences st) ->
            kept labels invert (store st) p = true ->
            labelled (store st') label p
            = negb (xorb invert (bool_decide (label ∈ labels)))
              && labelled (store st) label p).
  { intros p Hp Hkept. unfold SequenceSet.labelled. rewrite Hstore, Hkept, andb_false_r.
    unfold SequenceSet.kept in Hkept.
    destruct (store st !! p) as [q |]; [| discriminate].
    destruct (String.eqb_spec (Label q) label) as [E | E];
      [| symmetry; apply andb_false_r].
    rewrite removes_by_label, E in Hkept. rewrite Hkept. reflexivity. }
  assert (Hall : forall p, In p (sequences st) ->
            labelled (store st) label p = true ->
            kept labels invert (store st) p
            = negb (xorb invert (bool_decide (label ∈ labels)))).
  { intros p Hp Hl. unfold SequenceSet.labelled, SequenceSet.kept in *.
    destruct (store st !! p) as [q |]; [| discriminate].
    apply String.eqb_eq in Hl. rewrite removes_by_label, Hl. reflexivity. }
  rewrite (filter_of_kept _ _ _ _ _ Hsame Hall).
  destruct (xorb invert (bool_decide (label ∈ labels))); reflexivity.
Qed.

Lemma clear_loop_runs (seqs : list nat) :
  forall h : gmap nat Sequence,
    (forall p, p ∈ seqs -> is_Some (h !! p)) ->
    match clear_loop Sequence seqs h with
    | Some h' =>
      NoDup seqs /\ forall p, h' !! p = if bool_decide (p ∈ seqs) then None else h !! p
    | None => ~ NoDup seqs
    end.
Proof.
  induction seqs as [| s rest IH]; intros h Hlive; cbn [SequenceSet.clear_loop].
  - split; [constructor |]. intros p.
    rewrite bool_decide_eq_false_2 by apply not_elem_of_nil. reflexivity.
  - destruct (Hlive s) as [q Hq]; [left |]. rewrite Hq.
    destruct (decide (s ∈ rest)) as [Hin | Hnin].
    + assert (Hnone : clear_loop Sequence rest (delete s h) = None).
      { clear - Hin. revert h. induction rest as [| r rest IH]; intros h.
        - apply elem_of_nil in Hin. contradiction.
        - simpl. apply elem_of_cons in Hin. destruct Hin as [<- | Hin].
          + rewrite lookup_delete_eq. reflexivity.
          + destruct (delete s h !! r) eqn:Er; [| reflexivity].
            rewrite delete_delete. apply IH, Hin. }
      rewrite Hnone. intros Hnodup. apply NoDup_cons in Hnodup. tauto.
    + specialize (IH (delete s h)).
      destruct (clear_loop Sequence rest (delete s h)) as [h' |].
      * destruct IH as [Hnodup Hstore].
        { intros p Hp. rewrite lookup_delete_ne by (intros ->; contradiction).
          apply Hlive. right. exact Hp. }
        split; [apply NoDup_cons; auto |].
        intros p. rewrite Hstore. destruct (decide (p = s)) as [-> | Hne].
        -- rewrite (bool_decide_eq_false_2 _ Hnin), lookup_delete_eq.
           rewrite bool_decide_eq_true_2 by left. reflexivity.
        -- rewrite lookup_delete_ne by congruence.
           destruct (decide (p ∈ rest)) as [Hp | Hp].
           ++ rewrite (bool_decide_eq_true_2 _ Hp).
              rewrite bool_decide_eq_true_2 by (right; exact Hp). reflexivity.
           ++ rewrite (bool_decide_eq_false_2 _ Hp).
              rewrite bool_decide_eq_false_2; [reflexivity |].
              intros H. apply elem_of_cons in H. destruct H; contradiction.
      * intros Hnodup. apply NoDup_cons in Hnodup. apply IH; [| tauto].
        intros p Hp. rewrite lookup_delete_ne by (intros ->; contradiction).
        apply Hlive. right. exact Hp.
Qed.

(** X28.  [clear] on pointers to sequences on the store is defined exactly
    when no pointer stands in the set twice (a second one would be deleted
    twice); it then leaves the set empty, has deleted each of its
    sequences, and has left the rest of the store alone. *)
Theorem clear_deletes_each_sequence_once (st : State) :
  (forall p, p ∈ sequences st -> is_Some (store st !! p)) ->
  match clear Sequence st with
  | Some st' =>
    NoDup (sequences st) /\ sequences st' = []
    /\ forall p, store st' !! p
                 = if bool_decide (p ∈ sequences st) then None else store st !! p
  | None => ~ NoDup (sequences st)
  end.
Proof.
  intros Hlive. unfold SequenceSet.clear.
  pose proof (clear_loop_runs (sequences st) (store st) Hlive) as H.
  destruct (clear_loop Sequence (sequences st) (store st)) as [h' |].
  - destruct H as [Hnodup Hstore]. simpl. auto.
  - exact H.
Qed.

End SequenceSetFacts.

Lemma sequence_set_valid : SequenceSet.valid string Examples.sequence_set.
Proof.
  split.
  - apply (bool_decide_unpack _). vm_compute. exact I.
  - intros p Hp. apply (bool_decide_unpack _).
    repeat (apply elem_of_cons in Hp; destruct Hp as [-> | Hp]; [vm_compute; exact I |]).
    apply elem_of_nil in Hp. contradiction.
Qed.

Lemma FindSequence_returns_the_first_match_witness :
  exists r,
    SequenceSet.FindSequence string Examples.sequence_label Examples.sequence_set "B"
    = Some r
    /\ match r with
       | Some p =>
         exists i q,
           SequenceSet.sequences Examples.sequence_set !! i = Some p
           /\ SequenceSet.store Examples.sequence_set !! p = Some q
           /\ Examples.sequence_label q = "B"%string
           /\ forall j p' q', (j < i)%nat ->
                SequenceSet.sequences Examples.sequence_set !! j = Some p' ->
                SequenceSet.store Examples.sequence_set !! p' = Some q' ->
                Examples.sequence_label q' <> "B"%string
       | None =>
         forall p q, p ∈ SequenceSet.sequences Examples.sequence_set ->
                     SequenceSet.store Examples.sequence_set !! p = Some q ->
                     Examples.sequence_label q <> "B"%string
       end.
Proof.
  apply (FindSequence_returns_the_first_match string Examples.sequence_label
           Examples.sequence_set "B").
  apply sequence_set_valid.
Defined.

Lemma RemoveList_keeps_the_others_in_order_witness :
  exists st',
    SequenceSet.RemoveList string Examples.sequence_label ["B"%string] false
      Examples.sequence_set = Some st'
    /\ SequenceSet.sequences st'
       = List.filter
           (SequenceSet.kept string Examples.sequence_label ["B"%string] false
              (SequenceSet.store Examples.sequence_set))
           (SequenceSet.sequences Examples.sequence_set)
    /\ (forall p,
          SequenceSet.store st' !! p
          = if bool_decide (p ∈ SequenceSet.sequences Examples.sequence_set)
               && negb (SequenceSet.kept string Examples.sequence_label ["B"%string]
                          false (SequenceSet.store Examples.sequence_set) p)
            then None else SequenceSet.store Examples.sequence_set !! p)
    /\ SequenceSet.valid string st'.
Proof.
  apply (RemoveList_keeps_the_others_in_order string Examples.sequence_label
           ["B"%string] false Examples.sequence_set).
  apply sequence_set_valid.
Defined.

Lemma FindSequence_after_RemoveList_witness :
  SequenceSet.FindSequence string Examples.sequence_label
    (SequenceSet.Build [0%nat; 2%nat] (delete 1%nat Examples.sequence_store)) "B"
  = Some None.
Proof.
  apply (FindSequence_after_RemoveList string Examples.sequence_label
           ["B"%string] false Examples.sequence_set
           (SequenceSet.Build [0%nat; 2%nat] (delete 1%nat Examples.sequence_store)) "B").
  - apply sequence_set_valid.
  - vm_compute. reflexivity.
Defined.

Lemma clear_deletes_each_sequence_once_witness :
  match SequenceSet.clear string Examples.sequence_set with
  | Some st' =>
    NoDup (SequenceSet.sequences Examples.sequence_set)
    /\ SequenceSet.sequences st' = []
    /\ forall p,
         SequenceSet.store st' !! p
         = if bool_decide (p ∈ SequenceSet.sequences Examples.sequence_set)
           then None else SequenceSet.store Examples.sequence_set !! p
  | None => ~ NoDup (SequenceSet.sequences Examples.sequence_set)
  end.
Proof.
  apply (clear_deletes_each_sequence_once string Examples.sequence_label
           Examples.sequence_set).
  apply sequence_set_valid.
Defined.

(** The set after [RemoveList] with the label B, plain and inverted, and
    after [clear]; a set that holds the same pointer twice cannot be
    cleared. *)
Example SequenceSet_on_the_examples :
  SequenceSet.RemoveList string Examples.sequence_label ["B"%string] false
    Examples.sequence_set
  = Some (SequenceSet.Build [0%nat; 2%nat] (delete 1%nat Examples.sequence_store))
  /\ SequenceSet.RemoveList string Examples.sequence_label ["B"%string] true
       Examples.sequence_set
     = Some (SequenceSet.Build [1%nat] {[ 1%nat := "B"%string ]})
  /\ SequenceSet.clear string Examples.sequence_set = Some (SequenceSet.Build [] ∅)
  /\ SequenceSet.clear string
       (SequenceSet.Build [0%nat; 0%nat] Examples.sequence_store) = None.
Proof. repeat split; vm_compute; reflexivity. Qed.

(* --------------------------------------------------------------------- *)
(** ** JsonValueObject                                                     *)
(* --------------------------------------------------------------------- *)

Section JsonObjectFacts.
Import JsonValueObject.

Lemma Has_lookup (o : gmap string pointer) (name : string) :
  Has o name = match o !! name with Some _ => true | None => false end.
Proof.
  unfold Has. destruct (o !! name) eqn:E.
  - apply bool_decide_eq_true_2. eauto.
  - apply bool_decide_eq_false_2. intros [? [=]].
Qed.

(** X29.  In a JSON object, [Set] makes the key present with the value given,
    [erase] reports whether the key was present and makes it absent, both
    leave every other key as it was, and the size changes by one exactly
    when a key is added or taken away. *)
Theorem Set_and_erase_change_one_key (o : gmap string pointer) (name : string) (value : pointer) :
  (Has (Set_ o name value) name = true
   /\ Get (Set_ o name value) name = value
   /\ size (Set_ o name value) = size o + (if Has o name then 0 else 1))
  /\ ((erase o name).1 = Has o name
      /\ Has (erase o name).2 name = false
      /\ Get (erase o name).2 name = None
      /\ size (erase o name).2 = size o - (if Has o name then 1 else 0))
  /\ (forall other, other <> name ->
        Has (Set_ o name value) other = Has o other
        /\ Get (Set_ o name value) other = Get o other
        /\ Has (erase o name).2 other = Has o other
        /\ Get (erase o name).2 other = Get o other).
Proof.
  split; [| split].
  - unfold Get. rewrite !Has_lookup. unfold Set_, size. rewrite !lookup_insert_eq.
    split; [reflexivity | split; [reflexivity |]].
    destruct (o !! name) as [v |] eqn:E.
    + rewrite map_size_insert_Some by eauto. lia.
    + rewrite map_size_insert_None by exact E. lia.
  - unfold Get, erase. cbn [fst snd]. rewrite !Has_lookup. unfold size.
    rewrite !lookup_delete_eq.
    split; [| split; [reflexivity | split; [reflexivity |]]].
    + destruct (o !! name) eqn:E.
      * apply bool_decide_eq_true_2. eauto.
      * apply bool_decide_eq_false_2. intros [? [=]].
    + destruct (o !! name) as [v |] eqn:E.
      * rewrite map_size_delete_Some by eauto.
        assert (0 < base.size o)%nat; [| lia].
        destruct (decide (base.size o = 0%nat)) as [H0 | H0]; [| lia].
        apply map_size_empty_inv in H0. subst o. rewrite lookup_empty in E. discriminate.
      * rewrite map_size_delete_None by exact E. lia.
  - intros other Hne. unfold Get, erase, Set_. cbn [snd]. rewrite !Has_lookup.
    rewrite !lookup_insert_ne, !lookup_delete_ne by congruence. auto.
Qed.

End JsonObjectFacts.

(* --------------------------------------------------------------------- *)
(** ** Logging                                                             *)
(* --------------------------------------------------------------------- *)

Section LoggingFacts.
Import Logging.

Variable cout : nat.

Lemma has_stdout_elem (ostreams_ : list nat) :
  has_stdout cout ostreams_ = true <-> cout ∈ ostreams_.
Proof.
  induction ostreams_ as [| os rest IH]; simpl.
  - split; [discriminate | intros H; apply elem_of_nil in H; contradiction].
  - destruct (Nat.eqb_spec os cout) as [-> | Hne].
    + split; [intros _; left | reflexivity].
    + rewrite IH. split; [intros H; right; exact H |].
      intros H. apply elem_of_cons in H. destruct H as [-> | H]; [contradiction | exact H].
Qed.

(** X30.  After [LogToStdout] the standard output is among the streams; the
    call adds it at the end when it was not there, and changes nothing
    when it was: a second call has no effect, and streams that were all
    different stay all different. *)
Theorem LogToStdout_adds_stdout_once (ostreams_ : list nat) :
  cout ∈ LogToStdout cout ostreams_
  /\ LogToStdout cout (LogToStdout cout ostreams_) = LogToStdout cout ostreams_
  /\ (cout ∈ ostreams_ -> LogToStdout cout ostreams_ = ostreams_)
  /\ (cout ∉ ostreams_ -> LogToStdout cout ostreams_ = ostreams_ ++ [cout])
  /\ (NoDup ostreams_ -> NoDup (LogToStdout cout ostreams_)).
Proof.
  assert (Hin : cout ∈ LogToStdout cout ostreams_).
  { unfold LogToStdout. destruct (has_stdout cout ostreams_) eqn:E.
    - apply has_stdout_elem, E.
    - apply elem_of_app. right. left. }
  split; [exact Hin | split; [| split; [| split]]].
  - unfold LogToStdout at 1.
    rewrite (proj2 (has_stdout_elem _) Hin). reflexivity.
  - intros H. unfold LogToStdout. rewrite (proj2 (has_stdout_elem _) H). reflexivity.
  - intros H. unfold LogToStdout.
    destruct (has_stdout cout ostreams_) eqn:E; [| reflexivity].
    apply has_stdout_elem in E. contradiction.
  - intros Hnodup. unfold LogToStdout.
    destruct (has_stdout cout ostreams_) eqn:E; [exact Hnodup |].
    apply NoDup_app. split; [exact Hnodup | split].
    + intros x Hx Hx'. apply list_elem_of_singleton in Hx'. subst x.
      apply has_stdout_elem in Hx. congruence.
    + apply NoDup_singleton.
Qed.

End LoggingFacts.
